(** * The custom transactional KV adapter of 3FS

    A shallow embedding of [src/fdb/CustomTransaction.{h,cc}]: the two
    transaction classes [CustomReadOnlyTransaction] and [CustomTransaction]
    that adapt the [ITransaction] interface of the metadata service to the
    C client of the Rust key-value server ([kvstore_client.h]).

    Every C++ method is a function that threads two pieces of state
    explicitly: the fields of the transaction object ([this]) and the state
    of the key-value service behind the client handle.  The C client is an
    interface ([KvClient]); the adapter is written once, against the
    interface.

    Also embedded: [CustomKvEngineImpl] of [src/fdb/CustomKvEngine.cc], the
    connection of the engine to the client library, and the earlier version
    of [CustomTransaction] that polls its futures ([Polling]). *)

From Stdlib Require Import ZArith List String Ascii Bool Lia.
From Stdlib Require Import OrdersEx Sorted DecimalString RelationClasses.
Import ListNotations.
From Stdlib Require DecimalPos DecimalZ.

Open Scope string_scope.
Open Scope Z_scope.

(** ** Status codes and results ([common/utils/Status.h], [Result.h]) *)

(** The four codes the adapter produces: [StatusCode::kInvalidArg],
    [StatusCode::kIOError], [TransactionCode::kConflict] and
    [RPCCode::kTimeout]. *)
Inductive status_code_t : Type :=
| kInvalidArg
| kIOError
| kConflict
| kTimeout.

Definition status_code_eqb (a b : status_code_t) : bool :=
  match a, b with
  | kInvalidArg, kInvalidArg | kIOError, kIOError
  | kConflict, kConflict | kTimeout, kTimeout => true
  | _, _ => false
  end.

(** [Result<T>]: a value, or a status made by [makeError(code, msg)]. *)
Inductive Result (A : Type) : Type :=
| Ok (a : A)
| makeError (code : status_code_t) (msg : string).
Arguments Ok {A} a.
Arguments makeError {A} code msg.

Definition hasValue {A} (r : Result A) : bool :=
  match r with Ok _ => true | makeError _ _ => false end.

Definition hasError {A} (r : Result A) (c : status_code_t) : bool :=
  match r with Ok _ => false | makeError c' _ => status_code_eqb c' c end.

(** ** The C client interface ([kvstore_client.h]) *)

(** Bytes travel as [(pointer, length)] pairs, so keys and values are byte
    strings of explicit length; [string] is a list of 8-bit characters and
    holds NUL like any other byte. *)
Definition bytes := string.

(** [static_cast<int>(n)] of a [size_t] [n]: the low 32 bits of [n], read as
    a signed number. *)
Definition int_of_size_t (n : Z) : Z :=
  let m := n mod 2 ^ 32 in if m <? 2 ^ 31 then m else m - 2 ^ 32.

(** What the client is given for a byte string: the pointer, that is the
    bytes that lie there, and the [int] the adapter passes as their
    number. *)
Record Span : Type := mkSpan {
  span_data : bytes;
  span_length : Z
}.

(** The argument pair [(s.data(), static_cast<int>(s.size()))]. *)
Definition span (s : bytes) : Span :=
  mkSpan s (int_of_size_t (Z.of_nat (String.length s))).

(** The size of [s] is an [int]: [s] is shorter than 2^31 bytes. *)
Definition fits (s : bytes) : Prop := Z.of_nat (String.length s) < 2 ^ 31.

(** Opaque [void*] handles; the null pointer is [None] of [option handle]. *)
Definition handle := nat.

(** [KvResult.error_code].  The header that gives the [KV_ERROR_*] constants
    their numbers is not among the sources; [commit] only switches on three of
    them, every other value falls to [default]. *)
Inductive KvErrorCode : Type :=
| KV_ERROR_TRANSACTION_CONFLICT
| KV_ERROR_TRANSACTION_TIMEOUT
| KV_ERROR_TRANSACTION_NOT_FOUND
| KV_ERROR_OTHER (n : Z).

Record KvResult : Type := mkKvResult {
  success : bool;
  error_code : KvErrorCode;
  error_message : option string   (* char*, may be null *)
}.

(** [KvBinaryData]: [data] is a pointer; [None] is the null pointer and
    [Some s] points to [length s] bytes. *)
Record KvBinaryData : Type := mkKvBinaryData {
  data : option bytes
}.

(** [KvPairArray]: [count] pairs. *)
Definition KvPairArray := list (bytes * bytes).
Definition count (a : KvPairArray) : Z := Z.of_nat (List.length a).

(** Return value of the two synchronous versionstamp calls, compared with
    [KV_FUNCTION_SUCCESS]. *)
Inductive KvFunctionResult : Type :=
| KV_FUNCTION_SUCCESS
| KV_FUNCTION_FAILURE (rc : Z).

(** The functions of the C client the adapter calls, over the state [W] of
    client and server.  A call that returns a future is fused with the wait
    for the future ([waitForFuture]) and with the [kv_future_get_*] call that
    reads it: the asynchrony is not modelled, a future is taken to become
    ready.  The client handle argument is left out, [W] stands for it.  A
    key or a value is passed as pointer and [int] length ([Span]).
    [kv_pair_array_free] gets the address of the adapter's [KvPairArray] and
    answers with the struct as it leaves it: the adapter reads the [count]
    field once more after the call. *)
Class KvClient (W : Type) : Type := {
  kv_read_transaction_begin : Z -> W -> option handle * W;
  kv_read_transaction_get : handle -> Span -> W -> KvResult * KvBinaryData * W;
  kv_read_transaction_get_range :
    handle -> Span -> Span -> Z -> Z -> Z -> Z -> Z -> W ->
    KvResult * KvPairArray * W;
  kv_read_transaction_destroy : handle -> W -> W;
  kv_transaction_begin : Z -> W -> option handle * W;
  kv_transaction_get : handle -> Span -> W -> KvResult * KvBinaryData * W;
  kv_transaction_get_range :
    handle -> Span -> Span -> Z -> Z -> Z -> Z -> Z -> W ->
    KvResult * KvPairArray * W;
  kv_transaction_set : handle -> Span -> Span -> W -> KvResult * W;
  kv_transaction_delete : handle -> Span -> W -> KvResult * W;
  kv_transaction_set_versionstamped_key :
    handle -> Span -> Span -> W -> KvFunctionResult * W;
  kv_transaction_set_versionstamped_value :
    handle -> Span -> Span -> W -> KvFunctionResult * W;
  kv_transaction_commit : handle -> W -> KvResult * W;
  kv_transaction_abort : handle -> W -> KvResult * W;
  kv_pair_array_free : KvPairArray -> W -> KvPairArray * W
}.

(** ** [ITransaction] data ([common/kv/ITransaction.h]) *)

Record KeySelector : Type := mkKeySelector {
  key : bytes;
  inclusive : bool
}.

Record GetRangeResult : Type := mkGetRangeResult {
  kvs : list (bytes * bytes);
  hasMore : bool
}.

(** [static_cast<size_t>(limit)] for an [int32_t limit] on a 64-bit target. *)
Definition size_t_of_int32 (limit : Z) : Z := limit mod 2 ^ 64.

(** [result.error_message ? result.error_message : dflt] *)
Definition message_or (r : KvResult) (dflt : string) : string :=
  match error_message r with Some m => m | None => dflt end.

(** ** [CustomReadOnlyTransaction] *)

Module CustomReadOnlyTransaction.

(** The fields the methods read or write; [transaction_id_] only feeds the
    log and [engine_] is never used by a method. *)
Record t : Type := mk {
  read_version_ : option Z;
  cancelled_ : bool;
  reset_ : bool;
  client_handle_ : option handle
}.

(** The constructor. *)
Definition create (client_handle : option handle) : t :=
  mk None false false client_handle.

Definition setReadVersion (version : Z) (tx : t) : t :=
  mk (Some version) (cancelled_ tx) (reset_ tx) (client_handle_ tx).

(** The guard every read opens with:
    [cancelled_.load() || reset_.load()]. *)
Definition finished (tx : t) : bool := cancelled_ tx || reset_ tx.

Section Methods.
Context {W : Type} `{KvClient W}.

Definition snapshotGet (tx : t) (k : bytes) (w : W)
  : Result (option bytes) * W :=
  if finished tx then
    (makeError kInvalidArg "Transaction is cancelled or reset", w)
  else
    match client_handle_ tx with
    | None => (makeError kIOError "Client handle not available", w)
    | Some _ =>
      match kv_read_transaction_begin
              (match read_version_ tx with Some v => v | None => 0 end) w with
      | (None, w1) =>
        (makeError kIOError "Failed to get read transaction handle", w1)
      | (Some read_tx, w1) =>
        let '(result, value, w2) :=
          kv_read_transaction_get read_tx (span k) w1 in
        match success result, data value with
        | true, Some result_str =>
          (Ok (Some result_str), kv_read_transaction_destroy read_tx w2)
        | _, _ =>
          (Ok None, kv_read_transaction_destroy read_tx w2)
        end
      end
    end.

(** Placeholder in the source: no call to the client. *)
Definition get (tx : t) (k : bytes) (w : W) : Result (option bytes) * W :=
  if finished tx then
    (makeError kInvalidArg "Transaction is cancelled or reset", w)
  else (Ok None, w).

Definition snapshotGetRange (tx : t) (begin_ end_ : KeySelector)
           (limit : Z) (w : W) : Result GetRangeResult * W :=
  if finished tx then
    (makeError kInvalidArg "Transaction is cancelled or reset", w)
  else
    match client_handle_ tx with
    | None => (makeError kIOError "Client handle not available", w)
    | Some _ =>
      match kv_read_transaction_begin
              (match read_version_ tx with Some v => v | None => 0 end) w with
      | (None, w1) =>
        (makeError kIOError "Failed to get read transaction handle", w1)
      | (Some read_tx, w1) =>
        let '(result, pair_array, w2) :=
          kv_read_transaction_get_range read_tx
            (span (key begin_)) (span (key end_))
            0 (if inclusive begin_ then 0 else 1)
            0 (if inclusive end_ then 1 else 0)
            limit w1 in
        if success result then
          (* the pairs are copied out, then the array is freed, then its
             count is read *)
          let kvs := pair_array in
          let '(freed, w3) := kv_pair_array_free pair_array w2 in
          let has_more := count freed =? size_t_of_int32 limit in
          (Ok (mkGetRangeResult kvs has_more),
           kv_read_transaction_destroy read_tx w3)
        else
          let error_msg := message_or result "Unknown error" in
          (makeError kIOError
             ("Snapshot get range operation failed: " ++ error_msg),
           kv_read_transaction_destroy read_tx w2)
      end
    end.

(** Placeholder in the source: an empty page, no call to the client. *)
Definition getRange (tx : t) (begin_ end_ : KeySelector) (limit : Z)
           (w : W) : Result GetRangeResult * W :=
  if finished tx then
    (makeError kInvalidArg "Transaction is cancelled or reset", w)
  else (Ok (mkGetRangeResult [] false), w).

(** [compare_exchange_strong(false, true)] on [cancelled_]; the abort
    call to the server is a TODO in the source. *)
Definition cancel (tx : t) (w : W) : Result unit * t * W :=
  (Ok tt, mk (read_version_ tx) true (reset_ tx) (client_handle_ tx), w).

End Methods.

Definition reset (tx : t) : t :=
  mk None false true (client_handle_ tx).

End CustomReadOnlyTransaction.


(** ** [CustomTransaction] *)

Module CustomTransaction.

Record t : Type := mk {
  read_version_ : option Z;
  cancelled_ : bool;
  reset_ : bool;
  committed_ : bool;
  committed_version_ : Z;
  client_handle_ : option handle;
  transaction_handle_ : option handle
}.

(** The constructor: the in-class initialisers of the header. *)
Definition create (client_handle : option handle) : t :=
  mk None false false false (-1) client_handle None.

Definition with_transaction_handle (tx : t) (h : option handle) : t :=
  mk (read_version_ tx) (cancelled_ tx) (reset_ tx) (committed_ tx)
     (committed_version_ tx) (client_handle_ tx) h.

Definition with_cancelled (tx : t) (b : bool) : t :=
  mk (read_version_ tx) b (reset_ tx) (committed_ tx)
     (committed_version_ tx) (client_handle_ tx) (transaction_handle_ tx).

Definition with_committed (tx : t) (b : bool) : t :=
  mk (read_version_ tx) (cancelled_ tx) (reset_ tx) b
     (committed_version_ tx) (client_handle_ tx) (transaction_handle_ tx).

Definition with_committed_version (tx : t) (v : Z) : t :=
  mk (read_version_ tx) (cancelled_ tx) (reset_ tx) (committed_ tx)
     v (client_handle_ tx) (transaction_handle_ tx).

Definition setReadVersion (version : Z) (tx : t) : t :=
  mk (Some version) (cancelled_ tx) (reset_ tx) (committed_ tx)
     (committed_version_ tx) (client_handle_ tx) (transaction_handle_ tx).

(** The guard every data method opens with:
    [cancelled_.load() || reset_.load() || committed_.load()]. *)
Definition finished (tx : t) : bool :=
  cancelled_ tx || reset_ tx || committed_ tx.

(** [value_buffer.resize(value.size() + 10, '\0')] appends ten NUL bytes. *)
Definition resize_plus_10 (value : bytes) : bytes :=
  value ++ string_of_list_ascii (repeat zero 10).

(** [fmt::format("{}", result)] for the integer return code. *)
Definition fmt_int (n : Z) : string := NilZero.string_of_int (Z.to_int n).

Section Methods.
Context {W : Type} `{KvClient W}.

(** Returns [folly::unit] in the source and leaves the handle in
    [transaction_handle_]; here success also hands the (non-null) handle to
    the caller, who reads the field next. *)
Definition ensureTransaction (tx : t) (w : W) : Result handle * t * W :=
  match transaction_handle_ tx with
  | Some h => (Ok h, tx, w)
  | None =>
    match client_handle_ tx with
    | None => (makeError kIOError "Client handle not available", tx, w)
    | Some _ =>
      match kv_transaction_begin 30 w with
      | (Some h, w1) => (Ok h, with_transaction_handle tx (Some h), w1)
      | (None, w1) =>
        (makeError kIOError "Failed to get transaction handle", tx, w1)
      end
    end
  end.

Definition snapshotGet (tx : t) (k : bytes) (w : W)
  : Result (option bytes) * t * W :=
  if finished tx then (makeError kInvalidArg "Transaction is finished", tx, w)
  else
    match client_handle_ tx with
    | None => (makeError kIOError "Client handle not available", tx, w)
    | Some _ =>
      match kv_read_transaction_begin
              (match read_version_ tx with Some v => v | None => 0 end) w with
      | (None, w1) =>
        (makeError kIOError "Failed to get read transaction handle", tx, w1)
      | (Some read_tx, w1) =>
        let '(result, value, w2) :=
          kv_read_transaction_get read_tx (span k) w1 in
        match success result, data value with
        | true, Some result_str =>
          (Ok (Some result_str), tx, kv_read_transaction_destroy read_tx w2)
        | _, _ =>
          (Ok None, tx, kv_read_transaction_destroy read_tx w2)
        end
      end
    end.

Definition get (tx : t) (k : bytes) (w : W)
  : Result (option bytes) * t * W :=
  if finished tx then (makeError kInvalidArg "Transaction is finished", tx, w)
  else
    match ensureTransaction tx w with
    | (makeError c m, tx1, w1) => (makeError c m, tx1, w1)
    | (Ok h, tx1, w1) =>
      let '(result, value, w2) := kv_transaction_get h (span k) w1 in
      match success result, data value with
      | true, Some result_str => (Ok (Some result_str), tx1, w2)
      | _, _ => (Ok None, tx1, w2)
      end
    end.

Definition getRange (tx : t) (begin_ end_ : KeySelector) (limit : Z) (w : W)
  : Result GetRangeResult * t * W :=
  if finished tx then (makeError kInvalidArg "Transaction is finished", tx, w)
  else
    match ensureTransaction tx w with
    | (makeError c m, tx1, w1) => (makeError c m, tx1, w1)
    | (Ok h, tx1, w1) =>
      let '(result, pair_array, w2) :=
        kv_transaction_get_range h (span (key begin_)) (span (key end_))
          0 (if inclusive begin_ then 0 else 1)
          0 (if inclusive end_ then 1 else 0)
          limit w1 in
      if success result then
        (* the pairs are copied out, then the array is freed, then its
           count is read *)
        let kvs := pair_array in
        let '(freed, w3) := kv_pair_array_free pair_array w2 in
        let has_more :=
          negb (count freed =? 0)
          && (count freed =? size_t_of_int32 limit) in
        (Ok (mkGetRangeResult kvs has_more), tx1, w3)
      else
        let error_msg := message_or result "Unknown error" in
        (makeError kIOError ("Get range operation failed: " ++ error_msg),
         tx1, w2)
    end.

(** "For simplicity, just delegate to getRange". *)
Definition snapshotGetRange (tx : t) (begin_ end_ : KeySelector) (limit : Z)
           (w : W) : Result GetRangeResult * t * W :=
  getRange tx begin_ end_ limit w.

Definition cancel (tx : t) (w : W) : Result unit * t * W :=
  if cancelled_ tx then (Ok tt, tx, w)
  else
    let tx0 := with_cancelled tx true in
    match transaction_handle_ tx0 with
    | Some h =>
      let '(_, w1) := kv_transaction_abort h w in
      (Ok tt, with_transaction_handle tx0 None, w1)
    | None => (Ok tt, tx0, w)
    end.

(** TODO in the source: nothing is sent to the client. *)
Definition addReadConflict (tx : t) (k : bytes) (w : W)
  : Result unit * t * W :=
  if finished tx then (makeError kInvalidArg "Transaction is finished", tx, w)
  else (Ok tt, tx, w).

(** TODO in the source: nothing is sent to the client. *)
Definition addReadConflictRange (tx : t) (begin_ end_ : bytes) (w : W)
  : Result unit * t * W :=
  if finished tx then (makeError kInvalidArg "Transaction is finished", tx, w)
  else (Ok tt, tx, w).

Definition set (tx : t) (k value : bytes) (w : W) : Result unit * t * W :=
  if finished tx then (makeError kInvalidArg "Transaction is finished", tx, w)
  else
    match ensureTransaction tx w with
    | (makeError c m, tx1, w1) => (makeError c m, tx1, w1)
    | (Ok h, tx1, w1) =>
      let '(result, w2) := kv_transaction_set h (span k) (span value) w1 in
      if negb (success result) then
        let error_msg := message_or result "Unknown error" in
        (makeError kIOError ("Set operation failed: " ++ error_msg), tx1, w2)
      else (Ok tt, tx1, w2)
    end.

Definition clear (tx : t) (k : bytes) (w : W) : Result unit * t * W :=
  if finished tx then (makeError kInvalidArg "Transaction is finished", tx, w)
  else
    match ensureTransaction tx w with
    | (makeError c m, tx1, w1) => (makeError c m, tx1, w1)
    | (Ok h, tx1, w1) =>
      let '(result, w2) := kv_transaction_delete h (span k) w1 in
      if negb (success result) then
        let error_msg := message_or result "Unknown error" in
        (makeError kIOError ("Delete operation failed: " ++ error_msg),
         tx1, w2)
      else (Ok tt, tx1, w2)
    end.

(** [offset] is not read after the log line: "The offset parameter is ignored
    in this implementation as the Rust client handles versionstamp placement
    automatically at the end of the prefix". *)
Definition setVersionstampedKey (tx : t) (k : bytes) (offset : Z)
           (value : bytes) (w : W) : Result unit * t * W :=
  if finished tx then (makeError kInvalidArg "Transaction is finished", tx, w)
  else
    match ensureTransaction tx w with
    | (makeError c m, tx1, w1) => (makeError c m, tx1, w1)
    | (Ok h, tx1, w1) =>
      if (k =? "")%string then
        (makeError kInvalidArg
           "SetVersionstampedKey: key prefix cannot be empty", tx1, w1)
      else
        match kv_transaction_set_versionstamped_key
                h (span k) (span value) w1 with
        | (KV_FUNCTION_SUCCESS, w2) => (Ok tt, tx1, w2)
        | (KV_FUNCTION_FAILURE result, w2) =>
          (makeError kIOError
             ("Set versionstamped key operation failed: result="
                ++ fmt_int result ++ ", key_prefix='" ++ k
                ++ "', value='" ++ value ++ "'"), tx1, w2)
        end
    end.

Definition setVersionstampedValue (tx : t) (k value : bytes) (offset : Z)
           (w : W) : Result unit * t * W :=
  if finished tx then (makeError kInvalidArg "Transaction is finished", tx, w)
  else
    match ensureTransaction tx w with
    | (makeError c m, tx1, w1) => (makeError c m, tx1, w1)
    | (Ok h, tx1, w1) =>
      if (k =? "")%string then
        (makeError kInvalidArg
           "SetVersionstampedValue: key cannot be empty", tx1, w1)
      else
        let value_buffer := resize_plus_10 value in
        match kv_transaction_set_versionstamped_value
                h (span k) (span value_buffer) w1 with
        | (KV_FUNCTION_SUCCESS, w2) => (Ok tt, tx1, w2)
        | (KV_FUNCTION_FAILURE result, w2) =>
          (makeError kIOError
             ("Set versionstamped value operation failed: result="
                ++ fmt_int result ++ ", key='" ++ k
                ++ "', value_prefix='" ++ value ++ "'"), tx1, w2)
        end
    end.

(** [now] is the reading of [std::chrono::steady_clock] in microseconds that
    the method takes after the engine accepted the commit. *)
Definition commit (tx : t) (now : Z) (w : W) : Result unit * t * W :=
  if cancelled_ tx || reset_ tx then
    (makeError kInvalidArg "Transaction is cancelled or reset", tx, w)
  else if committed_ tx then
    (* compare_exchange_strong(false, true) failed: already committed *)
    (Ok tt, tx, w)
  else
    let tx0 := with_committed tx true in
    match ensureTransaction tx0 w with
    | (makeError c m, tx1, w1) => (makeError c m, tx1, w1)
    | (Ok h, tx1, w1) =>
      let '(result, w2) := kv_transaction_commit h w1 in
      if negb (success result) then
        let error_code :=
          match error_code result with
          | KV_ERROR_TRANSACTION_CONFLICT => kConflict
          | KV_ERROR_TRANSACTION_TIMEOUT => kTimeout
          | KV_ERROR_TRANSACTION_NOT_FOUND => kInvalidArg
          | KV_ERROR_OTHER _ => kIOError
          end in
        let error_msg := message_or result "Commit failed" in
        (makeError error_code error_msg, tx1, w2)
      else
        (Ok tt, with_committed_version tx1 now, w2)
    end.

End Methods.

Definition getCommittedVersion (tx : t) : Z := committed_version_ tx.

Definition reset (tx : t) : t :=
  mk None false true false (-1) (client_handle_ tx) (transaction_handle_ tx).

End CustomTransaction.


(** ** [CustomKvEngine]: the factory of the two transaction kinds *)

Module CustomKvEngine.

Record t : Type := mk {
  healthy_ : bool;
  client_handle_ : option handle
}.

(** [nullptr] when the engine is not healthy. *)
Definition createReadonlyTransaction (e : t)
  : option CustomReadOnlyTransaction.t :=
  if healthy_ e then Some (CustomReadOnlyTransaction.create (client_handle_ e))
  else None.

Definition createReadWriteTransaction (e : t) : option CustomTransaction.t :=
  if healthy_ e then Some (CustomTransaction.create (client_handle_ e))
  else None.

End CustomKvEngine.

(** ** The key-value service behind the client

    The Rust server and its C client are not among the sources.  The module
    below is the engine as the spec describes it: "a sorted map guarded by a
    coarse lock plus a global commit counter", with snapshot reads,
    read-conflict detection at commit and versionstamps. *)

Module MemKv.

(** Modelled from the spec: the engine's key order, which is not among the
    sources; "binary-safe keys/values with lexicographic key ordering". *)
Definition key_ltb (a b : bytes) : bool :=
  match String_as_OT.compare a b with Lt => true | _ => false end.

(** Modelled from the spec: the engine's key order, non-strict. *)
Definition key_leb (a b : bytes) : bool :=
  match String_as_OT.compare a b with Gt => false | _ => true end.

(** Modelled from the spec: the engine's "sorted map", an association list
    kept in strictly ascending key order. *)
Definition Store := list (bytes * bytes).

(** Modelled from the spec: what "sorted" means for the engine's map,
    strictly ascending keys. *)
Definition ascending (s : list (bytes * bytes)) : Prop :=
  StronglySorted (fun p q => key_ltb (fst p) (fst q) = true) s.

(** Modelled from the spec: a write into the engine's sorted map. *)
Fixpoint upsert (k v : bytes) (s : Store) : Store :=
  match s with
  | [] => [(k, v)]
  | (k', v') :: r =>
    match String_as_OT.compare k k' with
    | Lt => (k, v) :: s
    | Eq => (k, v) :: r
    | Gt => (k', v') :: upsert k v r
    end
  end.

(** Modelled from the spec: a clear in the engine's sorted map. *)
Fixpoint remove (k : bytes) (s : Store) : Store :=
  match s with
  | [] => []
  | (k', v') :: r =>
    if (k =? k')%string then remove k r else (k', v') :: remove k r
  end.

(** Modelled from the spec: a point read in the engine's sorted map. *)
Fixpoint lookup (k : bytes) (s : Store) : option bytes :=
  match s with
  | [] => None
  | (k', v') :: r => if (k =? k')%string then Some v' else lookup k r
  end.

(** Modelled from the spec: the engine's "big-endian" numbers, [n] bytes of
    [x], most significant first. *)
Fixpoint big_endian (n : nat) (x : Z) : bytes :=
  match n with
  | O => ""
  | S m => big_endian m (x / 256) ++ String (ascii_of_N (Z.to_N (x mod 256))) ""
  end.

(** Modelled from the spec: the engine's versionstamp, which is not among
    the sources.  "Versionstamp (10 bytes):
    { commit_version(8, big-endian), intra_txn_seq(2) }"; the bytes are
    those of the numbers as long as the commit version is below 2^64 and
    the sequence number below 2^16, which [transaction_commit] and
    [buffer_write] see to. *)
Definition versionstamp (commit_version intra_txn_seq : Z) : bytes :=
  big_endian 8 commit_version ++ big_endian 2 intra_txn_seq.

(** Modelled from the spec: the writes an engine transaction buffers until
    commit, one per writing call of the client. *)
Inductive Mutation : Type :=
| MSet (k v : bytes)
| MClear (k : bytes)
| MVersionstampedKey (prefix v : bytes)
| MVersionstampedValue (k buffer : bytes).

(** Modelled from the spec: one committed write of the engine, with the
    commit version, the key, and the value ([None] for a clear). *)
Record LogEntry : Type := mkLogEntry {
  le_version : Z;
  le_key : bytes;
  le_value : option bytes
}.

(** Modelled from the spec: how the engine, which is not among the sources,
    turns a buffered write into a committed one.  "At commit time the engine
    inserts the commit versionstamp (10 bytes)": at the end of the key
    prefix, and over the last ten bytes of the value buffer, as the comments
    of [setVersionstampedKey] and [setVersionstampedValue] say of the
    client. *)
Definition stamp (cv seq : Z) (m : Mutation) : LogEntry :=
  match m with
  | MSet k v => mkLogEntry cv k (Some v)
  | MClear k => mkLogEntry cv k None
  | MVersionstampedKey prefix v =>
    mkLogEntry cv (prefix ++ versionstamp cv seq) (Some v)
  | MVersionstampedValue k buffer =>
    mkLogEntry cv k
      (Some (substring 0 (String.length buffer - 10) buffer
             ++ versionstamp cv seq))
  end.

(** Modelled from the spec: the engine's "intra_txn_seq", mutation number
    [seq], [seq + 1], ... of the transaction.  A commit numbers from 0, and
    a transaction holds 2^16 writes at most ([buffer_write]), so the numbers
    of a commit fit the two bytes of the versionstamp. *)
Fixpoint stamp_all (cv seq : Z) (ms : list Mutation) : list LogEntry :=
  match ms with
  | [] => []
  | m :: r => stamp cv seq m :: stamp_all cv (seq + 1) r
  end.

(** Modelled from the spec: one committed write applied to the engine's
    sorted map. *)
Definition apply (e : LogEntry) (s : Store) : Store :=
  match le_value e with
  | Some v => upsert (le_key e) v s
  | None => remove (le_key e) s
  end.

(** Modelled from the spec: the engine's sorted map as of version [v], for
    "snapshot reads"; the log is newest first. *)
Definition store_at (v : Z) (log : list LogEntry) : Store :=
  fold_right apply [] (filter (fun e => le_version e <=? v) log).

(** Modelled from the spec: the engine's "read set", a "read-conflict point"
    or a "read-conflict range" per read. *)
Inductive ReadConflict : Type :=
| ReadKey (k : bytes)
| ReadRange (b : bytes) (b_or_equal : Z) (e : bytes) (e_or_equal : Z).

(** Modelled from the spec: the engine's range selection, which is not among
    the sources.  The spec has selectors "{key, inclusive:bool} only"; the
    adapter sends offsets 0, [begin_or_equal = 0] for an inclusive begin and
    [end_or_equal = 1] for an inclusive end. *)
Definition in_range (b : bytes) (b_or_equal : Z) (e : bytes) (e_or_equal : Z)
           (k : bytes) : bool :=
  (if b_or_equal =? 0 then key_leb b k else key_ltb b k)
  && (if e_or_equal =? 0 then key_ltb k e else key_leb k e).

(** Modelled from the spec: whether a key lies in an entry of the engine's
    read set. *)
Definition covers (k : bytes) (r : ReadConflict) : bool :=
  match r with
  | ReadKey k' => (k =? k')%string
  | ReadRange b bo e eo => in_range b bo e eo k
  end.

(** Modelled from the spec: an open read-write transaction of the engine,
    with its "read version", its read set and its buffered writes. *)
Record TxState : Type := mkTxState {
  tx_read_version : Z;
  tx_reads : list ReadConflict;
  tx_writes : list Mutation          (* oldest first *)
}.

(** Modelled from the spec: the state of the engine, which is not among the
    sources.  "A sorted map guarded by a coarse lock plus a global commit
    counter", kept as the log of committed writes from which the map of every
    version is rebuilt ([store_at]), with the tables of open transactions. *)
Record World : Type := mkWorld {
  commit_counter : Z;
  log : list LogEntry;                (* newest first *)
  txs : list (handle * TxState);
  read_txs : list (handle * Z);       (* handle, snapshot version *)
  next_handle : handle
}.

(** Modelled from the spec: states the engine can reach, where every
    committed write carries a version the commit counter has reached. *)
Definition well_formed (w : World) : Prop :=
  Forall (fun e => le_version e <= commit_counter w) (log w).

(** Modelled from the spec: the engine with nothing committed. *)
Definition empty : World := mkWorld 0 [] [] [] 1%nat.

(** Modelled from the spec: the engine's table of handles, looked up. *)
Fixpoint assoc {A} (h : handle) (l : list (handle * A)) : option A :=
  match l with
  | [] => None
  | (h', a) :: r => if Nat.eqb h h' then Some a else assoc h r
  end.

(** Modelled from the spec: a handle taken off the engine's table. *)
Definition drop {A} (h : handle) (l : list (handle * A)) : list (handle * A) :=
  filter (fun p => negb (Nat.eqb h (fst p))) l.

(** Modelled from the spec: the engine's answer to a request it served. *)
Definition ok : KvResult := mkKvResult true (KV_ERROR_OTHER 0) None.

(** Modelled from the spec: the engine's answer to a request it refused. *)
Definition failed (c : KvErrorCode) (m : string) : KvResult :=
  mkKvResult false c (Some m).

(** Modelled from the spec: the engine's answer to a key or value whose
    length it cannot take. *)
Definition invalid : KvResult :=
  failed (KV_ERROR_OTHER 4) "invalid length".

(** Modelled from the spec: the engine's answer to a write for which the
    transaction has no sequence number left. *)
Definition too_many : KvResult :=
  failed (KV_ERROR_OTHER 3) "too many writes in one transaction".

(** Modelled from the spec: how the engine, which is not among the sources,
    reads a key or a value it is given.  "Binary-safe keys/values": the
    first [length] bytes at the pointer, whatever they are; the spec has no
    word on a length that is negative or runs past the bytes, which is
    refused here ([None]). *)
Definition received (p : Span) : option bytes :=
  if (0 <=? span_length p)
     && (span_length p <=? Z.of_nat (String.length (span_data p)))
  then Some (substring 0 (Z.to_nat (span_length p)) (span_data p))
  else None.

(** Modelled from the spec: the engine state with another table of
    read-write transactions. *)
Definition with_txs (w : World) (t : list (handle * TxState)) : World :=
  mkWorld (commit_counter w) (log w) t (read_txs w) (next_handle w).

(** Modelled from the spec: the engine state with another table of read
    transactions. *)
Definition with_read_txs (w : World) (t : list (handle * Z)) : World :=
  mkWorld (commit_counter w) (log w) (txs w) t (next_handle w).

(** Modelled from the spec: [kv_read_transaction_begin] of the absent
    client.  "set_read_version(v) (bounds snapshot)"; the adapter sends 0 when
    no read version was set, and the snapshot is then the latest committed
    version, as the tests [SnapshotGet] and [ReadAfterCommit] expect. *)
Definition read_transaction_begin (read_version : Z) (w : World)
  : option handle * World :=
  let h := next_handle w in
  let v := if read_version =? 0 then commit_counter w else read_version in
  (Some h,
   mkWorld (commit_counter w) (log w) (txs w) ((h, v) :: read_txs w) (S h)).

(** Modelled from the spec: [kv_read_transaction_get] of the absent client,
    "snapshot_get(k) -> optional value"; an absent key is a null [data], a
    present value, the empty one too, a non-null [data] with its length. *)
Definition read_transaction_get (h : handle) (key : Span) (w : World)
  : KvResult * KvBinaryData * World :=
  match received key with
  | None => (invalid, mkKvBinaryData None, w)
  | Some k =>
    match assoc h (read_txs w) with
    | None =>
      (failed (KV_ERROR_OTHER 1) "unknown read transaction",
       mkKvBinaryData None, w)
    | Some v => (ok, mkKvBinaryData (lookup k (store_at v (log w))), w)
    end
  end.

(** Modelled from the spec: the pairs of a range of the engine's map,
    "ordered list of (k,v)". *)
Definition range_of (b : bytes) (bo : Z) (e : bytes) (eo : Z) (s : Store)
  : Store :=
  filter (fun p => in_range b bo e eo (fst p)) s.

(** Modelled from the spec: the page of a range read of the engine, the
    first [limit] pairs of the range. *)
Definition page (b : bytes) (bo : Z) (e : bytes) (eo : Z) (limit : Z)
           (s : Store) : KvPairArray :=
  firstn (Z.to_nat limit) (range_of b bo e eo s).

(** Modelled from the spec: [kv_read_transaction_get_range] of the absent
    client, "snapshot_get_range(begin_sel, end_sel, limit)". *)
Definition read_transaction_get_range (h : handle) (begin_ end_ : Span)
           (b_offset bo e_offset eo limit : Z) (w : World)
  : KvResult * KvPairArray * World :=
  match received begin_, received end_ with
  | Some b, Some e =>
    match assoc h (read_txs w) with
    | None => (failed (KV_ERROR_OTHER 1) "unknown read transaction", [], w)
    | Some v => (ok, page b bo e eo limit (store_at v (log w)), w)
    end
  | _, _ => (invalid, [], w)
  end.

(** Modelled from the spec: [kv_read_transaction_destroy] of the absent
    client. *)
Definition read_transaction_destroy (h : handle) (w : World) : World :=
  with_read_txs w (drop h (read_txs w)).

(** Modelled from the spec: [kv_transaction_begin] of the absent client.
    The read version of a read-write transaction is the commit counter at
    its begin. *)
Definition transaction_begin (timeout_seconds : Z) (w : World)
  : option handle * World :=
  let h := next_handle w in
  (Some h,
   mkWorld (commit_counter w) (log w)
           ((h, mkTxState (commit_counter w) [] []) :: txs w)
           (read_txs w) (S h)).

(** Modelled from the spec: the engine's answer for a handle it does not
    know. *)
Definition not_found : KvResult :=
  failed KV_ERROR_TRANSACTION_NOT_FOUND "transaction not found".

(** Modelled from the spec: [kv_transaction_get] of the absent client.
    "get additionally records a read-conflict point on k"; the value is read
    at the read version of the transaction. *)
Definition transaction_get (h : handle) (key : Span) (w : World)
  : KvResult * KvBinaryData * World :=
  match received key with
  | None => (invalid, mkKvBinaryData None, w)
  | Some k =>
    match assoc h (txs w) with
    | None => (not_found, mkKvBinaryData None, w)
    | Some st =>
      let st' := mkTxState (tx_read_version st) (ReadKey k :: tx_reads st)
                           (tx_writes st) in
      (ok, mkKvBinaryData (lookup k (store_at (tx_read_version st) (log w))),
       with_txs w ((h, st') :: drop h (txs w)))
    end
  end.

(** Modelled from the spec: [kv_transaction_get_range] of the absent
    client.  "get_range records a read-conflict range". *)
Definition transaction_get_range (h : handle) (begin_ end_ : Span)
           (b_offset bo e_offset eo limit : Z) (w : World)
  : KvResult * KvPairArray * World :=
  match received begin_, received end_ with
  | Some b, Some e =>
    match assoc h (txs w) with
    | None => (not_found, [], w)
    | Some st =>
      let st' := mkTxState (tx_read_version st)
                           (ReadRange b bo e eo :: tx_reads st)
                           (tx_writes st) in
      (ok, page b bo e eo limit (store_at (tx_read_version st) (log w)),
       with_txs w ((h, st') :: drop h (txs w)))
    end
  | _, _ => (invalid, [], w)
  end.

(** Modelled from the spec: a write of the absent client, buffered in the
    engine transaction until commit.  The "intra_txn_seq" of a versionstamp
    has two bytes and versionstamps are "unique per mutation": a transaction
    takes 2^16 writes and no more. *)
Definition buffer_write (h : handle) (m : Mutation) (w : World)
  : KvResult * World :=
  match assoc h (txs w) with
  | None => (not_found, w)
  | Some st =>
    if Z.of_nat (List.length (tx_writes st)) <? 2 ^ 16 then
      let st' := mkTxState (tx_read_version st) (tx_reads st)
                           (tx_writes st ++ [m]) in
      (ok, with_txs w ((h, st') :: drop h (txs w)))
    else (too_many, w)
  end.

(** Modelled from the spec: [kv_transaction_set] of the absent client,
    "set(k,v)". *)
Definition transaction_set (h : handle) (key value : Span) (w : World)
  : KvResult * World :=
  match received key, received value with
  | Some k, Some v => buffer_write h (MSet k v) w
  | _, _ => (invalid, w)
  end.

(** Modelled from the spec: [kv_transaction_delete] of the absent client,
    "clear(k)". *)
Definition transaction_delete (h : handle) (key : Span) (w : World)
  : KvResult * World :=
  match received key with
  | Some k => buffer_write h (MClear k) w
  | None => (invalid, w)
  end.

(** Modelled from the spec: the [int] the two synchronous versionstamp
    calls of the absent client return. *)
Definition function_result (rw : KvResult * World) : KvFunctionResult * World :=
  if success (fst rw) then (KV_FUNCTION_SUCCESS, snd rw)
  else (KV_FUNCTION_FAILURE (-1), snd rw).

(** Modelled from the spec: [kv_transaction_set_versionstamped_key] of the
    absent client, "set_versionstamped_key(prefix, value)". *)
Definition transaction_set_versionstamped_key (h : handle)
           (key_prefix value : Span) (w : World) : KvFunctionResult * World :=
  match received key_prefix, received value with
  | Some prefix, Some v =>
    function_result (buffer_write h (MVersionstampedKey prefix v) w)
  | _, _ => (KV_FUNCTION_FAILURE (-1), w)
  end.

(** Modelled from the spec: [kv_transaction_set_versionstamped_value] of
    the absent client, "set_versionstamped_value(key, prefix)".  The buffer
    must have room for the ten bytes the engine overwrites. *)
Definition transaction_set_versionstamped_value (h : handle)
           (key value_buffer : Span) (w : World) : KvFunctionResult * World :=
  match received key, received value_buffer with
  | Some k, Some buffer =>
    if (String.length buffer <? 10)%nat then (KV_FUNCTION_FAILURE (-1), w)
    else function_result (buffer_write h (MVersionstampedValue k buffer) w)
  | _, _ => (KV_FUNCTION_FAILURE (-1), w)
  end.

(** Modelled from the spec: the engine's conflict test, which is not among
    the sources.  "A transaction fails at commit with conflict if any key in
    its read set was modified between its read version and commit
    version". *)
Definition conflicts (st : TxState) (l : list LogEntry) : bool :=
  existsb (fun e => (tx_read_version st <? le_version e)
                    && existsb (covers (le_key e)) (tx_reads st)) l.

(** Modelled from the spec: the engine's answer to a commit when the
    commit counter has no next value. *)
Definition exhausted : KvResult :=
  failed (KV_ERROR_OTHER 5) "commit counter exhausted".

(** Modelled from the spec: [kv_transaction_commit] of the absent client.
    "Conflict (retriable, definitely not committed)": a commit that conflicts
    writes nothing; a commit that passes takes the next value of the "global
    commit counter" as its commit version and puts its writes on the log.
    The "commit_version" of a versionstamp has eight bytes and versionstamps
    are "strictly monotonic": a commit is refused, before anything else is
    looked at, once the next value of the counter would not fit them. *)
Definition transaction_commit (h : handle) (w : World) : KvResult * World :=
  match assoc h (txs w) with
  | None => (not_found, w)
  | Some st =>
    if 2 ^ 64 <=? commit_counter w + 1 then (exhausted, w)
    else if conflicts st (log w) then
      (failed KV_ERROR_TRANSACTION_CONFLICT "transaction conflict",
       with_txs w (drop h (txs w)))
    else
      let cv := commit_counter w + 1 in
      (ok,
       mkWorld cv (rev (stamp_all cv 0 (tx_writes st)) ++ log w)
               (drop h (txs w)) (read_txs w) (next_handle w))
  end.

(** Modelled from the spec: [kv_transaction_abort] of the absent client,
    "cancel()". *)
Definition transaction_abort (h : handle) (w : World) : KvResult * World :=
  match assoc h (txs w) with
  | None => (not_found, w)
  | Some _ => (ok, with_txs w (drop h (txs w)))
  end.

(** Modelled from the spec: [kv_pair_array_free] of the absent client, on
    which the spec has no word.  It is taken to release the pairs and to
    leave the [count] field as it was, which is what the adapter, reading
    the count after the free, relies on. *)
Definition pair_array_free (a : KvPairArray) (w : World)
  : KvPairArray * World := (a, w).

(** Modelled from the spec: the other [kv_pair_array_free] a client may
    have, one that clears the struct it frees. *)
Definition pair_array_free_clearing (a : KvPairArray) (w : World)
  : KvPairArray * World := ([], w).

(** Modelled from the spec: the absent client over this engine. *)
#[global] Instance client : KvClient World := {
  kv_read_transaction_begin := read_transaction_begin;
  kv_read_transaction_get := read_transaction_get;
  kv_read_transaction_get_range := read_transaction_get_range;
  kv_read_transaction_destroy := read_transaction_destroy;
  kv_transaction_begin := transaction_begin;
  kv_transaction_get := transaction_get;
  kv_transaction_get_range := transaction_get_range;
  kv_transaction_set := transaction_set;
  kv_transaction_delete := transaction_delete;
  kv_transaction_set_versionstamped_key := transaction_set_versionstamped_key;
  kv_transaction_set_versionstamped_value :=
    transaction_set_versionstamped_value;
  kv_transaction_commit := transaction_commit;
  kv_transaction_abort := transaction_abort;
  kv_pair_array_free := pair_array_free
}.

(** Modelled from the spec: the same engine behind a client whose
    [kv_pair_array_free] clears the struct. *)
Definition clearing_client : KvClient World := {|
  kv_read_transaction_begin := read_transaction_begin;
  kv_read_transaction_get := read_transaction_get;
  kv_read_transaction_get_range := read_transaction_get_range;
  kv_read_transaction_destroy := read_transaction_destroy;
  kv_transaction_begin := transaction_begin;
  kv_transaction_get := transaction_get;
  kv_transaction_get_range := transaction_get_range;
  kv_transaction_set := transaction_set;
  kv_transaction_delete := transaction_delete;
  kv_transaction_set_versionstamped_key := transaction_set_versionstamped_key;
  kv_transaction_set_versionstamped_value :=
    transaction_set_versionstamped_value;
  kv_transaction_commit := transaction_commit;
  kv_transaction_abort := transaction_abort;
  kv_pair_array_free := pair_array_free_clearing
|}.

End MemKv.


(** ** A link that loses requests *)

Module FaultyLink.

(** Modelled from the spec: the transport is not among the sources.  "The
    transport guarantees ordered delivery per connection and surfaces a
    NetworkError on loss": the state carries a schedule, one flag per request
    sent to the service, and a request whose flag is [true] is lost and
    answered with a failure.  Past the end of the schedule nothing is lost. *)
Definition World (W : Type) : Type := (list bool * W)%type.

(** Modelled from the spec: whether the transport loses the next request. *)
Definition lost (s : list bool) : bool :=
  match s with
  | true :: _ => true
  | _ => false
  end.

(** Modelled from the spec: the failure the transport "surfaces on loss". *)
Definition network_error : KvResult :=
  mkKvResult false (KV_ERROR_OTHER 2) (Some "connection lost").

Section Link.
Context {W : Type} `{KvClient W}.

(** Modelled from the spec: a begin request over the lossy transport; a
    lost one yields no handle. *)
Definition begin_over (f : W -> option handle * W) (lw : World W)
  : option handle * World W :=
  let '(s, w) := lw in
  if lost s then (None, (tl s, w))
  else let '(h, w') := f w in (h, (tl s, w')).

(** Modelled from the spec: a read request over the lossy transport. *)
Definition value_over (f : W -> KvResult * KvBinaryData * W) (lw : World W)
  : KvResult * KvBinaryData * World W :=
  let '(s, w) := lw in
  if lost s then (network_error, mkKvBinaryData None, (tl s, w))
  else let '(r, d, w') := f w in (r, d, (tl s, w')).

(** Modelled from the spec: a range read over the lossy transport. *)
Definition pairs_over (f : W -> KvResult * KvPairArray * W) (lw : World W)
  : KvResult * KvPairArray * World W :=
  let '(s, w) := lw in
  if lost s then (network_error, [], (tl s, w))
  else let '(r, d, w') := f w in (r, d, (tl s, w')).

(** Modelled from the spec: a write, commit or abort request over the lossy
    transport. *)
Definition void_over (f : W -> KvResult * W) (lw : World W)
  : KvResult * World W :=
  let '(s, w) := lw in
  if lost s then (network_error, (tl s, w))
  else let '(r, w') := f w in (r, (tl s, w')).

(** Modelled from the spec: the two versionstamp calls of the absent client,
    which return no future and, like the destroy call, stay local to the
    client. *)
Definition local_over (f : W -> KvFunctionResult * W) (lw : World W)
  : KvFunctionResult * World W :=
  let '(s, w) := lw in
  let '(r, w') := f w in (r, (s, w')).

(** Modelled from the spec: the absent client over the lossy transport. *)
#[global] Instance client : KvClient (World W) := {
  kv_read_transaction_begin v := begin_over (kv_read_transaction_begin v);
  kv_read_transaction_get h k := value_over (kv_read_transaction_get h k);
  kv_read_transaction_get_range h b e bo boe eo eoe limit :=
    pairs_over (kv_read_transaction_get_range h b e bo boe eo eoe limit);
  kv_read_transaction_destroy h lw :=
    (fst lw, kv_read_transaction_destroy h (snd lw));
  kv_transaction_begin t := begin_over (kv_transaction_begin t);
  kv_transaction_get h k := value_over (kv_transaction_get h k);
  kv_transaction_get_range h b e bo boe eo eoe limit :=
    pairs_over (kv_transaction_get_range h b e bo boe eo eoe limit);
  kv_transaction_set h k v := void_over (kv_transaction_set h k v);
  kv_transaction_delete h k := void_over (kv_transaction_delete h k);
  kv_transaction_set_versionstamped_key h k v :=
    local_over (kv_transaction_set_versionstamped_key h k v);
  kv_transaction_set_versionstamped_value h k v :=
    local_over (kv_transaction_set_versionstamped_value h k v);
  kv_transaction_commit h := void_over (kv_transaction_commit h);
  kv_transaction_abort h := void_over (kv_transaction_abort h);
  kv_pair_array_free a lw :=
    let '(freed, w') := kv_pair_array_free a (snd lw) in (freed, (fst lw, w'))
}.

End Link.

End FaultyLink.

(** ** Client programs: sequences of method calls on one transaction *)

Module Calls.

Inductive Reply : Type :=
| ReplyNone
| ReplyUnit (r : Result unit)
| ReplyValue (r : Result (option bytes))
| ReplyRange (r : Result GetRangeResult).

(** The methods of [IReadOnlyTransaction]. *)
Inductive RoCall : Type :=
| RoSetReadVersion (version : Z)
| RoSnapshotGet (k : bytes)
| RoGet (k : bytes)
| RoSnapshotGetRange (begin_ end_ : KeySelector) (limit : Z)
| RoGetRange (begin_ end_ : KeySelector) (limit : Z)
| RoCancel
| RoReset.

(** The methods of [IReadWriteTransaction]. *)
Inductive RwCall : Type :=
| RwSetReadVersion (version : Z)
| RwSnapshotGet (k : bytes)
| RwGet (k : bytes)
| RwSnapshotGetRange (begin_ end_ : KeySelector) (limit : Z)
| RwGetRange (begin_ end_ : KeySelector) (limit : Z)
| RwCancel
| RwReset
| RwAddReadConflict (k : bytes)
| RwAddReadConflictRange (begin_ end_ : bytes)
| RwSet (k value : bytes)
| RwClear (k : bytes)
| RwSetVersionstampedKey (k : bytes) (offset : Z) (value : bytes)
| RwSetVersionstampedValue (k value : bytes) (offset : Z)
| RwCommit (now : Z).

(** The reads of a read-only transaction. *)
Definition ro_is_read (c : RoCall) : bool :=
  match c with
  | RoSnapshotGet _ | RoGet _ | RoSnapshotGetRange _ _ _ | RoGetRange _ _ _ =>
    true
  | _ => false
  end.

(** The reads and writes of a read-write transaction. *)
Definition rw_is_data (c : RwCall) : bool :=
  match c with
  | RwSnapshotGet _ | RwGet _ | RwSnapshotGetRange _ _ _ | RwGetRange _ _ _
  | RwAddReadConflict _ | RwAddReadConflictRange _ _
  | RwSet _ _ | RwClear _
  | RwSetVersionstampedKey _ _ _ | RwSetVersionstampedValue _ _ _ => true
  | _ => false
  end.

(** The calls of a read-write transaction that read or write the read
    version: [setReadVersion] stores it, [snapshotGet] passes it to the read
    transaction it opens, [reset] clears it. *)
Definition rw_touches_read_version (c : RwCall) : bool :=
  match c with
  | RwSetReadVersion _ | RwSnapshotGet _ | RwReset => true
  | _ => false
  end.

(** The calls that end a transaction. *)
Definition ro_ends (c : RoCall) : bool :=
  match c with RoCancel | RoReset => true | _ => false end.

Definition rw_ends (c : RwCall) : bool :=
  match c with RwCancel | RwReset | RwCommit _ => true | _ => false end.

Definition reply_code (r : Reply) : option status_code_t :=
  match r with
  | ReplyUnit (makeError c _) | ReplyValue (makeError c _)
  | ReplyRange (makeError c _) => Some c
  | _ => None
  end.

Section Run.
Context {W : Type} `{KvClient W}.

Definition ro_call (c : RoCall) (tx : CustomReadOnlyTransaction.t) (w : W)
  : Reply * CustomReadOnlyTransaction.t * W :=
  match c with
  | RoSetReadVersion v =>
    (ReplyNone, CustomReadOnlyTransaction.setReadVersion v tx, w)
  | RoSnapshotGet k =>
    let '(r, w') := CustomReadOnlyTransaction.snapshotGet tx k w in
    (ReplyValue r, tx, w')
  | RoGet k =>
    let '(r, w') := CustomReadOnlyTransaction.get tx k w in
    (ReplyValue r, tx, w')
  | RoSnapshotGetRange b e l =>
    let '(r, w') := CustomReadOnlyTransaction.snapshotGetRange tx b e l w in
    (ReplyRange r, tx, w')
  | RoGetRange b e l =>
    let '(r, w') := CustomReadOnlyTransaction.getRange tx b e l w in
    (ReplyRange r, tx, w')
  | RoCancel =>
    let '(r, tx', w') := CustomReadOnlyTransaction.cancel tx w in
    (ReplyUnit r, tx', w')
  | RoReset => (ReplyNone, CustomReadOnlyTransaction.reset tx, w)
  end.

Definition rw_call (c : RwCall) (tx : CustomTransaction.t) (w : W)
  : Reply * CustomTransaction.t * W :=
  match c with
  | RwSetReadVersion v => (ReplyNone, CustomTransaction.setReadVersion v tx, w)
  | RwSnapshotGet k =>
    let '(r, tx', w') := CustomTransaction.snapshotGet tx k w in
    (ReplyValue r, tx', w')
  | RwGet k =>
    let '(r, tx', w') := CustomTransaction.get tx k w in
    (ReplyValue r, tx', w')
  | RwSnapshotGetRange b e l =>
    let '(r, tx', w') := CustomTransaction.snapshotGetRange tx b e l w in
    (ReplyRange r, tx', w')
  | RwGetRange b e l =>
    let '(r, tx', w') := CustomTransaction.getRange tx b e l w in
    (ReplyRange r, tx', w')
  | RwCancel =>
    let '(r, tx', w') := CustomTransaction.cancel tx w in
    (ReplyUnit r, tx', w')
  | RwReset => (ReplyNone, CustomTransaction.reset tx, w)
  | RwAddReadConflict k =>
    let '(r, tx', w') := CustomTransaction.addReadConflict tx k w in
    (ReplyUnit r, tx', w')
  | RwAddReadConflictRange b e =>
    let '(r, tx', w') := CustomTransaction.addReadConflictRange tx b e w in
    (ReplyUnit r, tx', w')
  | RwSet k v =>
    let '(r, tx', w') := CustomTransaction.set tx k v w in
    (ReplyUnit r, tx', w')
  | RwClear k =>
    let '(r, tx', w') := CustomTransaction.clear tx k w in
    (ReplyUnit r, tx', w')
  | RwSetVersionstampedKey k o v =>
    let '(r, tx', w') := CustomTransaction.setVersionstampedKey tx k o v w in
    (ReplyUnit r, tx', w')
  | RwSetVersionstampedValue k v o =>
    let '(r, tx', w') := CustomTransaction.setVersionstampedValue tx k v o w in
    (ReplyUnit r, tx', w')
  | RwCommit now =>
    let '(r, tx', w') := CustomTransaction.commit tx now w in
    (ReplyUnit r, tx', w')
  end.

(** The state after a sequence of calls. *)
Fixpoint ro_run (cs : list RoCall) (tx : CustomReadOnlyTransaction.t) (w : W)
  : CustomReadOnlyTransaction.t * W :=
  match cs with
  | [] => (tx, w)
  | c :: r => let '(_, tx', w') := ro_call c tx w in ro_run r tx' w'
  end.

Fixpoint rw_run (cs : list RwCall) (tx : CustomTransaction.t) (w : W)
  : CustomTransaction.t * W :=
  match cs with
  | [] => (tx, w)
  | c :: r => let '(_, tx', w') := rw_call c tx w in rw_run r tx' w'
  end.

End Run.

End Calls.


(** ** States of a transaction on the in-memory service *)

Module OnMemKvState.

(** The pairs a range read selects from a map: [begin.inclusive] and
    [end.inclusive] travel as [begin_or_equal] and [end_or_equal], the way
    [getRange] and [snapshotGetRange] send them. *)
Definition selected (begin_ end_ : KeySelector) (s : MemKv.Store)
  : MemKv.Store :=
  MemKv.range_of (key begin_) (if inclusive begin_ then 0 else 1)
                 (key end_) (if inclusive end_ then 1 else 0) s.

(** The keys the two selectors of a range read admit. *)
Definition admits (begin_ end_ : KeySelector) (k : bytes) : bool :=
  (if inclusive begin_ then MemKv.key_leb (key begin_) k
   else MemKv.key_ltb (key begin_) k)
  && (if inclusive end_ then MemKv.key_leb k (key end_)
      else MemKv.key_ltb k (key end_)).

(** What a range read with [limit] has to return from the map of version
    [v]: the range is the pairs of the map whose keys the selectors admit, in
    ascending key order; the page is the first [limit] pairs of the range;
    the flag says that the range holds [limit] pairs or more. *)
Definition paged (begin_ end_ : KeySelector) (limit v : Z)
           (l : list MemKv.LogEntry) (res : GetRangeResult) : Prop :=
  let range := selected begin_ end_ (MemKv.store_at v l) in
  MemKv.ascending range
  /\ (forall p, In p range
                <-> In p (MemKv.store_at v l)
                    /\ admits begin_ end_ (fst p) = true)
  /\ kvs res = firstn (Z.to_nat limit) range
  /\ count (kvs res) <= limit
  /\ hasMore res = (limit <=? count range).

(** The version a read-only transaction reads at: its read version, or the
    latest committed version where none, or 0, was set. *)
Definition snapshot_version (tx : CustomReadOnlyTransaction.t)
           (w : MemKv.World) : Z :=
  match CustomReadOnlyTransaction.read_version_ tx with
  | Some v => if v =? 0 then MemKv.commit_counter w else v
  | None => MemKv.commit_counter w
  end.

(** The version a read-write transaction reads at: the read version of its
    engine transaction, or, while none has begun, the latest committed
    version, which the engine transaction will begin with. *)
Definition reading_version (tx : CustomTransaction.t) (w : MemKv.World)
  : option Z :=
  match CustomTransaction.transaction_handle_ tx with
  | Some h => option_map MemKv.tx_read_version (MemKv.assoc h (MemKv.txs w))
  | None => Some (MemKv.commit_counter w)
  end.

(** A transaction that runs alone: open, created by a healthy engine, and,
    once attached, known to the service with the commit counter [cc] as its
    read version - the counter has not moved since it began. *)
Definition running (cc : Z) (tx : CustomTransaction.t) (w : MemKv.World)
  : Prop :=
  CustomTransaction.finished tx = false
  /\ CustomTransaction.client_handle_ tx <> None
  /\ MemKv.commit_counter w = cc
  /\ MemKv.well_formed w
  /\ forall h,
      CustomTransaction.transaction_handle_ tx = Some h ->
      exists st, MemKv.assoc h (MemKv.txs w) = Some st
                 /\ MemKv.tx_read_version st = cc.

(** No handle of an open engine transaction is one the engine has yet to
    give out. *)
Definition handles_below (w : MemKv.World) : Prop :=
  forall h st, MemKv.assoc h (MemKv.txs w) = Some st ->
               (h < MemKv.next_handle w)%nat.

(** An open transaction whose engine transaction, once begun, holds the
    writes [ws], oldest first. *)
Definition attached (ws : list MemKv.Mutation) (tx : CustomTransaction.t)
           (w : MemKv.World) : Prop :=
  CustomTransaction.finished tx = false
  /\ handles_below w
  /\ match CustomTransaction.transaction_handle_ tx with
     | Some h => exists st, MemKv.assoc h (MemKv.txs w) = Some st
                            /\ MemKv.tx_writes st = ws
     | None => ws = []
     end.

(** The engine went from [w] to [w'] without a change to its log, its
    commit counter or its read-write transactions. *)
Definition untouched (w w' : MemKv.World) : Prop :=
  MemKv.txs w' = MemKv.txs w
  /\ MemKv.log w' = MemKv.log w
  /\ MemKv.commit_counter w' = MemKv.commit_counter w
  /\ (MemKv.next_handle w <= MemKv.next_handle w')%nat.

(** The engine began a read-write transaction. *)
Definition began (w w' : MemKv.World) : Prop :=
  w' = MemKv.mkWorld
         (MemKv.commit_counter w) (MemKv.log w)
         ((MemKv.next_handle w, MemKv.mkTxState (MemKv.commit_counter w) [] [])
            :: MemKv.txs w)
         (MemKv.read_txs w) (S (MemKv.next_handle w)).

(** The engine noted a read or a write of the engine transaction [h]: the
    read version is as it was, the writes are as they were or one more,
    within the 2^16 of a transaction. *)
Definition noted (h : handle) (w w' : MemKv.World) : Prop :=
  exists st st',
    MemKv.assoc h (MemKv.txs w) = Some st
    /\ w' = MemKv.with_txs w ((h, st') :: MemKv.drop h (MemKv.txs w))
    /\ MemKv.tx_read_version st' = MemKv.tx_read_version st
    /\ (MemKv.tx_writes st' = MemKv.tx_writes st
        \/ exists m,
            MemKv.tx_writes st' = (MemKv.tx_writes st ++ [m])%list
            /\ Z.of_nat (List.length (MemKv.tx_writes st)) < 2 ^ 16).

(** The engine ended the engine transaction [h] and wrote nothing. *)
Definition ended (h : handle) (w w' : MemKv.World) : Prop :=
  w' = MemKv.with_txs w (MemKv.drop h (MemKv.txs w)).

(** The engine accepted the commit of the engine transaction [h]: the
    writes went to the log, numbered from 0, under the next value of the
    commit counter. *)
Definition accepted (h : handle) (w w' : MemKv.World) : Prop :=
  exists st,
    MemKv.assoc h (MemKv.txs w) = Some st
    /\ MemKv.commit_counter w + 1 < 2 ^ 64
    /\ MemKv.conflicts st (MemKv.log w) = false
    /\ w' = MemKv.mkWorld
              (MemKv.commit_counter w + 1)
              (rev (MemKv.stamp_all (MemKv.commit_counter w + 1) 0
                                    (MemKv.tx_writes st))
                 ++ MemKv.log w)
              (MemKv.drop h (MemKv.txs w)) (MemKv.read_txs w)
              (MemKv.next_handle w).

(** What a call that does not end the transaction does: it leaves the
    flags of the transaction as they are; the engine transaction is begun
    where there was none; then the engine notes a read or a write of it, or
    its read-write tables stay as they are. *)
Definition stepped (tx tx' : CustomTransaction.t) (w w' : MemKv.World)
  : Prop :=
  CustomTransaction.finished tx' = CustomTransaction.finished tx
  /\ CustomTransaction.client_handle_ tx' = CustomTransaction.client_handle_ tx
  /\ exists w1,
      ((CustomTransaction.transaction_handle_ tx'
        = CustomTransaction.transaction_handle_ tx /\ w1 = w)
       \/ (CustomTransaction.transaction_handle_ tx = None
           /\ CustomTransaction.transaction_handle_ tx'
              = Some (MemKv.next_handle w)
           /\ began w w1))
      /\ (untouched w1 w'
          \/ exists h, CustomTransaction.transaction_handle_ tx' = Some h
                       /\ noted h w1 w').


End OnMemKvState.


(** ** Worlds and transactions used as concrete inputs *)

Module Scenarios.

(** A transaction object as [CustomKvEngine] hands it out while healthy. *)
Definition engine : CustomKvEngine.t := CustomKvEngine.mk true (Some 1%nat).

Definition new_read_write : CustomTransaction.t :=
  CustomTransaction.create (CustomKvEngine.client_handle_ engine).

(** The read-only transaction object of the same engine. *)
Definition new_read_only : CustomReadOnlyTransaction.t :=
  CustomReadOnlyTransaction.create (CustomKvEngine.client_handle_ engine).

(** The service after a new read-write transaction ran the calls [cs]. *)
Definition after (cs : list Calls.RwCall) (w : MemKv.World) : MemKv.World :=
  snd (Calls.rw_run cs new_read_write w).

(** Keys "a" and "b", committed by one transaction. *)
Definition world_ab : MemKv.World :=
  after [Calls.RwSet "a" "1"; Calls.RwSet "b" "2"; Calls.RwCommit 1000]
        MemKv.empty.

(** Key "k" with value "old". *)
Definition world_k : MemKv.World :=
  after [Calls.RwSet "k" "old"; Calls.RwCommit 1000] MemKv.empty.

(** A transaction reads "k" with [get]; then another transaction overwrites
    "k" and commits; then the first one writes. *)
Definition reader : CustomTransaction.t * MemKv.World :=
  Calls.rw_run [Calls.RwGet "k"] new_read_write world_k.

(** The reader after the other commit and after its own write. *)
Definition reader_overtaken : CustomTransaction.t * MemKv.World :=
  Calls.rw_run [Calls.RwSet "k" "mine"] (fst reader)
    (after [Calls.RwSet "k" "theirs"; Calls.RwCommit 1001] (snd reader)).

(** The same, but the first transaction reads another key and declares its
    interest in "k" with [addReadConflict] and [addReadConflictRange]. *)
Definition declarer : CustomTransaction.t * MemKv.World :=
  Calls.rw_run [Calls.RwGet "other"; Calls.RwAddReadConflict "k";
                Calls.RwAddReadConflictRange "a" "z"]
               new_read_write world_k.

(** The declarer after the other commit and after its own write. *)
Definition declarer_overtaken : CustomTransaction.t * MemKv.World :=
  Calls.rw_run [Calls.RwSet "mine" "1"] (fst declarer)
    (after [Calls.RwSet "k" "theirs"; Calls.RwCommit 1001] (snd declarer)).

(** 2^32 NUL bytes. *)
Definition four_gib : bytes :=
  string_of_list_ascii (repeat zero (Z.to_nat (2 ^ 32))).

(** A key of 2^32 + 1 bytes: its size, cast to [int], is 1. *)
Definition long_key : bytes := String "k" four_gib.

End Scenarios.


(** ** The requests a transaction sends

    A client that writes down every request it is asked to send, with the
    handle a begin request was answered with, and passes the request on to
    the client below it.  What holds of the record holds whatever the client
    below answers. *)

Module Spy.

Inductive Request : Type :=
| ReadBegin (read_version : Z) (answer : option handle)
| ReadGet (h : handle) (k : Span)
| ReadGetRange (h : handle) (b e : Span)
               (b_offset b_or_equal e_offset e_or_equal limit : Z)
| ReadDestroy (h : handle)
| Begin (timeout_seconds : Z) (answer : option handle)
| Get (h : handle) (k : Span)
| GetRange (h : handle) (b e : Span)
           (b_offset b_or_equal e_offset e_or_equal limit : Z)
| Set_ (h : handle) (k v : Span)
| Delete (h : handle) (k : Span)
| SetVersionstampedKey (h : handle) (k v : Span)
| SetVersionstampedValue (h : handle) (k buffer : Span)
| Commit (h : handle)
| Abort (h : handle).

(** The record, oldest request first, and the state of the client below. *)
Definition World (W : Type) : Type := (list Request * W)%type.

Section Record.
Context {W : Type} `{KvClient W}.

(** A request answered with a handle. *)
Definition begun (q : option handle -> Request)
           (f : W -> option handle * W) (tw : World W)
  : option handle * World W :=
  let '(a, w') := f (snd tw) in (a, ((fst tw ++ [q a])%list, w')).

(** A request answered with a result and a value or a page. *)
Definition asked {A B : Type} (q : Request) (f : W -> A * B * W)
           (tw : World W) : A * B * World W :=
  let '(a, b, w') := f (snd tw) in (a, b, ((fst tw ++ [q])%list, w')).

(** A request answered with a result alone. *)
Definition told {A : Type} (q : Request) (f : W -> A * W) (tw : World W)
  : A * World W :=
  let '(a, w') := f (snd tw) in (a, ((fst tw ++ [q])%list, w')).

#[global] Instance client : KvClient (World W) := {
  kv_read_transaction_begin v :=
    begun (ReadBegin v) (kv_read_transaction_begin v);
  kv_read_transaction_get h k :=
    asked (ReadGet h k) (kv_read_transaction_get h k);
  kv_read_transaction_get_range h b e bo boe eo eoe limit :=
    asked (ReadGetRange h b e bo boe eo eoe limit)
          (kv_read_transaction_get_range h b e bo boe eo eoe limit);
  kv_read_transaction_destroy h tw :=
    ((fst tw ++ [ReadDestroy h])%list, kv_read_transaction_destroy h (snd tw));
  kv_transaction_begin t := begun (Begin t) (kv_transaction_begin t);
  kv_transaction_get h k := asked (Get h k) (kv_transaction_get h k);
  kv_transaction_get_range h b e bo boe eo eoe limit :=
    asked (GetRange h b e bo boe eo eoe limit)
          (kv_transaction_get_range h b e bo boe eo eoe limit);
  kv_transaction_set h k v := told (Set_ h k v) (kv_transaction_set h k v);
  kv_transaction_delete h k := told (Delete h k) (kv_transaction_delete h k);
  kv_transaction_set_versionstamped_key h k v :=
    told (SetVersionstampedKey h k v)
         (kv_transaction_set_versionstamped_key h k v);
  kv_transaction_set_versionstamped_value h k v :=
    told (SetVersionstampedValue h k v)
         (kv_transaction_set_versionstamped_value h k v);
  kv_transaction_commit h := told (Commit h) (kv_transaction_commit h);
  kv_transaction_abort h := told (Abort h) (kv_transaction_abort h);
  (* no request: the free works on the adapter's own struct *)
  kv_pair_array_free a tw :=
    let '(freed, w') := kv_pair_array_free a (snd tw) in (freed, (fst tw, w'))
}.

End Record.

(** Where a read-write transaction stands with the engine, as far as its
    requests tell. *)
Inductive Stage : Type :=
| Unattached
| Attached (h : handle)
| Committing (h : handle)
| Aborted.

(** One step of the life cycle: begin requests until one is answered with a
    handle; then reads and writes on that handle; then at most one commit;
    then at most one abort; nothing after the abort.  Requests of read
    transactions do not count.  [None]: the request is out of turn. *)
Definition step (st : Stage) (q : Request) : option Stage :=
  match q with
  | ReadBegin _ _ | ReadGet _ _ | ReadGetRange _ _ _ _ _ _ _ _
  | ReadDestroy _ => Some st
  | Begin _ None =>
    match st with Unattached => Some Unattached | _ => None end
  | Begin _ (Some h) =>
    match st with Unattached => Some (Attached h) | _ => None end
  | Get h _ | GetRange h _ _ _ _ _ _ _ | Set_ h _ _ | Delete h _
  | SetVersionstampedKey h _ _ | SetVersionstampedValue h _ _ =>
    match st with
    | Attached h' => if Nat.eqb h h' then Some st else None
    | _ => None
    end
  | Commit h =>
    match st with
    | Attached h' => if Nat.eqb h h' then Some (Committing h) else None
    | _ => None
    end
  | Abort h =>
    match st with
    | Attached h' | Committing h' => if Nat.eqb h h' then Some Aborted else None
    | _ => None
    end
  end.

(** The stage a record leads to from [st], if every request is in turn. *)
Fixpoint stage_after (st : Stage) (qs : list Request) : option Stage :=
  match qs with
  | [] => Some st
  | q :: r =>
    match step st q with
    | Some st' => stage_after st' r
    | None => None
    end
  end.

(** The state of a read transaction between two requests. *)
Inductive ReadStage : Type :=
| Closed
| Opened (h : handle)
| Read (h : handle).

(** One step of a read transaction: a begin; if it is answered with a handle,
    one read on that handle and then its destroy.  Requests of the read-write
    transaction do not count. *)
Definition read_step (st : ReadStage) (q : Request) : option ReadStage :=
  match q with
  | ReadBegin _ None =>
    match st with Closed => Some Closed | _ => None end
  | ReadBegin _ (Some h) =>
    match st with Closed => Some (Opened h) | _ => None end
  | ReadGet h _ | ReadGetRange h _ _ _ _ _ _ _ =>
    match st with
    | Opened h' => if Nat.eqb h h' then Some (Read h) else None
    | _ => None
    end
  | ReadDestroy h =>
    match st with
    | Read h' => if Nat.eqb h h' then Some Closed else None
    | _ => None
    end
  | _ => Some st
  end.

Fixpoint read_stage_after (st : ReadStage) (qs : list Request)
  : option ReadStage :=
  match qs with
  | [] => Some st
  | q :: r =>
    match read_step st q with
    | Some st' => read_stage_after st' r
    | None => None
    end
  end.

(** The requests of a read-write transaction, the read transactions' left
    out. *)
Definition is_read_write (q : Request) : bool :=
  match q with
  | ReadBegin _ _ | ReadGet _ _ | ReadGetRange _ _ _ _ _ _ _ _
  | ReadDestroy _ => false
  | _ => true
  end.

Definition is_commit (q : Request) : bool :=
  match q with Commit _ => true | _ => false end.

(** What a versionstamped request carries, given the calls [cs] made on the
    transaction: key prefix and value of one of the [setVersionstampedKey]
    calls, or key and value of one of the [setVersionstampedValue] calls,
    the value followed by the ten bytes the adapter adds; the key is not
    empty, and each travels with its size as the length. *)
Definition stamped_properly (cs : list Calls.RwCall) (q : Request) : Prop :=
  match q with
  | SetVersionstampedKey _ k v =>
    exists prefix offset value,
      In (Calls.RwSetVersionstampedKey prefix offset value) cs
      /\ prefix <> "" /\ k = span prefix /\ v = span value
  | SetVersionstampedValue _ k buffer =>
    exists key_ value offset,
      In (Calls.RwSetVersionstampedValue key_ value offset) cs
      /\ key_ <> "" /\ k = span key_
      /\ buffer = span (CustomTransaction.resize_plus_10 value)
  | _ => True
  end.

(** No request of a read-write transaction among [qs]. *)
Definition only_reads (qs : list Request) : bool :=
  forallb (fun q => negb (is_read_write q)) qs.

(** What the fields of a read-write transaction say at each stage. *)
Definition agrees (tx : CustomTransaction.t) (st : Stage) : Prop :=
  match st with
  | Unattached => CustomTransaction.transaction_handle_ tx = None
  | Attached h => CustomTransaction.transaction_handle_ tx = Some h
  | Committing h =>
    CustomTransaction.transaction_handle_ tx = Some h
    /\ CustomTransaction.committed_ tx || CustomTransaction.reset_ tx = true
  | Aborted =>
    CustomTransaction.transaction_handle_ tx = None
    /\ CustomTransaction.cancelled_ tx || CustomTransaction.reset_ tx = true
  end.

End Spy.


(** ** A transaction among the other clients of the service

    While a transaction is open, other clients send requests of their own.
    A client works on the transactions its own begin requests were answered
    with: the others name every handle but that of the transaction. *)

Module Shared.

(** Modelled from the spec: what the engine, which is not among the
    sources, is left with when it served a request; the answer goes to the
    client that sent it. *)
Definition serve (q : Spy.Request) (w : MemKv.World) : MemKv.World :=
  match q with
  | Spy.ReadBegin v _ => snd (MemKv.read_transaction_begin v w)
  | Spy.ReadGet h k => snd (MemKv.read_transaction_get h k w)
  | Spy.ReadGetRange h b e bf bo ef eo limit =>
    snd (MemKv.read_transaction_get_range h b e bf bo ef eo limit w)
  | Spy.ReadDestroy h => MemKv.read_transaction_destroy h w
  | Spy.Begin t _ => snd (MemKv.transaction_begin t w)
  | Spy.Get h k => snd (MemKv.transaction_get h k w)
  | Spy.GetRange h b e bf bo ef eo limit =>
    snd (MemKv.transaction_get_range h b e bf bo ef eo limit w)
  | Spy.Set_ h k v => snd (MemKv.transaction_set h k v w)
  | Spy.Delete h k => snd (MemKv.transaction_delete h k w)
  | Spy.SetVersionstampedKey h k v =>
    snd (MemKv.transaction_set_versionstamped_key h k v w)
  | Spy.SetVersionstampedValue h k v =>
    snd (MemKv.transaction_set_versionstamped_value h k v w)
  | Spy.Commit h => snd (MemKv.transaction_commit h w)
  | Spy.Abort h => snd (MemKv.transaction_abort h w)
  end.


(** The read-write transaction a request works on. *)
Definition names (q : Spy.Request) : option handle :=
  match q with
  | Spy.Get h _ | Spy.GetRange h _ _ _ _ _ _ _ | Spy.Set_ h _ _
  | Spy.Delete h _ | Spy.SetVersionstampedKey h _ _
  | Spy.SetVersionstampedValue h _ _ | Spy.Commit h | Spy.Abort h => Some h
  | _ => None
  end.

(** The request works on the engine transaction of [tx]. *)
Definition intrudes (q : Spy.Request) (tx : CustomTransaction.t) : bool :=
  match names q, CustomTransaction.transaction_handle_ tx with
  | Some h, Some h' => Nat.eqb h h'
  | _, _ => false
  end.

(** What happens at the service during the life of a transaction: a call
    on the transaction, or a request of another client. *)
Inductive Event : Type :=
| Own (c : Calls.RwCall)
| Other (q : Spy.Request).

(** The transaction and the service after the events [es], oldest first;
    [None] when another client names the handle of the transaction. *)
Fixpoint play (es : list Event) (tx : CustomTransaction.t) (w : MemKv.World)
  : option (CustomTransaction.t * MemKv.World) :=
  match es with
  | [] => Some (tx, w)
  | Own c :: r => let '(_, tx', w') := Calls.rw_call c tx w in play r tx' w'
  | Other q :: r => if intrudes q tx then None else play r tx (serve q w)
  end.

(** No call among the events ends the transaction. *)
Definition calm (es : list Event) : bool :=
  forallb (fun e => match e with
                    | Own c => negb (Calls.rw_ends c)
                    | Other _ => true
                    end) es.

End Shared.


(** ** [CustomKvEngineImpl]: the connection of the engine to the client
    library

    The four entry points of [kvstore_client.h] the engine calls; [L] is the
    state of the library.  A null pointer is [None]. *)

Class KvLibrary (L : Type) : Type := {
  kv_init : L -> Z * L;
  kv_client_create : string -> L -> option handle * L;
  kv_client_ping : handle -> bytes -> L -> option handle * L;
  kv_client_destroy : handle -> L -> L
}.

Module CustomKvEngineImpl.

Section Connection.
Context {L : Type} `{KvLibrary L}.

(** [initialize()]; the state is [healthy_] and [client_handle_],
    [endpoints] is [config_.cluster_endpoints()]. *)
Definition initialize (endpoints : list string) (e : CustomKvEngine.t) (l : L)
  : CustomKvEngine.t * L :=
  let '(init_result, l1) := kv_init l in
  if negb (init_result =? 0) then
    (CustomKvEngine.mk false (CustomKvEngine.client_handle_ e), l1)
  else
    match endpoints with
    | primary_endpoint :: _ =>
      match kv_client_create primary_endpoint l1 with
      | (None, l2) => (CustomKvEngine.mk false None, l2)
      | (Some client_handle, l2) =>
        match kv_client_ping client_handle "hello" l2 with
        | (Some _, l3) => (CustomKvEngine.mk true (Some client_handle), l3)
        | (None, l3) =>
          (CustomKvEngine.mk false None, kv_client_destroy client_handle l3)
        end
      end
    | [] => (CustomKvEngine.mk false (CustomKvEngine.client_handle_ e), l1)
    end.

(** [cleanup()]. *)
Definition cleanup (e : CustomKvEngine.t) (l : L) : CustomKvEngine.t * L :=
  match CustomKvEngine.client_handle_ e with
  | Some client_handle =>
    (CustomKvEngine.mk false None, kv_client_destroy client_handle l)
  | None => (CustomKvEngine.mk false None, l)
  end.

(** [reconnect()]: [cleanup(); initialize();]. *)
Definition reconnect (endpoints : list string) (e : CustomKvEngine.t) (l : L)
  : CustomKvEngine.t * L :=
  let '(e1, l1) := cleanup e l in initialize endpoints e1 l1.

(** The constructor: [healthy_(false)], [client_handle_{nullptr}], then
    [initialize()].  The destructor, which calls [cleanup()], is left out:
    [CustomKvEngine] stores in the object a [shared_ptr] to the object
    itself ([setSharedThis]), so it is not run. *)
Definition construct (endpoints : list string) (l : L)
  : CustomKvEngine.t * L :=
  initialize endpoints (CustomKvEngine.mk false None) l.

(** The engine after its construction and [n] calls of [reconnect]. *)
Fixpoint reconnected (n : nat) (endpoints : list string) (l : L)
  : CustomKvEngine.t * L :=
  match n with
  | O => construct endpoints l
  | S n' =>
    let '(e, l1) := reconnected n' endpoints l in reconnect endpoints e l1
  end.

End Connection.

Definition isHealthy (e : CustomKvEngine.t) : bool := CustomKvEngine.healthy_ e.

Definition getClientHandle (e : CustomKvEngine.t) : option handle :=
  CustomKvEngine.client_handle_ e.

(** [generateTransactionId()]: the identifier and the next value of the
    static 64-bit counter; [fetch_add(1)] hands out the value before the
    addition. *)
Definition generateTransactionId (timestamp thread_id counter : Z)
  : string * Z :=
  ("txn_" ++ CustomTransaction.fmt_int timestamp
          ++ "_" ++ CustomTransaction.fmt_int thread_id
          ++ "_" ++ CustomTransaction.fmt_int counter,
   (counter + 1) mod 2 ^ 64).

(** The identifiers of successive calls, each with its reading of the clock
    and the hash of its thread, from the value [counter] of the counter. *)
Fixpoint generated (calls : list (Z * Z)) (counter : Z) : list string :=
  match calls with
  | [] => []
  | (timestamp, thread_id) :: r =>
    let '(id, counter') := generateTransactionId timestamp thread_id counter in
    id :: generated r counter'
  end.

(** The engine is healthy exactly when it holds a client. *)
Definition consistent (e : CustomKvEngine.t) : Prop :=
  CustomKvEngine.healthy_ e = true <-> CustomKvEngine.client_handle_ e <> None.

(** The requests the engine sends to the library, with the answers that are
    pointers. *)
Inductive Request : Type :=
| Init
| ClientCreate (endpoint : string) (answer : option handle)
| ClientPing (client : handle) (message : bytes)
| ClientDestroy (client : handle).

Section Record.
Context {L : Type} `{KvLibrary L}.

(** A library that writes down the requests and passes them on. *)
#[global] Instance recorded : KvLibrary (list Request * L) := {
  kv_init tl :=
    let '(r, l') := kv_init (snd tl) in (r, ((fst tl ++ [Init])%list, l'));
  kv_client_create endpoint tl :=
    let '(a, l') := kv_client_create endpoint (snd tl) in
    (a, ((fst tl ++ [ClientCreate endpoint a])%list, l'));
  kv_client_ping client message tl :=
    let '(a, l') := kv_client_ping client message (snd tl) in
    (a, ((fst tl ++ [ClientPing client message])%list, l'));
  kv_client_destroy client tl :=
    ((fst tl ++ [ClientDestroy client])%list,
     kv_client_destroy client (snd tl))
}.

End Record.

(** One step of the connection: the library is initialised and a client is
    created, for [primary] only, while none is held; the client held is
    pinged with "hello"; the client held, and no other, is destroyed.
    [None]: the request is out of turn. *)
Definition step (primary : option string) (held : option handle)
           (q : Request) : option (option handle) :=
  match q, held with
  | Init, None => Some None
  | ClientCreate endpoint answer, None =>
    match primary with
    | Some p => if (endpoint =? p)%string then Some answer else None
    | None => None
    end
  | ClientPing client message, Some h =>
    if Nat.eqb client h && (message =? "hello")%string then Some held
    else None
  | ClientDestroy client, Some h =>
    if Nat.eqb client h then Some None else None
  | _, _ => None
  end.

(** The client held after the requests [qs], if every one was in turn. *)
Fixpoint held_after (primary : option string) (held : option handle)
         (qs : list Request) : option (option handle) :=
  match qs with
  | [] => Some held
  | q :: r =>
    match step primary held q with
    | Some held' => held_after primary held' r
    | None => None
    end
  end.

End CustomKvEngineImpl.


(** ** The transaction that polls its futures

    The earlier [CustomTransaction.cc]: every request to the client hands
    back a future, which the method polls in a loop with a bound on the
    number of retries, sleeping between two polls.  The fields are those of
    [CustomTransaction.t].  [getRange] is left out: it reads the count of
    the page after it has freed the page. *)

Module Polling.

(** The entry points of [kvstore_client.h] this version calls.  A future is
    a handle; [kv_future_poll] answers an [int]; a key or a value is passed
    as pointer and [int] length ([Span]). *)
Class KvFutureClient (W : Type) : Type := {
  kv_future_poll : handle -> W -> Z * W;
  kv_read_transaction_begin : Z -> W -> handle * W;
  kv_future_get_read_transaction : handle -> W -> option handle * W;
  kv_read_transaction_get : handle -> Span -> W -> handle * W;
  kv_read_transaction_destroy : handle -> W -> W;
  kv_transaction_begin : Z -> W -> handle * W;
  kv_future_get_transaction : handle -> W -> option handle * W;
  kv_transaction_get : handle -> Span -> W -> handle * W;
  kv_transaction_set : handle -> Span -> Span -> W -> handle * W;
  kv_transaction_delete : handle -> Span -> W -> handle * W;
  kv_transaction_commit : handle -> W -> handle * W;
  kv_transaction_abort : handle -> W -> handle * W;
  kv_future_get_value_result : handle -> W -> KvResult * KvBinaryData * W;
  kv_future_get_void_result : handle -> W -> KvResult * W
}.

(** How a polling loop ends: [ready == 1]; a poll answered [-1]; or the
    retries ran out. *)
Inductive Polled : Type :=
| Ready
| PollFailed
| TimedOut.

Section Methods.
Context {W : Type} `{KvFutureClient W}.

(** The loop
    [while (ready != 1 && retries < max) { ready = kv_future_poll(future);
       if (ready == -1) <leave>; if (ready != 1) { sleep; retries++; } }]
    with [left] the retries that remain; the answer carries [retries]. *)
Fixpoint poll_until_ready (left : nat) (future : handle) (retries : Z) (w : W)
  : Polled * Z * W :=
  match left with
  | O => (TimedOut, retries, w)
  | S left' =>
    let '(ready, w1) := kv_future_poll future w in
    if ready =? -1 then (PollFailed, retries, w1)
    else if ready =? 1 then (Ready, retries, w1)
    else poll_until_ready left' future (retries + 1) w1
  end.

Definition ensureTransaction (tx : CustomTransaction.t) (w : W)
  : Result handle * CustomTransaction.t * W :=
  match CustomTransaction.transaction_handle_ tx with
  | Some h => (Ok h, tx, w)
  | None =>
    match CustomTransaction.client_handle_ tx with
    | None => (makeError kIOError "Client handle not available", tx, w)
    | Some _ =>
      let '(future, w1) := kv_transaction_begin 30 w in
      match poll_until_ready 100 future 0 w1 with
      | (PollFailed, _, w2) =>
        (makeError kIOError "Transaction begin failed", tx, w2)
      | (TimedOut, _, w2) =>
        (makeError kTimeout "Transaction begin timed out", tx, w2)
      | (Ready, _, w2) =>
        match kv_future_get_transaction future w2 with
        | (Some h, w3) =>
          (Ok h, CustomTransaction.with_transaction_handle tx (Some h), w3)
        | (None, w3) =>
          (makeError kIOError "Failed to get transaction handle", tx, w3)
        end
      end
    end
  end.

Definition snapshotGet (tx : CustomTransaction.t) (k : bytes) (w : W)
  : Result (option bytes) * CustomTransaction.t * W :=
  if CustomTransaction.finished tx then
    (makeError kInvalidArg "Transaction is finished", tx, w)
  else
    match CustomTransaction.client_handle_ tx with
    | None => (makeError kIOError "Client handle not available", tx, w)
    | Some _ =>
      let '(tx_future, w1) :=
        kv_read_transaction_begin
          (match CustomTransaction.read_version_ tx with
           | Some v => v
           | None => 0
           end) w in
      match poll_until_ready 100 tx_future 0 w1 with
      | (PollFailed, _, w2) =>
        (makeError kIOError "Read transaction begin failed", tx, w2)
      | (TimedOut, _, w2) =>
        (makeError kTimeout "Read transaction begin timed out", tx, w2)
      | (Ready, _, w2) =>
        match kv_future_get_read_transaction tx_future w2 with
        | (None, w3) =>
          (makeError kIOError "Failed to get read transaction handle", tx, w3)
        | (Some read_tx, w3) =>
          let '(future, w4) := kv_read_transaction_get read_tx (span k) w3 in
          match poll_until_ready 100 future 0 w4 with
          | (PollFailed, _, w5) =>
            (makeError kIOError "Future polling failed", tx,
             kv_read_transaction_destroy read_tx w5)
          | (TimedOut, _, w5) =>
            (makeError kTimeout "Snapshot get operation timed out", tx,
             kv_read_transaction_destroy read_tx w5)
          | (Ready, _, w5) =>
            let '(result, value, w6) := kv_future_get_value_result future w5 in
            match success result, data value with
            | true, Some result_str =>
              (Ok (Some result_str), tx, kv_read_transaction_destroy read_tx w6)
            | _, _ => (Ok None, tx, kv_read_transaction_destroy read_tx w6)
            end
          end
        end
      end
    end.

Definition get (tx : CustomTransaction.t) (k : bytes) (w : W)
  : Result (option bytes) * CustomTransaction.t * W :=
  if CustomTransaction.finished tx then
    (makeError kInvalidArg "Transaction is finished", tx, w)
  else
    match ensureTransaction tx w with
    | (makeError c m, tx1, w1) => (makeError c m, tx1, w1)
    | (Ok h, tx1, w1) =>
      let '(future, w2) := kv_transaction_get h (span k) w1 in
      match poll_until_ready 100 future 0 w2 with
      | (PollFailed, _, w3) =>
        (makeError kIOError "Future polling failed", tx1, w3)
      | (TimedOut, _, w3) =>
        (makeError kTimeout "Get operation timed out", tx1, w3)
      | (Ready, _, w3) =>
        let '(result, value, w4) := kv_future_get_value_result future w3 in
        match success result, data value with
        | true, Some result_str => (Ok (Some result_str), tx1, w4)
        | _, _ => (Ok None, tx1, w4)
        end
      end
    end.

(** TODO in this version: an empty page, no call to the client. *)
Definition snapshotGetRange (tx : CustomTransaction.t)
           (begin_ end_ : KeySelector) (limit : Z) (w : W)
  : Result GetRangeResult * CustomTransaction.t * W :=
  if CustomTransaction.finished tx then
    (makeError kInvalidArg "Transaction is finished", tx, w)
  else (Ok (mkGetRangeResult [] false), tx, w).

(** The abort is polled at most 50 times; a failed poll leaves the loop
    ("continuing anyway"); the result is read only when the future is
    ready; the handle is dropped in every case. *)
Definition cancel (tx : CustomTransaction.t) (w : W)
  : Result unit * CustomTransaction.t * W :=
  if CustomTransaction.cancelled_ tx then (Ok tt, tx, w)
  else
    let tx0 := CustomTransaction.with_cancelled tx true in
    match CustomTransaction.transaction_handle_ tx0 with
    | Some h =>
      let '(future, w1) := kv_transaction_abort h w in
      match poll_until_ready 50 future 0 w1 with
      | (Ready, _, w2) =>
        let '(_, w3) := kv_future_get_void_result future w2 in
        (Ok tt, CustomTransaction.with_transaction_handle tx0 None, w3)
      | (_, _, w2) =>
        (Ok tt, CustomTransaction.with_transaction_handle tx0 None, w2)
      end
    | None => (Ok tt, tx0, w)
    end.

Definition set (tx : CustomTransaction.t) (k value : bytes) (w : W)
  : Result unit * CustomTransaction.t * W :=
  if CustomTransaction.finished tx then
    (makeError kInvalidArg "Transaction is finished", tx, w)
  else
    match ensureTransaction tx w with
    | (makeError c m, tx1, w1) => (makeError c m, tx1, w1)
    | (Ok h, tx1, w1) =>
      let '(future, w2) := kv_transaction_set h (span k) (span value) w1 in
      match poll_until_ready 100 future 0 w2 with
      | (PollFailed, _, w3) =>
        (makeError kIOError "Future polling failed", tx1, w3)
      | (TimedOut, _, w3) =>
        (makeError kTimeout "Set operation timed out", tx1, w3)
      | (Ready, _, w3) =>
        let '(result, w4) := kv_future_get_void_result future w3 in
        if negb (success result) then
          let error_msg := message_or result "Unknown error" in
          (makeError kIOError ("Set operation failed: " ++ error_msg),
           tx1, w4)
        else (Ok tt, tx1, w4)
      end
    end.

Definition clear (tx : CustomTransaction.t) (k : bytes) (w : W)
  : Result unit * CustomTransaction.t * W :=
  if CustomTransaction.finished tx then
    (makeError kInvalidArg "Transaction is finished", tx, w)
  else
    match ensureTransaction tx w with
    | (makeError c m, tx1, w1) => (makeError c m, tx1, w1)
    | (Ok h, tx1, w1) =>
      let '(future, w2) := kv_transaction_delete h (span k) w1 in
      match poll_until_ready 100 future 0 w2 with
      | (PollFailed, _, w3) =>
        (makeError kIOError "Future polling failed", tx1, w3)
      | (TimedOut, _, w3) =>
        (makeError kTimeout "Delete operation timed out", tx1, w3)
      | (Ready, _, w3) =>
        let '(result, w4) := kv_future_get_void_result future w3 in
        if negb (success result) then
          let error_msg := message_or result "Unknown error" in
          (makeError kIOError ("Delete operation failed: " ++ error_msg),
           tx1, w4)
        else (Ok tt, tx1, w4)
      end
    end.

(** TODO in this version, as are [addReadConflict] and
    [addReadConflictRange]: nothing is sent. *)
Definition stub (tx : CustomTransaction.t) (w : W)
  : Result unit * CustomTransaction.t * W :=
  if CustomTransaction.finished tx then
    (makeError kInvalidArg "Transaction is finished", tx, w)
  else (Ok tt, tx, w).

Definition setVersionstampedKey (tx : CustomTransaction.t) (k : bytes)
           (offset : Z) (value : bytes) (w : W)
  : Result unit * CustomTransaction.t * W := stub tx w.

Definition setVersionstampedValue (tx : CustomTransaction.t) (k value : bytes)
           (offset : Z) (w : W)
  : Result unit * CustomTransaction.t * W := stub tx w.

Definition commit (tx : CustomTransaction.t) (now : Z) (w : W)
  : Result unit * CustomTransaction.t * W :=
  if CustomTransaction.cancelled_ tx || CustomTransaction.reset_ tx then
    (makeError kInvalidArg "Transaction is cancelled or reset", tx, w)
  else if CustomTransaction.committed_ tx then (Ok tt, tx, w)
  else
    let tx0 := CustomTransaction.with_committed tx true in
    match ensureTransaction tx0 w with
    | (makeError c m, tx1, w1) => (makeError c m, tx1, w1)
    | (Ok h, tx1, w1) =>
      let '(future, w2) := kv_transaction_commit h w1 in
      match poll_until_ready 100 future 0 w2 with
      | (PollFailed, _, w3) =>
        (makeError kIOError "Future polling failed", tx1, w3)
      | (TimedOut, _, w3) =>
        (makeError kTimeout "Commit operation timed out", tx1, w3)
      | (Ready, _, w3) =>
        let '(result, w4) := kv_future_get_void_result future w3 in
        if negb (success result) then
          let error_code :=
            match error_code result with
            | KV_ERROR_TRANSACTION_CONFLICT => kConflict
            | KV_ERROR_TRANSACTION_TIMEOUT => kTimeout
            | KV_ERROR_TRANSACTION_NOT_FOUND => kInvalidArg
            | KV_ERROR_OTHER _ => kIOError
            end in
          let error_msg := message_or result "Commit failed" in
          (makeError error_code error_msg, tx1, w4)
        else (Ok tt, CustomTransaction.with_committed_version tx1 now, w4)
      end
    end.

(** The methods that wait for the client. *)
Inductive Call : Type :=
| SnapshotGet (k : bytes)
| Get (k : bytes)
| Set_ (k value : bytes)
| Clear (k : bytes)
| Commit (now : Z)
| Cancel.

Definition call (c : Call) (tx : CustomTransaction.t) (w : W)
  : Calls.Reply * CustomTransaction.t * W :=
  match c with
  | SnapshotGet k =>
    let '(r, tx', w') := snapshotGet tx k w in (Calls.ReplyValue r, tx', w')
  | Get k => let '(r, tx', w') := get tx k w in (Calls.ReplyValue r, tx', w')
  | Set_ k v => let '(r, tx', w') := set tx k v w in (Calls.ReplyUnit r, tx', w')
  | Clear k => let '(r, tx', w') := clear tx k w in (Calls.ReplyUnit r, tx', w')
  | Commit now =>
    let '(r, tx', w') := commit tx now w in (Calls.ReplyUnit r, tx', w')
  | Cancel => let '(r, tx', w') := cancel tx w in (Calls.ReplyUnit r, tx', w')
  end.

(** A client that counts the polls and passes every call on. *)
#[global] Instance counted : KvFutureClient (nat * W) := {
  kv_future_poll f nw :=
    let '(r, w') := kv_future_poll f (snd nw) in (r, (S (fst nw), w'));
  kv_read_transaction_begin v nw :=
    let '(f, w') := kv_read_transaction_begin v (snd nw) in (f, (fst nw, w'));
  kv_future_get_read_transaction f nw :=
    let '(h, w') := kv_future_get_read_transaction f (snd nw) in
    (h, (fst nw, w'));
  kv_read_transaction_get h k nw :=
    let '(f, w') := kv_read_transaction_get h k (snd nw) in (f, (fst nw, w'));
  kv_read_transaction_destroy h nw :=
    (fst nw, kv_read_transaction_destroy h (snd nw));
  kv_transaction_begin t nw :=
    let '(f, w') := kv_transaction_begin t (snd nw) in (f, (fst nw, w'));
  kv_future_get_transaction f nw :=
    let '(h, w') := kv_future_get_transaction f (snd nw) in (h, (fst nw, w'));
  kv_transaction_get h k nw :=
    let '(f, w') := kv_transaction_get h k (snd nw) in (f, (fst nw, w'));
  kv_transaction_set h k v nw :=
    let '(f, w') := kv_transaction_set h k v (snd nw) in (f, (fst nw, w'));
  kv_transaction_delete h k nw :=
    let '(f, w') := kv_transaction_delete h k (snd nw) in (f, (fst nw, w'));
  kv_transaction_commit h nw :=
    let '(f, w') := kv_transaction_commit h (snd nw) in (f, (fst nw, w'));
  kv_transaction_abort h nw :=
    let '(f, w') := kv_transaction_abort h (snd nw) in (f, (fst nw, w'));
  kv_future_get_value_result f nw :=
    let '(r, v, w') := kv_future_get_value_result f (snd nw) in
    (r, v, (fst nw, w'));
  kv_future_get_void_result f nw :=
    let '(r, w') := kv_future_get_void_result f (snd nw) in (r, (fst nw, w'))
}.

End Methods.


(** A client whose futures never get ready: every poll answers 0. *)
#[global] Instance silent : KvFutureClient unit := {
  kv_future_poll _ w := (0, w);
  kv_read_transaction_begin _ w := (1%nat, w);
  kv_future_get_read_transaction _ w := (None, w);
  kv_read_transaction_get _ _ w := (1%nat, w);
  kv_read_transaction_destroy _ w := w;
  kv_transaction_begin _ w := (1%nat, w);
  kv_future_get_transaction _ w := (None, w);
  kv_transaction_get _ _ w := (1%nat, w);
  kv_transaction_set _ _ _ w := (1%nat, w);
  kv_transaction_delete _ _ w := (1%nat, w);
  kv_transaction_commit _ w := (1%nat, w);
  kv_transaction_abort _ w := (1%nat, w);
  kv_future_get_value_result _ w := (mkKvResult false (KV_ERROR_OTHER 0) None,
                                     mkKvBinaryData None, w);
  kv_future_get_void_result _ w := (mkKvResult false (KV_ERROR_OTHER 0) None, w)
}.


Section Open.
Context {W : Type} `{KvFutureClient W}.


End Open.

End Polling.


(** * Properties *)

(** ** Proof tools *)

Ltac break_match_hyp :=
  match goal with
  | H : context [match ?x with _ => _ end] |- _ => destruct x eqn:?
  | H : context [if ?x then _ else _] |- _ => destruct x eqn:?
  end.

Ltac inv H := inversion H; subst; clear H.

(** ** The adapter over any client *)

Section AnyClient.
Context {W : Type} {E : KvClient W}.

Import CustomTransaction.

Lemma ensureTransaction_handle (tx tx' : t) (w w' : W) (h : handle) :
  ensureTransaction tx w = (Ok h, tx', w') ->
  transaction_handle_ tx' = Some h.
Proof.
  unfold ensureTransaction; intros Hens.
  repeat break_match_hyp; inv Hens; simpl; auto.
Qed.

Lemma ensureTransaction_flags (tx tx' : t) (w w' : W) (r : Result handle) :
  ensureTransaction tx w = (r, tx', w') ->
  cancelled_ tx' = cancelled_ tx /\ reset_ tx' = reset_ tx
  /\ committed_ tx' = committed_ tx
  /\ committed_version_ tx' = committed_version_ tx
  /\ read_version_ tx' = read_version_ tx
  /\ client_handle_ tx' = client_handle_ tx.
Proof.
  unfold ensureTransaction; intros Hens.
  repeat break_match_hyp; inv Hens; simpl; auto 10.
Qed.

Lemma ensureTransaction_finished (tx tx' : t) (w w' : W) (r : Result handle) :
  ensureTransaction tx w = (r, tx', w') -> finished tx' = finished tx.
Proof.
  intros Hens. apply ensureTransaction_flags in Hens.
  destruct Hens as (Hc & Hr & Hk & _). unfold finished. now rewrite Hc, Hr, Hk.
Qed.

(** Once attached to an engine transaction, the handle is reused. *)
Lemma ensureTransaction_attached (tx : t) (w : W) (h : handle) :
  transaction_handle_ tx = Some h -> ensureTransaction tx w = (Ok h, tx, w).
Proof. unfold ensureTransaction; intros ->; reflexivity. Qed.

(** [commit] leaves the committed flag set on every path past the first
    guard, whatever the engine answers. *)
Lemma commit_marks_committed (tx tx' : t) (now : Z) (w w' : W)
      (r : Result unit) :
  cancelled_ tx = false -> reset_ tx = false ->
  commit tx now w = (r, tx', w') ->
  cancelled_ tx' = false /\ reset_ tx' = false /\ committed_ tx' = true.
Proof.
  unfold commit; intros Hc Hr Hcommit. rewrite Hc, Hr in Hcommit. simpl in Hcommit.
  destruct (committed_ tx) eqn:Hk.
  - inv Hcommit. auto.
  - destruct (ensureTransaction (with_committed tx true) w) as [[re tx1] w1] eqn:Hens.
    apply ensureTransaction_flags in Hens.
    destruct Hens as (Hc1 & Hr1 & Hk1 & _). simpl in Hc1, Hr1, Hk1.
    destruct re as [h | c m].
    + destruct (kv_transaction_commit h w1) as [kr w2].
      destruct (negb (success kr)); inv Hcommit; simpl; rewrite ?Hc1, ?Hr1, ?Hk1; auto.
    + inv Hcommit. rewrite Hc1, Hr1, Hk1; auto.
Qed.

(** A call that passes the first guard of [commit] on a transaction already
    marked committed answers success and touches nothing. *)
Lemma commit_again (tx : t) (now : Z) (w : W) :
  cancelled_ tx = false -> reset_ tx = false -> committed_ tx = true ->
  commit tx now w = (Ok tt, tx, w).
Proof. unfold commit; intros -> -> ->; reflexivity. Qed.

(** The guard of the data methods. *)
Lemma finished_rejects (tx : t) (w : W) (c : Calls.RwCall) :
  finished tx = true -> Calls.rw_is_data c = true ->
  exists r, Calls.rw_call c tx w = (r, tx, w)
            /\ Calls.reply_code r = Some kInvalidArg.
Proof.
  intros Hfin Hdata.
  destruct c; try discriminate Hdata; simpl;
    unfold snapshotGet, get, snapshotGetRange, getRange, addReadConflict,
      addReadConflictRange, set, clear, setVersionstampedKey,
      setVersionstampedValue;
    rewrite Hfin; eexists; split; reflexivity.
Qed.

Lemma finished_reset (tx : t) : finished (reset tx) = true.
Proof. reflexivity. Qed.

Lemma finished_cancel (tx tx' : t) (w w' : W) (r : Result unit) :
  cancel tx w = (r, tx', w') -> finished tx' = true.
Proof.
  unfold cancel, finished; intros Hcancel.
  destruct (cancelled_ tx) eqn:Hc.
  - inv Hcancel. now rewrite Hc.
  - simpl in Hcancel. destruct (transaction_handle_ tx).
    + destruct (kv_transaction_abort h w). inv Hcancel. reflexivity.
    + inv Hcancel. reflexivity.
Qed.

Lemma finished_commit (tx tx' : t) (now : Z) (w w' : W) (r : Result unit) :
  commit tx now w = (r, tx', w') -> finished tx' = true.
Proof.
  intros Hcommit. unfold finished.
  destruct (cancelled_ tx) eqn:Hc; [| destruct (reset_ tx) eqn:Hr].
  - unfold commit in Hcommit. rewrite Hc in Hcommit. inv Hcommit. now rewrite Hc.
  - unfold commit in Hcommit. rewrite Hc, Hr in Hcommit. inv Hcommit.
    now rewrite Hr, orb_true_r.
  - destruct (commit_marks_committed _ _ _ _ _ _ Hc Hr Hcommit) as (_ & _ & ->).
    now rewrite orb_true_r.
Qed.

(** Every call that ends a transaction leaves it finished. *)
Lemma ends_finished (c : Calls.RwCall) (tx tx' : t) (w w' : W)
      (r : Calls.Reply) :
  Calls.rw_ends c = true -> Calls.rw_call c tx w = (r, tx', w') ->
  finished tx' = true.
Proof.
  destruct c; try discriminate; intros _; simpl.
  - destruct (cancel tx w) as [[rc tx1] w1] eqn:Hcancel. intros Hcall; inv Hcall.
    eapply finished_cancel; eauto.
  - intros Hcall; inv Hcall. apply finished_reset.
  - destruct (commit tx now w) as [[rc tx1] w1] eqn:Hcommit. intros Hcall; inv Hcall.
    eapply finished_commit; eauto.
Qed.

(** No method brings a finished transaction back. *)
Lemma finished_stable (c : Calls.RwCall) (tx tx' : t) (w w' : W)
      (r : Calls.Reply) :
  finished tx = true -> Calls.rw_call c tx w = (r, tx', w') ->
  finished tx' = true.
Proof.
  intros Hfin Hcall.
  destruct (Calls.rw_is_data c) eqn:Hdata.
  - destruct (finished_rejects tx w c Hfin Hdata) as (r0 & Heq & _).
    rewrite Heq in Hcall. now inv Hcall.
  - destruct (Calls.rw_ends c) eqn:Hends.
    + eapply ends_finished; eauto.
    + destruct c; try discriminate. simpl in Hcall. inv Hcall. exact Hfin.
Qed.

Lemma finished_run (cs : list Calls.RwCall) (tx tx' : t) (w w' : W) :
  finished tx = true -> Calls.rw_run cs tx w = (tx', w') ->
  finished tx' = true.
Proof.
  revert tx w. induction cs as [| c cs IH]; simpl; intros tx w Hfin Hrun.
  - now inv Hrun.
  - destruct (Calls.rw_call c tx w) as [[r tx1] w1] eqn:Hcall.
    eapply IH; [| exact Hrun]. eapply finished_stable; eauto.
Qed.

Lemma rw_run_app (cs ds : list Calls.RwCall) (tx : t) (w : W) :
  Calls.rw_run (cs ++ ds) tx w
  = let '(tx1, w1) := Calls.rw_run cs tx w in Calls.rw_run ds tx1 w1.
Proof.
  revert tx w. induction cs as [| c cs IH]; simpl; intros tx w.
  - reflexivity.
  - destruct (Calls.rw_call c tx w) as [[r tx1] w1]. apply IH.
Qed.

End AnyClient.

Section AnyClientReadOnly.
Context {W : Type} {E : KvClient W}.

Import CustomReadOnlyTransaction.

Lemma ro_finished_rejects (tx : t) (w : W) (c : Calls.RoCall) :
  finished tx = true -> Calls.ro_is_read c = true ->
  exists r, Calls.ro_call c tx w = (r, tx, w)
            /\ Calls.reply_code r = Some kInvalidArg.
Proof.
  intros Hfin Hread.
  destruct c; try discriminate Hread; simpl;
    unfold snapshotGet, get, snapshotGetRange, getRange;
    rewrite Hfin; eexists; split; reflexivity.
Qed.

Lemma ro_ends_finished (c : Calls.RoCall) (tx tx' : t) (w w' : W)
      (r : Calls.Reply) :
  Calls.ro_ends c = true -> Calls.ro_call c tx w = (r, tx', w') ->
  finished tx' = true.
Proof.
  destruct c; try discriminate; intros _ Hcall; simpl in Hcall; inv Hcall;
    unfold finished; simpl; auto using orb_true_r.
Qed.

Lemma ro_finished_stable (c : Calls.RoCall) (tx tx' : t) (w w' : W)
      (r : Calls.Reply) :
  finished tx = true -> Calls.ro_call c tx w = (r, tx', w') ->
  finished tx' = true.
Proof.
  intros Hfin Hcall.
  destruct (Calls.ro_is_read c) eqn:Hread.
  - destruct (ro_finished_rejects tx w c Hfin Hread) as (r0 & Heq & _).
    rewrite Heq in Hcall. now inv Hcall.
  - destruct (Calls.ro_ends c) eqn:Hends.
    + eapply ro_ends_finished; eauto.
    + destruct c; try discriminate. simpl in Hcall. inv Hcall. exact Hfin.
Qed.

Lemma ro_finished_run (cs : list Calls.RoCall) (tx tx' : t) (w w' : W) :
  finished tx = true -> Calls.ro_run cs tx w = (tx', w') ->
  finished tx' = true.
Proof.
  revert tx w. induction cs as [| c cs IH]; simpl; intros tx w Hfin Hrun.
  - now inv Hrun.
  - destruct (Calls.ro_call c tx w) as [[r tx1] w1] eqn:Hcall.
    eapply IH; [| exact Hrun]. eapply ro_finished_stable; eauto.
Qed.

Lemma ro_run_app (cs ds : list Calls.RoCall) (tx : t) (w : W) :
  Calls.ro_run (cs ++ ds) tx w
  = let '(tx1, w1) := Calls.ro_run cs tx w in Calls.ro_run ds tx1 w1.
Proof.
  revert tx w. induction cs as [| c cs IH]; simpl; intros tx w.
  - reflexivity.
  - destruct (Calls.ro_call c tx w) as [[r tx1] w1]. apply IH.
Qed.

End AnyClientReadOnly.

(** C9.  On a read-write transaction, after any call of [cancel], [reset] or
    [commit] (and whatever was called before or since), each of the ten data
    methods answers with a [kInvalidArg] error and leaves both the
    transaction object and the state of the key-value service as they were;
    the same holds for the four reads of a read-only transaction after
    [cancel] or [reset].  This holds over every client. *)
Theorem finished_transaction_rejects_calls :
  forall (W : Type) (E : KvClient W),
    (forall (pre mid : list Calls.RwCall) (e op : Calls.RwCall)
            (tx : CustomTransaction.t) (w : W),
        Calls.rw_ends e = true -> Calls.rw_is_data op = true ->
        exists r,
          Calls.rw_call op (fst (Calls.rw_run (pre ++ e :: mid) tx w))
                        (snd (Calls.rw_run (pre ++ e :: mid) tx w))
          = (r, fst (Calls.rw_run (pre ++ e :: mid) tx w),
             snd (Calls.rw_run (pre ++ e :: mid) tx w))
          /\ Calls.reply_code r = Some kInvalidArg)
    /\
    (forall (pre mid : list Calls.RoCall) (e op : Calls.RoCall)
            (tx : CustomReadOnlyTransaction.t) (w : W),
        Calls.ro_ends e = true -> Calls.ro_is_read op = true ->
        exists r,
          Calls.ro_call op (fst (Calls.ro_run (pre ++ e :: mid) tx w))
                        (snd (Calls.ro_run (pre ++ e :: mid) tx w))
          = (r, fst (Calls.ro_run (pre ++ e :: mid) tx w),
             snd (Calls.ro_run (pre ++ e :: mid) tx w))
          /\ Calls.reply_code r = Some kInvalidArg).
Proof.
  intros W E; split.
  - intros pre mid e op tx w Hends Hdata.
    apply finished_rejects; [| exact Hdata].
    rewrite rw_run_app.
    destruct (Calls.rw_run pre tx w) as [tx1 w1]. simpl.
    destruct (Calls.rw_call e tx1 w1) as [[r tx2] w2] eqn:Hcall.
    destruct (Calls.rw_run mid tx2 w2) as [tx3 w3] eqn:Hrun. simpl.
    eapply finished_run; [| exact Hrun]. eapply ends_finished; eauto.
  - intros pre mid e op tx w Hends Hread.
    apply ro_finished_rejects; [| exact Hread].
    rewrite ro_run_app.
    destruct (Calls.ro_run pre tx w) as [tx1 w1]. simpl.
    destruct (Calls.ro_call e tx1 w1) as [[r tx2] w2] eqn:Hcall.
    destruct (Calls.ro_run mid tx2 w2) as [tx3 w3] eqn:Hrun. simpl.
    eapply ro_finished_run; [| exact Hrun]. eapply ro_ends_finished; eauto.
Qed.

(** A write after the commit, and a read after the cancel. *)
Lemma finished_transaction_rejects_calls_witness :
  (Calls.rw_ends (Calls.RwCommit 1000) = true
   /\ Calls.rw_is_data (Calls.RwSet "b" "2") = true
   /\ exists r,
       Calls.rw_call (Calls.RwSet "b" "2")
         (fst (Calls.rw_run ([Calls.RwSet "a" "1"] ++ Calls.RwCommit 1000 :: [])
                            Scenarios.new_read_write MemKv.empty))
         (snd (Calls.rw_run ([Calls.RwSet "a" "1"] ++ Calls.RwCommit 1000 :: [])
                            Scenarios.new_read_write MemKv.empty))
       = (r,
          fst (Calls.rw_run ([Calls.RwSet "a" "1"] ++ Calls.RwCommit 1000 :: [])
                            Scenarios.new_read_write MemKv.empty),
          snd (Calls.rw_run ([Calls.RwSet "a" "1"] ++ Calls.RwCommit 1000 :: [])
                            Scenarios.new_read_write MemKv.empty))
       /\ Calls.reply_code r = Some kInvalidArg)
  /\
  (Calls.ro_ends Calls.RoCancel = true
   /\ Calls.ro_is_read (Calls.RoSnapshotGet "k") = true
   /\ exists r,
       Calls.ro_call (Calls.RoSnapshotGet "k")
         (fst (Calls.ro_run ([] ++ Calls.RoCancel :: [])
                            Scenarios.new_read_only Scenarios.world_k))
         (snd (Calls.ro_run ([] ++ Calls.RoCancel :: [])
                            Scenarios.new_read_only Scenarios.world_k))
       = (r,
          fst (Calls.ro_run ([] ++ Calls.RoCancel :: [])
                            Scenarios.new_read_only Scenarios.world_k),
          snd (Calls.ro_run ([] ++ Calls.RoCancel :: [])
                            Scenarios.new_read_only Scenarios.world_k))
       /\ Calls.reply_code r = Some kInvalidArg).
Proof.
  split.
  - split; [reflexivity |]. split; [reflexivity |].
    exact (proj1 (finished_transaction_rejects_calls MemKv.World MemKv.client)
                 [Calls.RwSet "a" "1"] [] (Calls.RwCommit 1000)
                 (Calls.RwSet "b" "2") Scenarios.new_read_write MemKv.empty
                 eq_refl eq_refl).
  - split; [reflexivity |]. split; [reflexivity |].
    exact (proj2 (finished_transaction_rejects_calls MemKv.World MemKv.client)
                 [] [] Calls.RoCancel (Calls.RoSnapshotGet "k")
                 Scenarios.new_read_only Scenarios.world_k eq_refl eq_refl).
Defined.

(** C10.  Two calls of [commit] in a row on a transaction that is neither
    cancelled nor reset: whatever the first call answered, it left the
    transaction marked committed, and the second call answers success at
    once, leaving the transaction object and the state of the service
    untouched - over every client, so without any request to the engine. *)
Theorem commit_twice :
  forall (W : Type) (E : KvClient W) (tx : CustomTransaction.t)
         (now now' : Z) (w : W),
    CustomTransaction.cancelled_ tx = false ->
    CustomTransaction.reset_ tx = false ->
    forall r1 tx1 w1,
      CustomTransaction.commit tx now w = (r1, tx1, w1) ->
      CustomTransaction.committed_ tx1 = true
      /\ CustomTransaction.commit tx1 now' w1 = (Ok tt, tx1, w1).
Proof.
  intros W E tx now now' w Hc Hr r1 tx1 w1 Hcommit.
  destruct (commit_marks_committed _ _ _ _ _ _ Hc Hr Hcommit) as (Hc1 & Hr1 & Hk1).
  split; [exact Hk1 |]. now apply commit_again.
Qed.

(** Two commits in a row of the transaction of the test [SetValue]; and two
    commits in a row of a transaction whose first commit fails with a
    conflict. *)
Lemma commit_twice_witness :
  let s := Calls.rw_run [Calls.RwSet "unittest.foo" "unittest.bar"]
                        Scenarios.new_read_write MemKv.empty in
  let cm := CustomTransaction.commit (fst s) 1000 (snd s) in
  let cf := CustomTransaction.commit (fst Scenarios.reader_overtaken) 1002
                                     (snd Scenarios.reader_overtaken) in
  CustomTransaction.cancelled_ (fst s) = false
  /\ CustomTransaction.reset_ (fst s) = false
  /\ fst (fst cm) = Ok tt
  /\ CustomTransaction.commit (snd (fst cm)) 2000 (snd cm)
     = (Ok tt, snd (fst cm), snd cm)
  /\ fst (fst cf) = makeError kConflict "transaction conflict"
  /\ CustomTransaction.commit (snd (fst cf)) 2000 (snd cf)
     = (Ok tt, snd (fst cf), snd cf).
Proof.
  intros s cm cf.
  assert (Hc : CustomTransaction.cancelled_ (fst s) = false) by reflexivity.
  assert (Hr : CustomTransaction.reset_ (fst s) = false) by reflexivity.
  split; [exact Hc |]. split; [exact Hr |]. split; [reflexivity |].
  split.
  - exact (proj2 (commit_twice MemKv.World MemKv.client (fst s) 1000 2000
                               (snd s) Hc Hr (fst (fst cm)) (snd (fst cm))
                               (snd cm) eq_refl)).
  - split; [reflexivity |].
    exact (proj2 (commit_twice MemKv.World MemKv.client
                               (fst Scenarios.reader_overtaken) 1002 2000
                               (snd Scenarios.reader_overtaken)
                               eq_refl eq_refl
                               (fst (fst cf)) (snd (fst cf)) (snd cf) eq_refl)).
Defined.

(** ** What the adapter makes of the answers of the client *)

Section Answers.
Context {W : Type} {E : KvClient W}.

(** [commit] answers [kConflict] for one reason only: the engine refused the
    commit request of this very call with [KV_ERROR_TRANSACTION_CONFLICT]. *)
Lemma commit_conflict_iff (tx tx' : CustomTransaction.t) (now : Z) (w w' : W)
      (r : Result unit) :
  CustomTransaction.commit tx now w = (r, tx', w') ->
  (hasError r kConflict = true <->
   CustomTransaction.cancelled_ tx = false
   /\ CustomTransaction.reset_ tx = false
   /\ CustomTransaction.committed_ tx = false
   /\ exists h w1 kr,
       CustomTransaction.ensureTransaction
         (CustomTransaction.with_committed tx true) w = (Ok h, tx', w1)
       /\ kv_transaction_commit h w1 = (kr, w')
       /\ success kr = false
       /\ error_code kr = KV_ERROR_TRANSACTION_CONFLICT).
Proof.
  unfold CustomTransaction.commit; intros Hcommit.
  destruct (CustomTransaction.cancelled_ tx) eqn:Hc; simpl in Hcommit.
  { inv Hcommit; simpl; split; [discriminate | intros (Hf & _); discriminate]. }
  destruct (CustomTransaction.reset_ tx) eqn:Hr; simpl in Hcommit.
  { inv Hcommit; simpl; split; [discriminate | intros (_ & Hf & _); discriminate]. }
  destruct (CustomTransaction.committed_ tx) eqn:Hk.
  { inv Hcommit; simpl; split; [discriminate | intros (_ & _ & Hf & _); discriminate]. }
  destruct (CustomTransaction.ensureTransaction
              (CustomTransaction.with_committed tx true) w)
    as [[re tx1] w1] eqn:Hens.
  destruct re as [h | c m].
  - destruct (kv_transaction_commit h w1) as [kr w2] eqn:Hkc.
    destruct (success kr) eqn:Hs; simpl in Hcommit; inv Hcommit; simpl.
    + split; [discriminate |].
      intros (_ & _ & _ & h' & w1' & kr' & Hens' & Hkc' & Hs' & _).
      inv Hens'. rewrite Hkc in Hkc'. inv Hkc'. congruence.
    + split.
      * intros Hcode. repeat split; auto. exists h, w1, kr.
        repeat split; auto. destruct (error_code kr); simpl in Hcode; congruence.
      * intros (_ & _ & _ & h' & w1' & kr' & Hens' & Hkc' & _ & Hec).
        inv Hens'. rewrite Hkc in Hkc'. inv Hkc'. now rewrite Hec.
  - inv Hcommit. split.
    + unfold CustomTransaction.ensureTransaction in Hens.
      repeat break_match_hyp; inv Hens; simpl; discriminate.
    + intros (_ & _ & _ & h' & w1' & kr' & Hens' & _). discriminate.
Qed.


(** A read the client reports as failed comes out of [snapshotGet] as a
    successful absent value. *)
Lemma snapshotGet_swallows_failure (tx : CustomReadOnlyTransaction.t)
      (k : bytes) (w w1 w2 : W) (c read_tx : handle) (kr : KvResult)
      (d : KvBinaryData) :
  CustomReadOnlyTransaction.finished tx = false ->
  CustomReadOnlyTransaction.client_handle_ tx = Some c ->
  kv_read_transaction_begin
    (match CustomReadOnlyTransaction.read_version_ tx with
     | Some v => v | None => 0 end) w = (Some read_tx, w1) ->
  kv_read_transaction_get read_tx (span k) w1 = (kr, d, w2) ->
  success kr = false ->
  CustomReadOnlyTransaction.snapshotGet tx k w
  = (Ok None, kv_read_transaction_destroy read_tx w2).
Proof.
  unfold CustomReadOnlyTransaction.snapshotGet.
  intros -> -> -> -> ->. reflexivity.
Qed.

(** And so does a failed read out of [get] of a read-write transaction. *)
Lemma get_swallows_failure (tx tx1 : CustomTransaction.t) (k : bytes)
      (w w1 w2 : W) (h : handle) (kr : KvResult) (d : KvBinaryData) :
  CustomTransaction.finished tx = false ->
  CustomTransaction.ensureTransaction tx w = (Ok h, tx1, w1) ->
  kv_transaction_get h (span k) w1 = (kr, d, w2) ->
  success kr = false ->
  CustomTransaction.get tx k w = (Ok None, tx1, w2).
Proof.
  unfold CustomTransaction.get. intros -> -> -> ->. reflexivity.
Qed.

(** The flag of a page of [getRange]: the count that [kv_pair_array_free]
    left in the array it freed is not 0 and is [limit]; the pairs are those
    the array held before. *)
Lemma getRange_hasMore (tx tx' : CustomTransaction.t) (b e : KeySelector)
      (limit : Z) (w w' : W) (res : GetRangeResult) :
  CustomTransaction.getRange tx b e limit w = (Ok res, tx', w') ->
  exists h w1 w2 kr,
    CustomTransaction.ensureTransaction tx w = (Ok h, tx', w1)
    /\ kv_transaction_get_range h (span (key b)) (span (key e))
         0 (if inclusive b then 0 else 1) 0 (if inclusive e then 1 else 0)
         limit w1 = (kr, kvs res, w2)
    /\ success kr = true
    /\ w' = snd (kv_pair_array_free (kvs res) w2)
    /\ hasMore res
       = negb (count (fst (kv_pair_array_free (kvs res) w2)) =? 0)
         && (count (fst (kv_pair_array_free (kvs res) w2))
             =? size_t_of_int32 limit).
Proof.
  unfold CustomTransaction.getRange; intros Hget.
  destruct (CustomTransaction.finished tx); [discriminate |].
  destruct (CustomTransaction.ensureTransaction tx w) as [[[h | c m] tx1] w1];
    [| discriminate].
  destruct (kv_transaction_get_range _ _ _ _ _ _ _ _ w1) as [[kr pa] w2] eqn:Hr.
  destruct (success kr) eqn:Hs; [| discriminate].
  destruct (kv_pair_array_free pa w2) as [freed w3] eqn:Hf. inv Hget. simpl.
  exists h, w1, w2, kr. rewrite Hf. auto.
Qed.

(** The flag of a page of [snapshotGetRange] of a read-only transaction:
    the count left in the freed array is [limit]. *)
Lemma snapshotGetRange_hasMore (tx : CustomReadOnlyTransaction.t)
      (b e : KeySelector) (limit : Z) (w w' : W) (res : GetRangeResult) :
  CustomReadOnlyTransaction.snapshotGetRange tx b e limit w = (Ok res, w') ->
  exists w2,
    hasMore res
    = (count (fst (kv_pair_array_free (kvs res) w2)) =? size_t_of_int32 limit).
Proof.
  unfold CustomReadOnlyTransaction.snapshotGetRange; intros Hget.
  destruct (CustomReadOnlyTransaction.finished tx); [discriminate |].
  destruct (CustomReadOnlyTransaction.client_handle_ tx); [| discriminate].
  destruct (kv_read_transaction_begin _ w) as [[read_tx |] w1];
    [| discriminate].
  destruct (kv_read_transaction_get_range _ _ _ _ _ _ _ _ w1)
    as [[kr pa] w2] eqn:Hr.
  destruct (success kr) eqn:Hs; [| discriminate].
  destruct (kv_pair_array_free pa w2) as [freed w3] eqn:Hf. inv Hget. simpl.
  exists w2. now rewrite Hf.
Qed.

(** [addReadConflict] and [addReadConflictRange] reach no engine: on every
    client they leave the state of the service as it was. *)
Lemma addReadConflict_sends_nothing (tx : CustomTransaction.t) (k : bytes)
      (w : W) :
  snd (CustomTransaction.addReadConflict tx k w) = w
  /\ snd (fst (CustomTransaction.addReadConflict tx k w)) = tx.
Proof.
  unfold CustomTransaction.addReadConflict.
  destruct (CustomTransaction.finished tx); auto.
Qed.

Lemma addReadConflictRange_sends_nothing (tx : CustomTransaction.t)
      (b e : bytes) (w : W) :
  snd (CustomTransaction.addReadConflictRange tx b e w) = w
  /\ snd (fst (CustomTransaction.addReadConflictRange tx b e w)) = tx.
Proof.
  unfold CustomTransaction.addReadConflictRange.
  destruct (CustomTransaction.finished tx); auto.
Qed.

End Answers.

(** ** The sorted map *)

Module MemKvFacts.
Import MemKv.


Lemma compare_Eq (a b : bytes) : String_as_OT.compare a b = Eq -> a = b.
Proof.
  intros Hc. destruct (String_as_OT.compare_spec a b); congruence.
Qed.

Lemma compare_Gt (a b : bytes) :
  String_as_OT.compare a b = Gt -> String_as_OT.lt b a.
Proof.
  intros Hc. destruct (String_as_OT.compare_spec a b); congruence.
Qed.

Lemma lt_neq (a b : bytes) : String_as_OT.lt a b -> a <> b.
Proof.
  intros Hlt ->. eapply (StrictOrder_Irreflexive b); exact Hlt.
Qed.

Lemma key_ltb_lt (a b : bytes) : key_ltb a b = true <-> String_as_OT.lt a b.
Proof.
  unfold key_ltb, String_as_OT.lt.
  destruct (String_as_OT.compare a b); split; congruence.
Qed.

(** A write is read back, whatever the bytes of key and value. *)
Lemma lookup_upsert (k v : bytes) (s : Store) :
  lookup k (upsert k v s) = Some v.
Proof.
  induction s as [| [k' v'] r IH]; simpl.
  - now rewrite String.eqb_refl.
  - destruct (String_as_OT.compare k k') eqn:Hc; simpl.
    + now rewrite String.eqb_refl.
    + now rewrite String.eqb_refl.
    + apply compare_Gt, lt_neq in Hc.
      destruct (String.eqb_spec k k'); [congruence | exact IH].
Qed.

Lemma lookup_remove (k : bytes) (s : Store) : lookup k (remove k s) = None.
Proof.
  induction s as [| [k' v'] r IH]; simpl; auto.
  destruct (String.eqb_spec k k') as [-> | Hne]; simpl; auto.
  destruct (String.eqb_spec k k'); [congruence | exact IH].
Qed.

Lemma Forall_upsert (P : bytes * bytes -> Prop) (k v : bytes) (s : Store) :
  P (k, v) -> Forall P s -> Forall P (upsert k v s).
Proof.
  intros Hkv Hs. induction Hs as [| [k' v'] r Hp Hr IH]; simpl.
  - constructor; auto.
  - destruct (String_as_OT.compare k k'); repeat constructor; auto.
Qed.

Lemma Forall_remove (P : bytes * bytes -> Prop) (k : bytes) (s : Store) :
  Forall P s -> Forall P (remove k s).
Proof.
  intros Hs. induction Hs as [| [k' v'] r Hp Hr IH]; simpl; auto.
  destruct (k =? k')%string; auto.
Qed.

Lemma ascending_upsert (k v : bytes) (s : Store) :
  ascending s -> ascending (upsert k v s).
Proof.
  unfold ascending. intros Hs.
  induction Hs as [| [k' v'] r Hr IH Hall]; simpl.
  - repeat constructor.
  - destruct (String_as_OT.compare k k') eqn:Hc.
    + apply compare_Eq in Hc; subst k'. constructor; auto.
    + constructor; [constructor; auto |].
      assert (Hlt : String_as_OT.lt k k') by exact Hc.
      constructor; [simpl; now apply key_ltb_lt |].
      eapply Forall_impl; [| exact Hall]. simpl. intros [k2 v2] H2. simpl in *.
      apply key_ltb_lt. apply key_ltb_lt in H2.
      eapply (StrictOrder_Transitive k k' k2); eauto.
    + constructor; auto.
      apply Forall_upsert; auto. simpl.
      apply key_ltb_lt. now apply compare_Gt.
Qed.

Lemma ascending_remove (k : bytes) (s : Store) :
  ascending s -> ascending (remove k s).
Proof.
  unfold ascending. intros Hs.
  induction Hs as [| [k' v'] r Hr IH Hall]; simpl.
  - constructor.
  - destruct (k =? k')%string; auto.
    constructor; auto. now apply Forall_remove.
Qed.

(** The map of every version is in strictly ascending key order. *)
Lemma ascending_store_at (v : Z) (l : list LogEntry) : ascending (store_at v l).
Proof.
  unfold store_at.
  induction (filter (fun e => le_version e <=? v) l) as [| e r IH]; simpl.
  - constructor.
  - unfold apply. destruct (le_value e).
    + now apply ascending_upsert.
    + now apply ascending_remove.
Qed.

Lemma ascending_filter (f : bytes * bytes -> bool) (s : Store) :
  ascending s -> ascending (filter f s).
Proof.
  unfold ascending. intros Hs.
  induction Hs as [| p r Hr IH Hall]; simpl.
  - constructor.
  - destruct (f p); auto. constructor; auto.
    apply Forall_forall. intros q Hq. apply filter_In in Hq.
    eapply Forall_forall in Hall; [exact Hall | tauto].
Qed.

Lemma ascending_firstn (n : nat) (s : Store) :
  ascending s -> ascending (firstn n s).
Proof.
  unfold ascending. intros Hs. revert n.
  induction Hs as [| p r Hr IH Hall]; intros [| n]; simpl; try constructor; auto.
  apply Forall_forall. intros q Hq.
  eapply Forall_forall in Hall; [exact Hall |].
  rewrite <- (firstn_skipn n r). apply in_or_app; auto.
Qed.

(** A page is in key order, inside the range, and a prefix of it. *)
Lemma page_ascending (b : bytes) (bo : Z) (e : bytes) (eo limit : Z)
      (s : Store) :
  ascending s -> ascending (page b bo e eo limit s).
Proof.
  intros Hs. unfold page, range_of.
  now apply ascending_firstn, ascending_filter.
Qed.

Lemma page_in_range (b : bytes) (bo : Z) (e : bytes) (eo limit : Z)
      (s : Store) :
  Forall (fun p => in_range b bo e eo (fst p) = true /\ In p s)
         (page b bo e eo limit s).
Proof.
  unfold page, range_of. apply Forall_forall. intros p Hp.
  assert (Hin : In p (filter (fun p => in_range b bo e eo (fst p)) s)).
  { rewrite <- (firstn_skipn (Z.to_nat limit)). apply in_or_app; auto. }
  apply filter_In in Hin. tauto.
Qed.

Lemma page_length (b : bytes) (bo : Z) (e : bytes) (eo limit : Z) (s : Store) :
  0 <= limit -> count (page b bo e eo limit s) <= limit.
Proof.
  intros Hl. unfold count, page. rewrite length_firstn. lia.
Qed.

End MemKvFacts.

(** ** The adapter over the in-memory service *)

Module OnMemKv.
Import MemKv MemKvFacts.

Lemma assoc_cons_same {A} (h : handle) (a : A) (l : list (handle * A)) :
  assoc h ((h, a) :: l) = Some a.
Proof. simpl. now rewrite Nat.eqb_refl. Qed.

Lemma length_append (a b : bytes) :
  String.length (a ++ b) = (String.length a + String.length b)%nat.
Proof. induction a; simpl; auto. Qed.

Lemma substring_prefix (a b : bytes) : substring 0 (String.length a) (a ++ b) = a.
Proof.
  induction a as [| c a IH]; simpl.
  - now destruct b.
  - now rewrite IH.
Qed.

Lemma substring_all (a : bytes) : substring 0 (String.length a) a = a.
Proof. induction a as [| c a IH]; simpl; [reflexivity | now rewrite IH]. Qed.

(** A size below 2^31 is the [int] it is cast to. *)
Lemma int_of_size_t_small (n : Z) : 0 <= n < 2 ^ 31 -> int_of_size_t n = n.
Proof.
  intros Hn. unfold int_of_size_t.
  rewrite Z.mod_small by (split; [lia |]; apply Z.lt_trans with (2 ^ 31);
                          [lia | reflexivity]).
  destruct (Z.ltb_spec n (2 ^ 31)); [reflexivity | lia].
Qed.

(** The engine gets a byte string shorter than 2^31 bytes whole. *)
Lemma received_span (s : bytes) : fits s -> received (span s) = Some s.
Proof.
  unfold fits, received, span. intros Hs. simpl.
  rewrite int_of_size_t_small by lia.
  destruct (Z.leb_spec 0 (Z.of_nat (String.length s))); [| lia].
  rewrite Z.leb_refl, Nat2Z.id. simpl. now rewrite substring_all.
Qed.

Lemma big_endian_length (n : nat) (x : Z) : String.length (big_endian n x) = n.
Proof.
  revert x. induction n as [| n IH]; intros x; simpl; auto.
  rewrite length_append, IH. simpl. lia.
Qed.

(** A versionstamp is ten bytes long. *)
Lemma versionstamp_length (cv seq : Z) :
  String.length (versionstamp cv seq) = 10%nat.
Proof.
  unfold versionstamp. now rewrite length_append, !big_endian_length.
Qed.

(** The engine puts the stamp over the ten bytes the adapter appended. *)
Lemma stamp_value_buffer (cv seq : Z) (k prefix : bytes) :
  stamp cv seq (MVersionstampedValue k (CustomTransaction.resize_plus_10 prefix))
  = mkLogEntry cv k (Some (prefix ++ versionstamp cv seq)).
Proof.
  unfold stamp, CustomTransaction.resize_plus_10.
  rewrite length_append. simpl String.length.
  replace (String.length prefix + 10 - 10)%nat with (String.length prefix) by lia.
  now rewrite substring_prefix.
Qed.

Lemma stamp_all_app (cv seq : Z) (ws vs : list Mutation) :
  stamp_all cv seq (ws ++ vs)%list
  = (stamp_all cv seq ws
       ++ stamp_all cv (seq + Z.of_nat (List.length ws)) vs)%list.
Proof.
  revert seq. induction ws as [| a ws IH]; intros seq.
  - simpl. now rewrite Z.add_0_r.
  - cbn [app stamp_all List.length]. rewrite IH, Nat2Z.inj_succ.
    replace (seq + 1 + Z.of_nat (List.length ws))
      with (seq + Z.succ (Z.of_nat (List.length ws))) by lia.
    reflexivity.
Qed.


Lemma stamp_all_version (cv seq : Z) (ms : list Mutation) :
  Forall (fun e => le_version e = cv) (stamp_all cv seq ms).
Proof.
  revert seq. induction ms as [| m ms IH]; intros seq; simpl; constructor; auto.
  now destruct m.
Qed.

(** A transaction that read nothing conflicts with nothing. *)
Lemma conflicts_no_reads (rv : Z) (ws : list Mutation) (l : list LogEntry) :
  conflicts (mkTxState rv [] ws) l = false.
Proof.
  unfold conflicts. induction l as [| e l IH]; simpl; auto.
  now rewrite andb_false_r.
Qed.

(** Nor does a transaction whose read version no write is beyond. *)
Lemma conflicts_none (st : TxState) (l : list LogEntry) :
  Forall (fun e => le_version e <= tx_read_version st) l ->
  conflicts st l = false.
Proof.
  unfold conflicts. induction 1 as [| e l He Hl IH]; simpl; auto.
  rewrite IH, orb_false_r.
  destruct (Z.ltb_spec (tx_read_version st) (le_version e)); [lia | reflexivity].
Qed.

(** What [ensureTransaction] does on this service. *)
Lemma ensure_begins (tx : CustomTransaction.t) (c : handle) (w : World) :
  CustomTransaction.transaction_handle_ tx = None ->
  CustomTransaction.client_handle_ tx = Some c ->
  CustomTransaction.ensureTransaction tx w
  = (Ok (next_handle w),
     CustomTransaction.with_transaction_handle tx (Some (next_handle w)),
     mkWorld (commit_counter w) (log w)
             ((next_handle w, mkTxState (commit_counter w) [] []) :: txs w)
             (read_txs w) (S (next_handle w))).
Proof.
  unfold CustomTransaction.ensureTransaction. intros -> ->. reflexivity.
Qed.

Lemma ensure_keeps_log (tx tx' : CustomTransaction.t) (w w' : World)
      (r : Result handle) :
  CustomTransaction.ensureTransaction tx w = (r, tx', w') ->
  log w' = log w /\ commit_counter w' = commit_counter w.
Proof.
  unfold CustomTransaction.ensureTransaction. intros Hens.
  repeat break_match_hyp; inv Hens; auto; simpl in *;
    unfold transaction_begin in *;
    match goal with Hb : (_, _) = (_, _) |- _ => inv Hb end; auto.
Qed.

(** A write to another key, or a clear of it, is not seen at [k]. *)
Lemma lookup_upsert_other (k k' v : bytes) (s : Store) :
  k <> k' -> lookup k (upsert k' v s) = lookup k s.
Proof.
  intros Hne. induction s as [| [k2 v2] r IH]; simpl.
  - destruct (String.eqb_spec k k'); [congruence | reflexivity].
  - destruct (String_as_OT.compare k' k2) eqn:Hc; simpl.
    + apply compare_Eq in Hc. subst k2.
      destruct (String.eqb_spec k k'); [congruence | reflexivity].
    + destruct (String.eqb_spec k k'); [congruence | reflexivity].
    + destruct (String.eqb_spec k k2); [reflexivity | exact IH].
Qed.

Lemma lookup_remove_other (k k' : bytes) (s : Store) :
  k <> k' -> lookup k (remove k' s) = lookup k s.
Proof.
  intros Hne. induction s as [| [k2 v2] r IH]; simpl; auto.
  destruct (String.eqb_spec k' k2) as [-> | Hne2]; simpl.
  - destruct (String.eqb_spec k k2); [congruence | exact IH].
  - destruct (String.eqb_spec k k2); [reflexivity | exact IH].
Qed.

Lemma lookup_apply_other (k : bytes) (e : LogEntry) (s : Store) :
  le_key e <> k -> lookup k (apply e s) = lookup k s.
Proof.
  intros Hne. unfold apply. destruct (le_value e).
  - apply lookup_upsert_other. congruence.
  - apply lookup_remove_other. congruence.
Qed.

Lemma lookup_apply_same (e : LogEntry) (s : Store) :
  lookup (le_key e) (apply e s) = le_value e.
Proof.
  unfold apply. destruct (le_value e).
  - apply lookup_upsert.
  - apply lookup_remove.
Qed.

Lemma store_at_head (v : Z) (e : LogEntry) (l : list LogEntry) :
  le_version e <= v -> store_at v (e :: l) = apply e (store_at v l).
Proof.
  intros Hle. unfold store_at. simpl.
  destruct (Z.leb_spec (le_version e) v); [reflexivity | lia].
Qed.

(** The newest write to [k] in the log is what is read at [k]. *)
Lemma lookup_through (v : Z) (k : bytes) (later : list LogEntry)
      (e : LogEntry) (rest : list LogEntry) :
  Forall (fun e' => le_version e' <= v /\ le_key e' <> k) later ->
  le_version e <= v -> le_key e = k ->
  lookup k (store_at v (later ++ e :: rest)) = le_value e.
Proof.
  intros Hlater Hv Hk. induction Hlater as [| e' later [Hv' Hk'] _ IH]; simpl.
  - rewrite store_at_head by exact Hv. subst k. apply lookup_apply_same.
  - rewrite store_at_head by exact Hv'. now rewrite lookup_apply_other.
Qed.

Lemma length_string_of_list_ascii (l : list ascii) :
  String.length (string_of_list_ascii l) = List.length l.
Proof. induction l; simpl; auto. Qed.

Lemma length_String (c : ascii) (s : bytes) :
  String.length (String c s) = S (String.length s).
Proof. reflexivity. Qed.

Lemma substring_0_0 (s : bytes) : substring 0 0 s = "".
Proof. now destruct s. Qed.

Lemma substring_0_S (n : nat) (c : ascii) (s : bytes) :
  substring 0 (S n) (String c s) = String c (substring 0 n s).
Proof. reflexivity. Qed.

(** The key of 2^32 + 1 bytes. *)
Lemma long_key_length :
  Z.of_nat (String.length Scenarios.long_key) = 2 ^ 32 + 1.
Proof.
  unfold Scenarios.long_key, Scenarios.four_gib.
  rewrite length_String, length_string_of_list_ascii, repeat_length.
  rewrite Nat2Z.inj_succ, Z2Nat.id by (apply Z.pow_nonneg; lia). reflexivity.
Qed.

(** Its size, cast to [int], is 1. *)
Lemma long_key_span : span Scenarios.long_key = mkSpan Scenarios.long_key 1.
Proof. unfold span. now rewrite long_key_length. Qed.

(** The engine is given its first byte. *)
Lemma long_key_received : received (span Scenarios.long_key) = Some "k".
Proof.
  rewrite long_key_span. unfold received. cbn [span_length span_data].
  rewrite long_key_length.
  replace (0 <=? 1) with true by reflexivity.
  replace (1 <=? 2 ^ 32 + 1) with true by reflexivity.
  cbn [andb]. replace (Z.to_nat 1) with 1%nat by reflexivity.
  unfold Scenarios.long_key. rewrite substring_0_S. now rewrite substring_0_0.
Qed.

End OnMemKv.
(** ** What a request does to the engine *)

Module StepFacts.
Import MemKv OnMemKvState.

Lemma assoc_drop_other {A} (h h' : handle) (l : list (handle * A)) :
  h <> h' -> assoc h (drop h' l) = assoc h l.
Proof.
  intros Hne. induction l as [| [h2 a] l IH]; simpl; auto.
  destruct (Nat.eqb_spec h' h2) as [-> | Hne2]; simpl.
  - destruct (Nat.eqb_spec h h2); [congruence | exact IH].
  - now rewrite IH.
Qed.

Lemma assoc_drop_same {A} (h : handle) (l : list (handle * A)) :
  assoc h (drop h l) = None.
Proof.
  induction l as [| [h2 a] l IH]; simpl; auto.
  destruct (Nat.eqb_spec h h2) as [-> | Hne]; simpl; auto.
  destruct (Nat.eqb_spec h h2); [congruence | exact IH].
Qed.

Lemma assoc_drop_some {A} (h h' : handle) (l : list (handle * A)) (a : A) :
  assoc h (drop h' l) = Some a -> assoc h l = Some a.
Proof.
  destruct (Nat.eq_dec h h') as [-> | Hne].
  - now rewrite assoc_drop_same.
  - now rewrite assoc_drop_other.
Qed.


Lemma untouched_refl (w : World) : untouched w w.
Proof. unfold untouched. auto. Qed.

#[local] Hint Resolve untouched_refl : core.

Lemma read_begin_untouched (v : Z) (w : World) :
  untouched w (snd (read_transaction_begin v w)).
Proof. unfold untouched. simpl. auto. Qed.

Lemma read_get_untouched (h : handle) (k : Span) (w : World) :
  snd (read_transaction_get h k w) = w.
Proof.
  unfold read_transaction_get. destruct (received k); auto.
  destruct (assoc h (read_txs w)); auto.
Qed.

Lemma read_get_range_untouched (h : handle) (b e : Span)
      (bf bo ef eo limit : Z) (w : World) :
  snd (read_transaction_get_range h b e bf bo ef eo limit w) = w.
Proof.
  unfold read_transaction_get_range.
  destruct (received b); auto. destruct (received e); auto.
  destruct (assoc h (read_txs w)); auto.
Qed.

Lemma read_destroy_untouched (h : handle) (w : World) :
  untouched w (read_transaction_destroy h w).
Proof. unfold untouched. simpl. auto. Qed.

Lemma begin_began (t : Z) (w : World) :
  began w (snd (transaction_begin t w)).
Proof. reflexivity. Qed.

Lemma get_noted (h : handle) (k : Span) (w : World) :
  untouched w (snd (transaction_get h k w))
  \/ noted h w (snd (transaction_get h k w)).
Proof.
  unfold transaction_get. destruct (received k); auto.
  destruct (assoc h (txs w)) as [st |] eqn:Ha; auto.
  right. exists st. eexists. simpl. split; [exact Ha |].
  split; [reflexivity |]. simpl. auto.
Qed.

Lemma get_range_noted (h : handle) (b e : Span) (bf bo ef eo limit : Z)
      (w : World) :
  untouched w (snd (transaction_get_range h b e bf bo ef eo limit w))
  \/ noted h w (snd (transaction_get_range h b e bf bo ef eo limit w)).
Proof.
  unfold transaction_get_range.
  destruct (received b); auto. destruct (received e); auto.
  destruct (assoc h (txs w)) as [st |] eqn:Ha; auto.
  right. exists st. eexists. simpl. split; [exact Ha |].
  split; [reflexivity |]. simpl. auto.
Qed.

(** A write is refused and changes nothing, or is buffered as the next one
    of its transaction. *)
Lemma buffer_write_spec (h : handle) (m : Mutation) (w : World) :
  (success (fst (buffer_write h m w)) = false /\ snd (buffer_write h m w) = w)
  \/ (fst (buffer_write h m w) = ok
      /\ exists st,
          assoc h (txs w) = Some st
          /\ Z.of_nat (List.length (tx_writes st)) < 2 ^ 16
          /\ snd (buffer_write h m w)
             = with_txs w ((h, mkTxState (tx_read_version st) (tx_reads st)
                                         (tx_writes st ++ [m]))
                             :: drop h (txs w))).
Proof.
  unfold buffer_write. destruct (assoc h (txs w)) as [st |] eqn:Ha; auto.
  destruct (Z.ltb_spec (Z.of_nat (List.length (tx_writes st))) (2 ^ 16)); auto.
  right. split; [reflexivity |]. exists st. auto.
Qed.

Lemma buffer_write_noted (h : handle) (m : Mutation) (w : World) :
  untouched w (snd (buffer_write h m w))
  \/ noted h w (snd (buffer_write h m w)).
Proof.
  destruct (buffer_write_spec h m w) as [(_ & ->) | (_ & st & Ha & Hlen & ->)];
    auto.
  right. exists st. eexists. split; [exact Ha |]. split; [reflexivity |].
  simpl. split; [reflexivity |]. right. eauto.
Qed.

Lemma set_noted (h : handle) (k v : Span) (w : World) :
  untouched w (snd (transaction_set h k v w))
  \/ noted h w (snd (transaction_set h k v w)).
Proof.
  unfold transaction_set. destruct (received k); auto.
  destruct (received v); auto. apply buffer_write_noted.
Qed.

Lemma delete_noted (h : handle) (k : Span) (w : World) :
  untouched w (snd (transaction_delete h k w))
  \/ noted h w (snd (transaction_delete h k w)).
Proof.
  unfold transaction_delete. destruct (received k); auto.
  apply buffer_write_noted.
Qed.

Lemma function_result_snd (rw : KvResult * World) :
  snd (function_result rw) = snd rw.
Proof. unfold function_result. now destruct (success (fst rw)). Qed.

Lemma set_versionstamped_key_noted (h : handle) (k v : Span) (w : World) :
  untouched w (snd (transaction_set_versionstamped_key h k v w))
  \/ noted h w (snd (transaction_set_versionstamped_key h k v w)).
Proof.
  unfold transaction_set_versionstamped_key. destruct (received k); auto.
  destruct (received v); auto. rewrite function_result_snd.
  apply buffer_write_noted.
Qed.

Lemma set_versionstamped_value_noted (h : handle) (k v : Span) (w : World) :
  untouched w (snd (transaction_set_versionstamped_value h k v w))
  \/ noted h w (snd (transaction_set_versionstamped_value h k v w)).
Proof.
  unfold transaction_set_versionstamped_value. destruct (received k); auto.
  destruct (received v); auto.
  destruct (_ <? 10)%nat; auto.
  rewrite function_result_snd. apply buffer_write_noted.
Qed.

(** The three ends of a commit request. *)
Lemma commit_spec (h : handle) (w : World) :
  (success (fst (transaction_commit h w)) = false
   /\ error_code (fst (transaction_commit h w)) <> KV_ERROR_TRANSACTION_CONFLICT
   /\ snd (transaction_commit h w) = w)
  \/ (success (fst (transaction_commit h w)) = false
      /\ commit_counter w + 1 < 2 ^ 64
      /\ ended h w (snd (transaction_commit h w)))
  \/ (fst (transaction_commit h w) = ok
      /\ accepted h w (snd (transaction_commit h w))).
Proof.
  unfold transaction_commit.
  destruct (assoc h (txs w)) as [st |] eqn:Ha;
    [| left; simpl; repeat split; auto; discriminate].
  destruct (Z.leb_spec (2 ^ 64) (commit_counter w + 1));
    [left; simpl; repeat split; auto; discriminate |].
  destruct (conflicts st (log w)) eqn:Hc.
  - right. left. simpl. repeat split; auto.
  - right. right. split; [reflexivity |]. exists st. auto.
Qed.

Lemma abort_ended (h : handle) (w : World) :
  untouched w (snd (transaction_abort h w))
  \/ ended h w (snd (transaction_abort h w)).
Proof.
  unfold transaction_abort. destruct (assoc h (txs w)); auto.
  right. reflexivity.
Qed.

(** Every request moves the engine in one of five ways. *)
Lemma serve_shape (q : Spy.Request) (w : World) :
  untouched w (Shared.serve q w)
  \/ began w (Shared.serve q w)
  \/ exists h,
      Shared.names q = Some h
      /\ (noted h w (Shared.serve q w)
          \/ ended h w (Shared.serve q w)
          \/ accepted h w (Shared.serve q w)).
Proof.
  destruct q; simpl.
  - left. apply read_begin_untouched.
  - left. rewrite read_get_untouched. auto.
  - left. rewrite read_get_range_untouched. auto.
  - left. apply read_destroy_untouched.
  - right. left. apply (begin_began timeout_seconds).
  - destruct (get_noted h k w) as [Hu | Hn];
      [left; exact Hu | right; right; exists h; auto].
  - destruct (get_range_noted h b e b_offset b_or_equal e_offset e_or_equal
                              limit w) as [Hu | Hn];
      [left; exact Hu | right; right; exists h; auto].
  - destruct (set_noted h k v w) as [Hu | Hn];
      [left; exact Hu | right; right; exists h; auto].
  - destruct (delete_noted h k w) as [Hu | Hn];
      [left; exact Hu | right; right; exists h; auto].
  - destruct (set_versionstamped_key_noted h k v w) as [Hu | Hn];
      [left; exact Hu | right; right; exists h; auto].
  - destruct (set_versionstamped_value_noted h k buffer w) as [Hu | Hn];
      [left; exact Hu | right; right; exists h; auto].
  - destruct (commit_spec h w) as [(_ & _ & ->) | [(_ & _ & He) | (_ & Ha)]];
      [left; auto | right; right; exists h; auto ..].
  - destruct (abort_ended h w) as [Hu | Hn];
      [left; exact Hu | right; right; exists h; auto].
Qed.

End StepFacts.
(** ** What a call does to the engine *)

Module CallFacts.
Import MemKv OnMemKvState StepFacts.

#[local] Hint Resolve untouched_refl : core.

Lemma ensure_shape (tx tx1 : CustomTransaction.t) (w w1 : World)
      (r : Result handle) :
  CustomTransaction.ensureTransaction tx w = (r, tx1, w1) ->
  CustomTransaction.finished tx1 = CustomTransaction.finished tx
  /\ CustomTransaction.client_handle_ tx1 = CustomTransaction.client_handle_ tx
  /\ (forall h, r = Ok h -> CustomTransaction.transaction_handle_ tx1 = Some h)
  /\ ((CustomTransaction.transaction_handle_ tx1
       = CustomTransaction.transaction_handle_ tx /\ w1 = w)
      \/ (CustomTransaction.transaction_handle_ tx = None
          /\ CustomTransaction.transaction_handle_ tx1 = Some (next_handle w)
          /\ began w w1)).
Proof.
  unfold CustomTransaction.ensureTransaction. intros Hens.
  destruct (CustomTransaction.transaction_handle_ tx) as [h |] eqn:Hh.
  { inv Hens. repeat split; auto. intros h' Hr. now inv Hr. }
  destruct (CustomTransaction.client_handle_ tx) as [c |] eqn:Hc.
  - simpl in Hens. inv Hens. simpl. repeat split; auto.
    + intros h' Hr. now inv Hr.
    + right. repeat split.
  - inv Hens. repeat split; auto. discriminate.
Qed.

Lemma shape_same (tx : CustomTransaction.t) (w : World) : stepped tx tx w w.
Proof.
  unfold stepped. split; [reflexivity |]. split; [reflexivity |].
  exists w. auto.
Qed.

Lemma shape_after_ensure (tx tx1 : CustomTransaction.t) (w w1 w' : World)
      (r : Result handle) :
  CustomTransaction.ensureTransaction tx w = (r, tx1, w1) ->
  (untouched w1 w' \/ exists h, r = Ok h /\ noted h w1 w') ->
  stepped tx tx1 w w'.
Proof.
  intros Hens Hw. destruct (ensure_shape _ _ _ _ _ Hens) as (Hf & Hc & Hh & Hb).
  unfold stepped. split; [exact Hf |]. split; [exact Hc |].
  exists w1. split; [exact Hb |].
  destruct Hw as [Hu | (h & -> & Hn)]; eauto.
Qed.

Ltac after_ensure Hcall :=
  match type of Hcall with
  | context [CustomTransaction.ensureTransaction ?tx ?w] =>
    let Hens := fresh "Hens" in
    destruct (CustomTransaction.ensureTransaction tx w)
      as [[[?h | ?c ?m] ?tx1] ?w1] eqn:Hens;
    [| inv Hcall; eapply shape_after_ensure; [exact Hens | auto]]
  end.

Lemma getRange_shape (tx tx' : CustomTransaction.t) (b e : KeySelector)
      (limit : Z) (w w' : World) (r : Result GetRangeResult) :
  CustomTransaction.getRange tx b e limit w = (r, tx', w') ->
  stepped tx tx' w w'.
Proof.
  intros Hcall. unfold CustomTransaction.getRange in Hcall.
  destruct (CustomTransaction.finished tx); [inv Hcall; apply shape_same |].
  after_ensure Hcall.
  cbn [kv_transaction_get_range kv_pair_array_free client pair_array_free]
    in Hcall.
  match type of Hcall with
  | context [transaction_get_range ?h ?b ?e ?bf ?bo ?ef ?eo ?l ?x] =>
    pose proof (get_range_noted h b e bf bo ef eo l x) as Hw;
      destruct (transaction_get_range h b e bf bo ef eo l x) as [[kr pa] w2]
  end.
  assert (tx' = tx1 /\ w' = w2) as (-> & ->)
      by (destruct (success kr); now inv Hcall).
  eapply shape_after_ensure; [exact Hens |]. simpl in Hw.
  destruct Hw; eauto.
Qed.

Lemma call_shape (c : Calls.RwCall) (tx tx' : CustomTransaction.t)
      (w w' : World) (r : Calls.Reply) :
  Calls.rw_ends c = false ->
  Calls.rw_call c tx w = (r, tx', w') ->
  stepped tx tx' w w'.
Proof.
  intros Hends Hcall. destruct c; try discriminate Hends; cbn [Calls.rw_call] in Hcall.
  - (* setReadVersion *)
    inv Hcall. unfold stepped. simpl.
    split; [reflexivity |]. split; [reflexivity |]. exists w'. auto.
  - (* snapshotGet *)
    unfold CustomTransaction.snapshotGet in Hcall.
    destruct (CustomTransaction.finished tx); [inv Hcall; apply shape_same |].
    destruct (CustomTransaction.client_handle_ tx);
      [| inv Hcall; apply shape_same].
    cbn [kv_read_transaction_begin kv_read_transaction_get
         kv_read_transaction_destroy client read_transaction_begin] in Hcall.
    match type of Hcall with
    | context [read_transaction_get ?h ?k ?x] =>
      pose proof (read_get_untouched h k x) as Hw;
        destruct (read_transaction_get h k x) as [[kr v] w2]
    end.
    simpl in Hw. subst w2.
    assert (Hw' : untouched w w').
    { destruct (success kr); destruct (data v); inv Hcall;
        unfold untouched; simpl; auto. }
    assert (tx' = tx) as ->
        by (destruct (success kr); destruct (data v); now inv Hcall).
    unfold stepped.
    split; [reflexivity |]. split; [reflexivity |]. exists w. auto.
  - (* get *)
    unfold CustomTransaction.get in Hcall.
    destruct (CustomTransaction.finished tx); [inv Hcall; apply shape_same |].
    after_ensure Hcall.
    cbn [kv_transaction_get client] in Hcall.
    pose proof (get_noted h (span k) w1) as Hw.
    destruct (transaction_get h (span k) w1) as [[kr v] w2].
    assert (tx' = tx1 /\ w' = w2) as (-> & ->)
        by (destruct (success kr); destruct (data v); now inv Hcall).
    eapply shape_after_ensure; [exact Hens |]. simpl in Hw.
    destruct Hw; eauto.
  - (* snapshotGetRange *)
    unfold CustomTransaction.snapshotGetRange in Hcall.
    destruct (CustomTransaction.getRange _ _ _ _ _)
      as [[r0 tx0] w0] eqn:Hget. inv Hcall.
    eapply getRange_shape. exact Hget.
  - (* getRange *)
    destruct (CustomTransaction.getRange _ _ _ _ _)
      as [[r0 tx0] w0] eqn:Hget. inv Hcall.
    eapply getRange_shape. exact Hget.
  - (* addReadConflict *)
    unfold CustomTransaction.addReadConflict in Hcall.
    destruct (CustomTransaction.finished tx); inv Hcall; apply shape_same.
  - (* addReadConflictRange *)
    unfold CustomTransaction.addReadConflictRange in Hcall.
    destruct (CustomTransaction.finished tx); inv Hcall; apply shape_same.
  - (* set *)
    unfold CustomTransaction.set in Hcall.
    destruct (CustomTransaction.finished tx); [inv Hcall; apply shape_same |].
    after_ensure Hcall.
    cbn [kv_transaction_set client] in Hcall.
    pose proof (set_noted h (span k) (span value) w1) as Hw.
    destruct (transaction_set h (span k) (span value) w1) as [kr w2].
    assert (tx' = tx1 /\ w' = w2) as (-> & ->)
        by (destruct (success kr); now inv Hcall).
    eapply shape_after_ensure; [exact Hens |]. simpl in Hw.
    destruct Hw; eauto.
  - (* clear *)
    unfold CustomTransaction.clear in Hcall.
    destruct (CustomTransaction.finished tx); [inv Hcall; apply shape_same |].
    after_ensure Hcall.
    cbn [kv_transaction_delete client] in Hcall.
    pose proof (delete_noted h (span k) w1) as Hw.
    destruct (transaction_delete h (span k) w1) as [kr w2].
    assert (tx' = tx1 /\ w' = w2) as (-> & ->)
        by (destruct (success kr); now inv Hcall).
    eapply shape_after_ensure; [exact Hens |]. simpl in Hw.
    destruct Hw; eauto.
  - (* setVersionstampedKey *)
    unfold CustomTransaction.setVersionstampedKey in Hcall.
    destruct (CustomTransaction.finished tx); [inv Hcall; apply shape_same |].
    after_ensure Hcall.
    destruct (k =? "")%string;
      [inv Hcall; eapply shape_after_ensure; [exact Hens | auto] |].
    cbn [kv_transaction_set_versionstamped_key client] in Hcall.
    pose proof (set_versionstamped_key_noted h (span k) (span value) w1) as Hw.
    destruct (transaction_set_versionstamped_key h (span k) (span value) w1)
      as [kr w2].
    assert (tx' = tx1 /\ w' = w2) as (-> & ->) by (destruct kr; now inv Hcall).
    eapply shape_after_ensure; [exact Hens |]. simpl in Hw.
    destruct Hw; eauto.
  - (* setVersionstampedValue *)
    unfold CustomTransaction.setVersionstampedValue in Hcall.
    destruct (CustomTransaction.finished tx); [inv Hcall; apply shape_same |].
    after_ensure Hcall.
    destruct (k =? "")%string;
      [inv Hcall; eapply shape_after_ensure; [exact Hens | auto] |].
    cbn [kv_transaction_set_versionstamped_value client] in Hcall.
    pose proof (set_versionstamped_value_noted
                  h (span k) (span (CustomTransaction.resize_plus_10 value)) w1)
      as Hw.
    destruct (transaction_set_versionstamped_value
                h (span k) (span (CustomTransaction.resize_plus_10 value)) w1)
      as [kr w2].
    assert (tx' = tx1 /\ w' = w2) as (-> & ->) by (destruct kr; now inv Hcall).
    eapply shape_after_ensure; [exact Hens |]. simpl in Hw.
    destruct Hw; eauto.
Qed.

End CallFacts.
(** ** A transaction among other clients *)

Module SharedFacts.
Import MemKv OnMemKvState StepFacts CallFacts.

Lemma below_untouched (w w' : World) :
  untouched w w' -> handles_below w -> handles_below w'.
Proof.
  intros (Ht & _ & _ & Hn) Hb h st Ha. rewrite Ht in Ha.
  specialize (Hb h st Ha). lia.
Qed.

Lemma below_began (w w' : World) :
  began w w' -> handles_below w -> handles_below w'.
Proof.
  intros -> Hb h st. simpl.
  destruct (Nat.eqb_spec h (next_handle w)) as [-> | Hne]; [lia |].
  intros Ha. specialize (Hb h st Ha). lia.
Qed.

Lemma below_noted (h0 : handle) (w w' : World) :
  noted h0 w w' -> handles_below w -> handles_below w'.
Proof.
  intros (st0 & st' & Ha0 & -> & _) Hb h st. simpl.
  destruct (Nat.eqb_spec h h0) as [-> | Hne]; intros Ha.
  - exact (Hb h0 st0 Ha0).
  - apply assoc_drop_some in Ha. exact (Hb h st Ha).
Qed.

Lemma below_ended (h0 : handle) (w w' : World) :
  ended h0 w w' -> handles_below w -> handles_below w'.
Proof.
  intros -> Hb h st. simpl. intros Ha.
  apply assoc_drop_some in Ha. exact (Hb h st Ha).
Qed.

Lemma below_accepted (h0 : handle) (w w' : World) :
  accepted h0 w w' -> handles_below w -> handles_below w'.
Proof.
  intros (st0 & _ & _ & _ & ->) Hb h st. simpl. intros Ha.
  apply assoc_drop_some in Ha. exact (Hb h st Ha).
Qed.

Lemma below_serve (q : Spy.Request) (w : World) :
  handles_below w -> handles_below (Shared.serve q w).
Proof.
  destruct (serve_shape q w) as [Hu | [Hb | (h & _ & [Hn | [He | Ha]])]].
  - now apply below_untouched.
  - now apply below_began.
  - now apply (below_noted h).
  - now apply (below_ended h).
  - now apply (below_accepted h).
Qed.

Lemma below_stepped (tx tx' : CustomTransaction.t) (w w' : World) :
  stepped tx tx' w w' -> handles_below w -> handles_below w'.
Proof.
  intros (_ & _ & w1 & Hb & Hw) Hbelow.
  assert (Hbelow1 : handles_below w1).
  { destruct Hb as [(_ & ->) | (_ & _ & Hb)]; [exact Hbelow |].
    now apply (below_began w). }
  destruct Hw as [Hu | (h & _ & Hn)].
  - now apply (below_untouched w1).
  - now apply (below_noted h w1).
Qed.

(** A request that names another handle leaves an engine transaction as it
    is. *)
Lemma serve_keeps (h : handle) (q : Spy.Request) (w : World) :
  (h < next_handle w)%nat -> Shared.names q <> Some h ->
  assoc h (txs (Shared.serve q w)) = assoc h (txs w).
Proof.
  intros Hlt Hq.
  destruct (serve_shape q w) as [Hu | [Hb | (h' & Hn' & Hm)]].
  - destruct Hu as (-> & _). reflexivity.
  - rewrite Hb. simpl.
    destruct (Nat.eqb_spec h (next_handle w)); [lia | reflexivity].
  - assert (Hne : h <> h') by congruence.
    destruct Hm as [(st & st' & _ & -> & _) | [-> | (st & _ & _ & _ & ->)]];
      simpl.
    + destruct (Nat.eqb_spec h h'); [congruence |].
      now apply assoc_drop_other.
    + now apply assoc_drop_other.
    + now apply assoc_drop_other.
Qed.

Lemma attached_fresh (c : option handle) :
  attached [] (CustomTransaction.create c) empty.
Proof.
  unfold attached. simpl. repeat split. intros h st Ha. discriminate Ha.
Qed.

(** The requests of the others leave the writes of the transaction as they
    are. *)
Lemma attached_other (ws : list Mutation) (tx : CustomTransaction.t)
      (q : Spy.Request) (w : World) :
  attached ws tx w -> Shared.intrudes q tx = false ->
  attached ws tx (Shared.serve q w).
Proof.
  intros (Hfin & Hb & Hh) Hq. unfold attached.
  split; [exact Hfin |]. split; [now apply below_serve |].
  unfold Shared.intrudes in Hq.
  destruct (CustomTransaction.transaction_handle_ tx) as [h |]; [| exact Hh].
  destruct Hh as (st & Ha & Hws). exists st. split; [| exact Hws].
  rewrite serve_keeps; [exact Ha | exact (Hb h st Ha) |].
  intros Hn. rewrite Hn in Hq. now rewrite Nat.eqb_refl in Hq.
Qed.

(** A call that does not end the transaction leaves its writes as they are
    or adds to them. *)
Lemma attached_stepped (ws : list Mutation) (tx tx' : CustomTransaction.t)
      (w w' : World) :
  attached ws tx w -> stepped tx tx' w w' ->
  exists more, attached (ws ++ more)%list tx' w'.
Proof.
  intros Hatt Hstep. pose proof Hatt as (Hfin & Hb & Hh).
  pose proof (below_stepped _ _ _ _ Hstep Hb) as Hb'.
  destruct Hstep as (Hf & _ & w1 & Hbeg & Hw).
  assert (Hh1 : match CustomTransaction.transaction_handle_ tx' with
                | Some h => exists st, assoc h (txs w1) = Some st
                                       /\ tx_writes st = ws
                | None => ws = []
                end).
  { destruct Hbeg as [(-> & ->) | (Hnone & -> & ->)]; [exact Hh |].
    rewrite Hnone in Hh. subst ws. simpl. rewrite Nat.eqb_refl. eauto. }
  unfold attached. rewrite Hf.
  destruct Hw as [(Ht & _) | (h & Hh' & st & st' & Ha & -> & _ & Hws)].
  - exists []. rewrite app_nil_r, Ht. auto.
  - rewrite Hh' in *. destruct Hh1 as (st1 & Ha1 & Hws1).
    rewrite Ha in Ha1. inv Ha1.
    destruct Hws as [Hws | (m & Hws & _)].
    + exists []. rewrite app_nil_r. repeat split; auto.
      exists st'. simpl. now rewrite Nat.eqb_refl.
    + exists [m]. repeat split; auto.
      exists st'. simpl. now rewrite Nat.eqb_refl.
Qed.

(** Through the calls of the transaction and the requests of the others,
    the writes of the transaction are those made so far. *)
Lemma attached_play (es : list Shared.Event) (ws : list Mutation)
      (tx tx' : CustomTransaction.t) (w w' : World) :
  attached ws tx w -> Shared.calm es = true ->
  Shared.play es tx w = Some (tx', w') ->
  exists more, attached (ws ++ more)%list tx' w'.
Proof.
  revert ws tx w. induction es as [| [c | q] es IH]; intros ws tx w Hatt Hcalm Hp.
  - inv Hp. exists []. now rewrite app_nil_r.
  - simpl in Hcalm. apply andb_true_iff in Hcalm. destruct Hcalm as (Hc & Hcalm).
    apply negb_true_iff in Hc. simpl in Hp.
    destruct (Calls.rw_call c tx w) as [[r tx1] w1] eqn:Hcall.
    destruct (attached_stepped ws tx tx1 w w1 Hatt (call_shape _ _ _ _ _ _ Hc Hcall))
      as (m1 & Hatt1).
    destruct (IH _ _ _ Hatt1 Hcalm Hp) as (m2 & Hatt2).
    exists (m1 ++ m2)%list. now rewrite app_assoc.
  - simpl in Hcalm, Hp.
    destruct (Shared.intrudes q tx) eqn:Hq; [discriminate |].
    apply (IH ws tx (Shared.serve q w)); auto. now apply attached_other.
Qed.

End SharedFacts.
(** ** Writes and commit of an attached transaction *)

Module WriteFacts.
Import MemKv OnMemKvState StepFacts CallFacts SharedFacts.

Lemma attached_ensure (ws : list Mutation) (tx tx1 : CustomTransaction.t)
      (w w1 : World) (h : handle) :
  attached ws tx w ->
  CustomTransaction.ensureTransaction tx w = (Ok h, tx1, w1) ->
  attached ws tx1 w1
  /\ CustomTransaction.transaction_handle_ tx1 = Some h
  /\ log w1 = log w /\ commit_counter w1 = commit_counter w
  /\ exists st, assoc h (txs w1) = Some st /\ tx_writes st = ws.
Proof.
  intros (Hfin & Hb & Hh) Hens.
  destruct (OnMemKv.ensure_keeps_log _ _ _ _ _ Hens) as (Hl & Hc).
  destruct (ensure_shape _ _ _ _ _ Hens) as (Hf & _ & Hok & Hbeg).
  specialize (Hok h eq_refl).
  assert (Hatt : attached ws tx1 w1).
  { unfold attached. rewrite Hf. split; [exact Hfin |].
    destruct Hbeg as [(-> & ->) | (Hnone & -> & Hbeg)]; [auto |].
    split; [now apply (below_began w) |].
    rewrite Hnone in Hh. subst ws. rewrite Hbeg. simpl.
    rewrite Nat.eqb_refl. eauto. }
  split; [exact Hatt |]. split; [exact Hok |]. split; [exact Hl |].
  split; [exact Hc |].
  destruct Hatt as (_ & _ & Hh1). now rewrite Hok in Hh1.
Qed.

(** A write the engine takes is the next write of the transaction. *)
Lemma attached_write (ws : list Mutation) (tx : CustomTransaction.t)
      (w : World) (h : handle) (m : Mutation) :
  attached ws tx w -> CustomTransaction.transaction_handle_ tx = Some h ->
  success (fst (buffer_write h m w)) = true ->
  attached (ws ++ [m])%list tx (snd (buffer_write h m w))
  /\ Z.of_nat (List.length ws) < 2 ^ 16.
Proof.
  intros Hatt Hh Hs. pose proof Hatt as (Hfin & Hb & Hws). rewrite Hh in Hws.
  destruct Hws as (st & Ha & Hws).
  destruct (buffer_write_spec h m w)
    as [(Hf & _) | (_ & st' & Ha' & Hlen & Hw)]; [congruence |].
  rewrite Ha in Ha'. inv Ha'. split; [| exact Hlen].
  rewrite Hw. unfold attached. split; [exact Hfin |].
  split.
  - apply (below_noted h w); [| exact Hb].
    exists st'. eexists. split; [exact Ha |]. split; [reflexivity |].
    simpl. eauto.
  - rewrite Hh. eexists. simpl. rewrite Nat.eqb_refl. split; reflexivity.
Qed.

Lemma function_result_success (rw : KvResult * World) :
  fst (function_result rw) = KV_FUNCTION_SUCCESS -> success (fst rw) = true.
Proof.
  unfold function_result. destruct (success (fst rw)); [auto | discriminate].
Qed.

Lemma resize_plus_10_length (v : bytes) :
  String.length (CustomTransaction.resize_plus_10 v)
  = (String.length v + 10)%nat.
Proof.
  unfold CustomTransaction.resize_plus_10. now rewrite OnMemKv.length_append.
Qed.

(** A successful [setVersionstampedValue] is the next write of the
    transaction: the key, and the value with ten more bytes. *)
Lemma attached_versionstamped_value (ws : list Mutation)
      (tx tx' : CustomTransaction.t) (k v : bytes) (offset : Z) (w w' : World) :
  attached ws tx w -> fits k -> fits (CustomTransaction.resize_plus_10 v) ->
  CustomTransaction.setVersionstampedValue tx k v offset w = (Ok tt, tx', w') ->
  attached (ws ++ [MVersionstampedValue
                     k (CustomTransaction.resize_plus_10 v)])%list tx' w'
  /\ Z.of_nat (List.length ws) < 2 ^ 16.
Proof.
  intros Hatt Hk Hv Hcall. pose proof Hatt as (Hfin & _).
  unfold CustomTransaction.setVersionstampedValue in Hcall.
  rewrite Hfin in Hcall.
  destruct (CustomTransaction.ensureTransaction tx w)
    as [[[h | c m] tx1] w1] eqn:Hens; [| discriminate].
  destruct (attached_ensure _ _ _ _ _ _ Hatt Hens) as (Hatt1 & Hh & _).
  destruct (k =? "")%string; [discriminate |].
  cbn [kv_transaction_set_versionstamped_value client] in Hcall.
  unfold transaction_set_versionstamped_value in Hcall.
  rewrite !OnMemKv.received_span in Hcall by assumption.
  rewrite resize_plus_10_length in Hcall.
  replace (String.length v + 10 <? 10)%nat with false in Hcall
    by (symmetry; apply Nat.ltb_ge; lia).
  destruct (function_result _) as [fr w2] eqn:Hfr in Hcall.
  destruct fr; [| discriminate]. inv Hcall.
  pose proof (f_equal fst Hfr) as Hs. apply function_result_success in Hs.
  pose proof (f_equal snd Hfr) as Hw. rewrite function_result_snd in Hw.
  simpl in Hw. subst w'.
  now apply attached_write.
Qed.

(** A successful [setVersionstampedKey] is the next write of the
    transaction: the key prefix and the value. *)
Lemma attached_versionstamped_key (ws : list Mutation)
      (tx tx' : CustomTransaction.t) (k v : bytes) (offset : Z) (w w' : World) :
  attached ws tx w -> fits k -> fits v ->
  CustomTransaction.setVersionstampedKey tx k offset v w = (Ok tt, tx', w') ->
  attached (ws ++ [MVersionstampedKey k v])%list tx' w'
  /\ Z.of_nat (List.length ws) < 2 ^ 16.
Proof.
  intros Hatt Hk Hv Hcall. pose proof Hatt as (Hfin & _).
  unfold CustomTransaction.setVersionstampedKey in Hcall.
  rewrite Hfin in Hcall.
  destruct (CustomTransaction.ensureTransaction tx w)
    as [[[h | c m] tx1] w1] eqn:Hens; [| discriminate].
  destruct (attached_ensure _ _ _ _ _ _ Hatt Hens) as (Hatt1 & Hh & _).
  destruct (k =? "")%string; [discriminate |].
  cbn [kv_transaction_set_versionstamped_key client] in Hcall.
  unfold transaction_set_versionstamped_key in Hcall.
  rewrite !OnMemKv.received_span in Hcall by assumption.
  destruct (function_result _) as [fr w2] eqn:Hfr in Hcall.
  destruct fr; [| discriminate]. inv Hcall.
  pose proof (f_equal fst Hfr) as Hs. apply function_result_success in Hs.
  pose proof (f_equal snd Hfr) as Hw. rewrite function_result_snd in Hw.
  simpl in Hw. subst w'.
  now apply attached_write.
Qed.

(** Marking the transaction committed does not change how it attaches. *)
Lemma ensure_with_committed (tx : CustomTransaction.t) (b : bool) (w : World) :
  CustomTransaction.ensureTransaction (CustomTransaction.with_committed tx b) w
  = let '(r, tx1, w1) := CustomTransaction.ensureTransaction tx w in
    (r, CustomTransaction.with_committed tx1 b, w1).
Proof.
  unfold CustomTransaction.ensureTransaction. simpl.
  destruct (CustomTransaction.transaction_handle_ tx); [reflexivity |].
  destruct (CustomTransaction.client_handle_ tx); reflexivity.
Qed.

(** The commit of an open transaction the engine accepted puts the writes
    of the transaction on the log, numbered from 0, under the next value of
    the commit counter. *)
Lemma attached_commit (ws : list Mutation) (tx tx' : CustomTransaction.t)
      (now : Z) (w w' : World) :
  attached ws tx w ->
  CustomTransaction.commit tx now w = (Ok tt, tx', w') ->
  commit_counter w' = commit_counter w + 1
  /\ log w' = (rev (stamp_all (commit_counter w + 1) 0 ws) ++ log w)%list.
Proof.
  intros Hatt Hcommit. pose proof Hatt as (Hfin & _).
  unfold CustomTransaction.finished in Hfin.
  apply orb_false_iff in Hfin. destruct Hfin as (Hfin & Hk).
  unfold CustomTransaction.commit in Hcommit. rewrite Hfin, Hk in Hcommit.
  rewrite ensure_with_committed in Hcommit.
  destruct (CustomTransaction.ensureTransaction tx w)
    as [[[h | c m] tx1] w1] eqn:Hens; [| discriminate].
  destruct (attached_ensure _ _ _ _ _ _ Hatt Hens)
    as (_ & _ & Hl & Hc & st & Ha & Hws).
  cbn [kv_transaction_commit client] in Hcommit.
  destruct (commit_spec h w1)
    as [(Hs & _) | [(Hs & _) | (Hs & st' & Ha' & _ & _ & Hw)]];
    destruct (transaction_commit h w1) as [kr w2]; simpl in *.
  - rewrite Hs in Hcommit. discriminate.
  - rewrite Hs in Hcommit. discriminate.
  - subst kr. simpl in Hcommit. inv Hcommit. simpl.
    rewrite Ha in Ha'. inv Ha'. rewrite Hl, Hc. auto.
Qed.

End WriteFacts.
(** ** Reads on the in-memory service *)

Module ReadFacts.
Import MemKv OnMemKvState.

(** [snapshotGet] of a read-only transaction reads the map of its snapshot
    version. *)
Lemma read_only_snapshotGet_reads (tx : CustomReadOnlyTransaction.t)
      (k : bytes) (w : World) :
  fits k ->
  CustomReadOnlyTransaction.finished tx = false ->
  CustomReadOnlyTransaction.client_handle_ tx <> None ->
  fst (CustomReadOnlyTransaction.snapshotGet tx k w)
  = Ok (lookup k (store_at (snapshot_version tx w) (log w))).
Proof.
  intros Hk Hfin Hc. unfold CustomReadOnlyTransaction.snapshotGet.
  rewrite Hfin.
  destruct (CustomReadOnlyTransaction.client_handle_ tx); [| congruence].
  cbn [kv_read_transaction_begin kv_read_transaction_get
       kv_read_transaction_destroy client read_transaction_begin].
  unfold read_transaction_get. rewrite OnMemKv.received_span by exact Hk.
  cbn [read_txs assoc]. rewrite Nat.eqb_refl. cbn [log commit_counter].
  unfold snapshot_version.
  destruct (CustomReadOnlyTransaction.read_version_ tx) as [v |];
    [destruct (v =? 0) |]; cbn [success ok data];
    destruct (lookup k _); reflexivity.
Qed.

(** A new read-only transaction reads at the latest committed version. *)
Lemma read_only_reads_store (c : handle) (k : bytes) (w : World) :
  fits k ->
  fst (CustomReadOnlyTransaction.snapshotGet
         (CustomReadOnlyTransaction.create (Some c)) k w)
  = Ok (lookup k (store_at (commit_counter w) (log w))).
Proof.
  intros Hk. rewrite read_only_snapshotGet_reads; auto. discriminate.
Qed.

End ReadFacts.

(** ** A key of more bytes than an [int] counts *)

Module LongKeyFacts.
Import MemKv.

Ltac begin_with_long_key :=
  cbn [CustomTransaction.finished CustomTransaction.create
       CustomTransaction.cancelled_ CustomTransaction.reset_
       CustomTransaction.committed_ orb];
  rewrite (OnMemKv.ensure_begins (CustomTransaction.create (Some 1%nat))
                                 1%nat empty eq_refl eq_refl).

(** With the key of 2^32 + 1 bytes, [setVersionstampedValue] does what it
    does with the key "k". *)
Lemma long_key_setVersionstampedValue :
  CustomTransaction.setVersionstampedValue
    (CustomTransaction.create (Some 1%nat)) Scenarios.long_key "session_" 0
    empty
  = CustomTransaction.setVersionstampedValue
      (CustomTransaction.create (Some 1%nat)) "k" "session_" 0 empty.
Proof.
  unfold CustomTransaction.setVersionstampedValue. begin_with_long_key.
  replace (Scenarios.long_key =? "")%string with false by reflexivity.
  replace ("k" =? "")%string with false by reflexivity.
  cbn [kv_transaction_set_versionstamped_value client].
  unfold transaction_set_versionstamped_value.
  rewrite OnMemKv.long_key_received.
  rewrite !OnMemKv.received_span by reflexivity.
  lazy. reflexivity.
Qed.

(** So does [set]. *)
Lemma long_key_set :
  CustomTransaction.set
    (CustomTransaction.create (Some 1%nat)) Scenarios.long_key "v" empty
  = CustomTransaction.set (CustomTransaction.create (Some 1%nat)) "k" "v" empty.
Proof.
  unfold CustomTransaction.set. begin_with_long_key.
  cbn [kv_transaction_set client]. unfold transaction_set.
  rewrite OnMemKv.long_key_received.
  rewrite !OnMemKv.received_span by reflexivity.
  lazy. reflexivity.
Qed.

(** And so does a range read with such a key in its begin selector. *)
Lemma long_key_getRange (w : World) (limit : Z) (e : KeySelector) :
  fits (key e) ->
  CustomTransaction.getRange
    (CustomTransaction.create (Some 1%nat))
    (mkKeySelector Scenarios.long_key true) e limit w
  = CustomTransaction.getRange
      (CustomTransaction.create (Some 1%nat)) (mkKeySelector "k" true) e limit
      w.
Proof.
  intros He. unfold CustomTransaction.getRange.
  cbn [CustomTransaction.finished CustomTransaction.create
       CustomTransaction.cancelled_ CustomTransaction.reset_
       CustomTransaction.committed_ orb].
  rewrite (OnMemKv.ensure_begins (CustomTransaction.create (Some 1%nat))
                                 1%nat w eq_refl eq_refl).
  cbn [kv_transaction_get_range client key inclusive].
  unfold transaction_get_range.
  rewrite OnMemKv.long_key_received.
  rewrite !OnMemKv.received_span by (exact He || reflexivity).
  reflexivity.
Qed.

End LongKeyFacts.
(** ** Claims settled on the in-memory service *)

Module StampFacts.
Import MemKv OnMemKvState.

(** The writes of a commit on the log, when the write number [seq] of the
    transaction is the entry [e]: [e] is what the map of the commit version
    holds at its key, unless a later write of the transaction goes to that
    key. *)
Lemma stamped_entry_read (cv : Z) (earlier later : list Mutation) (m : Mutation)
      (l : list LogEntry) :
  let seq := Z.of_nat (List.length earlier) in
  let e := stamp cv seq m in
  (rev (stamp_all cv 0 (earlier ++ m :: later)) ++ l
   = rev (stamp_all cv (seq + 1) later)
       ++ e :: rev (stamp_all cv 0 earlier) ++ l)%list
  /\ (Forall (fun e' => le_key e' <> le_key e) (stamp_all cv (seq + 1) later) ->
      lookup (le_key e)
             (store_at cv (rev (stamp_all cv 0 (earlier ++ m :: later)) ++ l))
      = le_value e).
Proof.
  intros seq e.
  assert (Hlog : (rev (stamp_all cv 0 (earlier ++ m :: later)) ++ l
                  = rev (stamp_all cv (seq + 1) later)
                      ++ e :: rev (stamp_all cv 0 earlier) ++ l)%list).
  { rewrite OnMemKv.stamp_all_app. cbn [stamp_all]. rewrite rev_app_distr.
    cbn [rev]. rewrite <- !app_assoc. reflexivity. }
  split; [exact Hlog |]. intros Hlater. rewrite Hlog.
  apply OnMemKv.lookup_through.
  - apply Forall_rev.
    pose proof (OnMemKv.stamp_all_version cv (seq + 1) later) as Hv.
    rewrite Forall_forall in *. intros e' He'.
    split; [rewrite (Hv e' He'); lia | now apply Hlater].
  - subst e. destruct m; simpl; lia.
  - reflexivity.
Qed.

End StampFacts.

(** C3, as the code has it.  A read-write transaction, with the requests of
    other clients in between, makes calls, among them a successful
    [setVersionstampedValue(key, prefix, offset)] with a key and a value of
    fewer than 2^31 bytes, and then commits.  The commit puts the writes of
    the transaction on the log under the commit version [cv]; that of the
    call, write number [seq] of the transaction, is [key] with the value
    [prefix] followed by the ten bytes of the versionstamp of [cv] and
    [seq]; and this is the value the map of version [cv] holds at [key], and
    a new transaction reads there, unless a later write of the transaction
    goes to [key].  Likewise for a successful [setVersionstampedKey(prefix,
    offset, value)]: [value] is committed at the key made of [prefix]
    followed by the versionstamp.  The stamp goes to the end of the prefix
    for every [offset]: on every client, two calls that differ in [offset]
    only do the same, and a call with an empty key (prefix) is an error. *)
Theorem versionstamp_follows_prefix :
  (forall (c : option handle) (before after : list Shared.Event)
          (k prefix : bytes) (offset now : Z)
          (tx1 tx2 tx3 tx4 : CustomTransaction.t) (w1 w2 w3 w4 : MemKv.World),
      fits k -> fits (CustomTransaction.resize_plus_10 prefix) ->
      Shared.calm before = true -> Shared.calm after = true ->
      Shared.play before (CustomTransaction.create c) MemKv.empty
      = Some (tx1, w1) ->
      CustomTransaction.setVersionstampedValue tx1 k prefix offset w1
      = (Ok tt, tx2, w2) ->
      Shared.play after tx2 w2 = Some (tx3, w3) ->
      CustomTransaction.commit tx3 now w3 = (Ok tt, tx4, w4) ->
      exists earlier later : list MemKv.Mutation,
        let cv := MemKv.commit_counter w3 + 1 in
        let seq := Z.of_nat (List.length earlier) in
        let stamped := prefix ++ MemKv.versionstamp cv seq in
        MemKv.commit_counter w4 = cv
        /\ seq < 2 ^ 16
        /\ String.length (MemKv.versionstamp cv seq) = 10%nat
        /\ MemKv.log w4
           = (rev (MemKv.stamp_all cv (seq + 1) later)
                ++ MemKv.mkLogEntry cv k (Some stamped)
                :: rev (MemKv.stamp_all cv 0 earlier) ++ MemKv.log w3)%list
        /\ (Forall (fun e => MemKv.le_key e <> k)
                   (MemKv.stamp_all cv (seq + 1) later) ->
            MemKv.lookup k (MemKv.store_at cv (MemKv.log w4)) = Some stamped
            /\ forall c' : handle,
                fst (CustomReadOnlyTransaction.snapshotGet
                       (CustomReadOnlyTransaction.create (Some c')) k w4)
                = Ok (Some stamped)))
  /\
  (forall (c : option handle) (before after : list Shared.Event)
          (prefix value : bytes) (offset now : Z)
          (tx1 tx2 tx3 tx4 : CustomTransaction.t) (w1 w2 w3 w4 : MemKv.World),
      fits prefix -> fits value ->
      Shared.calm before = true -> Shared.calm after = true ->
      Shared.play before (CustomTransaction.create c) MemKv.empty
      = Some (tx1, w1) ->
      CustomTransaction.setVersionstampedKey tx1 prefix offset value w1
      = (Ok tt, tx2, w2) ->
      Shared.play after tx2 w2 = Some (tx3, w3) ->
      CustomTransaction.commit tx3 now w3 = (Ok tt, tx4, w4) ->
      exists earlier later : list MemKv.Mutation,
        let cv := MemKv.commit_counter w3 + 1 in
        let seq := Z.of_nat (List.length earlier) in
        let stamped := prefix ++ MemKv.versionstamp cv seq in
        MemKv.commit_counter w4 = cv
        /\ seq < 2 ^ 16
        /\ String.length (MemKv.versionstamp cv seq) = 10%nat
        /\ MemKv.log w4
           = (rev (MemKv.stamp_all cv (seq + 1) later)
                ++ MemKv.mkLogEntry cv stamped (Some value)
                :: rev (MemKv.stamp_all cv 0 earlier) ++ MemKv.log w3)%list
        /\ (Forall (fun e => MemKv.le_key e <> stamped)
                   (MemKv.stamp_all cv (seq + 1) later) ->
            MemKv.lookup stamped (MemKv.store_at cv (MemKv.log w4))
            = Some value))
  /\
  (forall (W : Type) (E : KvClient W) (t : CustomTransaction.t) (x : W)
          (value : bytes) (offset : Z),
      hasValue (fst (fst (CustomTransaction.setVersionstampedValue
                            t "" value offset x))) = false
      /\ hasValue (fst (fst (CustomTransaction.setVersionstampedKey
                               t "" offset value x))) = false)
  /\
  (forall (W : Type) (E : KvClient W) (t : CustomTransaction.t) (x : W)
          (k value : bytes) (offset offset' : Z),
      CustomTransaction.setVersionstampedValue t k value offset x
      = CustomTransaction.setVersionstampedValue t k value offset' x
      /\ CustomTransaction.setVersionstampedKey t k offset value x
         = CustomTransaction.setVersionstampedKey t k offset' value x).
Proof.
  split; [| split; [| split]].
  - intros c before after k prefix offset now tx1 tx2 tx3 tx4 w1 w2 w3 w4
           Hk Hv Hcb Hca Hb Hset Ha Hcommit.
    destruct (SharedFacts.attached_play _ _ _ _ _ _
                (SharedFacts.attached_fresh c) Hcb Hb) as (earlier & Hatt1).
    simpl in Hatt1.
    destruct (WriteFacts.attached_versionstamped_value
                _ _ _ _ _ _ _ _ Hatt1 Hk Hv Hset) as (Hatt2 & Hlen).
    destruct (SharedFacts.attached_play _ _ _ _ _ _ Hatt2 Hca Ha)
      as (later & Hatt3).
    destruct (WriteFacts.attached_commit _ _ _ _ _ _ Hatt3 Hcommit)
      as (Hcv & Hlog).
    rewrite <- app_assoc in Hlog. cbn [app] in Hlog.
    pose proof (StampFacts.stamped_entry_read
                  (MemKv.commit_counter w3 + 1) earlier later
                  (MemKv.MVersionstampedValue
                     k (CustomTransaction.resize_plus_10 prefix))
                  (MemKv.log w3)) as Hentry.
    cbv zeta in Hentry. rewrite OnMemKv.stamp_value_buffer in Hentry.
    cbn [MemKv.le_key MemKv.le_value] in Hentry.
    destruct Hentry as (Hsplit & Hread). rewrite <- Hlog in Hsplit, Hread.
    exists earlier, later. cbv zeta.
    split; [exact Hcv |]. split; [exact Hlen |].
    split; [apply OnMemKv.versionstamp_length |].
    split; [exact Hsplit |].
    intros Hlater. specialize (Hread Hlater). split; [exact Hread |].
    intros c'. rewrite ReadFacts.read_only_reads_store by exact Hk.
    now rewrite Hcv, Hread.
  - intros c before after prefix value offset now tx1 tx2 tx3 tx4 w1 w2 w3 w4
           Hk Hv Hcb Hca Hb Hset Ha Hcommit.
    destruct (SharedFacts.attached_play _ _ _ _ _ _
                (SharedFacts.attached_fresh c) Hcb Hb) as (earlier & Hatt1).
    simpl in Hatt1.
    destruct (WriteFacts.attached_versionstamped_key
                _ _ _ _ _ _ _ _ Hatt1 Hk Hv Hset) as (Hatt2 & Hlen).
    destruct (SharedFacts.attached_play _ _ _ _ _ _ Hatt2 Hca Ha)
      as (later & Hatt3).
    destruct (WriteFacts.attached_commit _ _ _ _ _ _ Hatt3 Hcommit)
      as (Hcv & Hlog).
    rewrite <- app_assoc in Hlog. cbn [app] in Hlog.
    pose proof (StampFacts.stamped_entry_read
                  (MemKv.commit_counter w3 + 1) earlier later
                  (MemKv.MVersionstampedKey prefix value)
                  (MemKv.log w3)) as Hentry.
    cbv zeta in Hentry. cbn [MemKv.stamp MemKv.le_key MemKv.le_value] in Hentry.
    destruct Hentry as (Hsplit & Hread). rewrite <- Hlog in Hsplit, Hread.
    exists earlier, later. cbv zeta.
    split; [exact Hcv |]. split; [exact Hlen |].
    split; [apply OnMemKv.versionstamp_length |].
    split; [exact Hsplit | exact Hread].
  - intros W E t x value offset.
    unfold CustomTransaction.setVersionstampedValue,
      CustomTransaction.setVersionstampedKey.
    destruct (CustomTransaction.finished t); [split; reflexivity |].
    destruct (CustomTransaction.ensureTransaction t x) as [[[h | cd m] t'] x'];
      split; reflexivity.
  - intros W E t x k value offset offset'. split; reflexivity.
Qed.

(** A transaction like that of the test
    [VersionstampedOperationsInSingleTransaction]: a write, a versionstamped
    key, the versionstamped value, another write and a read, while another
    client begins a transaction of its own (handle 1), writes "x" and
    commits. *)
Lemma versionstamp_follows_prefix_witness :
  let before :=
    [Shared.Other (Spy.Begin 30 (Some 1%nat));
     Shared.Own (Calls.RwSet "a" "1");
     Shared.Other (Spy.Set_ 1%nat (span "x") (span "y"));
     Shared.Own (Calls.RwSetVersionstampedKey "log_" 0 "entry")] in
  let after :=
    [Shared.Own (Calls.RwSet "b" "2");
     Shared.Other (Spy.Commit 1%nat);
     Shared.Own (Calls.RwGet "a")] in
  let nowhere := (CustomTransaction.create None, MemKv.empty) in
  let s1 := match Shared.play before (CustomTransaction.create (Some 1%nat))
                              MemKv.empty with
            | Some s => s
            | None => nowhere
            end in
  let s2 := CustomTransaction.setVersionstampedValue
              (fst s1) "user_session" "session_" 0 (snd s1) in
  let s3 := match Shared.play after (snd (fst s2)) (snd s2) with
            | Some s => s
            | None => nowhere
            end in
  let cm := CustomTransaction.commit (fst s3) 1000 (snd s3) in
  fits "user_session"
  /\ fits (CustomTransaction.resize_plus_10 "session_")
  /\ Shared.calm before = true /\ Shared.calm after = true
  /\ Shared.play before (CustomTransaction.create (Some 1%nat)) MemKv.empty
     = Some s1
  /\ s2 = (Ok tt, snd (fst s2), snd s2)
  /\ Shared.play after (snd (fst s2)) (snd s2) = Some s3
  /\ cm = (Ok tt, snd (fst cm), snd cm)
  /\ MemKv.commit_counter (snd cm) = 2
  /\ exists earlier later : list MemKv.Mutation,
      let seq := Z.of_nat (List.length earlier) in
      MemKv.log (snd cm)
      = (rev (MemKv.stamp_all 2 (seq + 1) later)
           ++ MemKv.mkLogEntry 2 "user_session"
                (Some ("session_" ++ MemKv.versionstamp 2 seq)%string)
           :: rev (MemKv.stamp_all 2 0 earlier) ++ MemKv.log (snd s3))%list.
Proof.
  intros before after nowhere s1 s2 s3 cm.
  assert (Hk : fits "user_session") by reflexivity.
  assert (Hv : fits (CustomTransaction.resize_plus_10 "session_"))
    by reflexivity.
  assert (Hcb : Shared.calm before = true) by reflexivity.
  assert (Hca : Shared.calm after = true) by reflexivity.
  assert (H1 : Shared.play before (CustomTransaction.create (Some 1%nat))
                           MemKv.empty = Some (fst s1, snd s1))
    by reflexivity.
  assert (H2 : s2 = (Ok tt, snd (fst s2), snd s2)) by reflexivity.
  assert (H3 : Shared.play after (snd (fst s2)) (snd s2)
               = Some (fst s3, snd s3)) by reflexivity.
  assert (H4 : cm = (Ok tt, snd (fst cm), snd cm)) by reflexivity.
  repeat (split; [first [assumption | reflexivity] |]).
  destruct (proj1 versionstamp_follows_prefix
                  (Some 1%nat) before after "user_session" "session_" 0 1000
                  (fst s1) (snd (fst s2)) (fst s3) (snd (fst cm))
                  (snd s1) (snd s2) (snd s3) (snd cm)
                  Hk Hv Hcb Hca H1 H2 H3 H4)
    as (earlier & later & _ & _ & _ & Hlog & _).
  exists earlier, later. exact Hlog.
Defined.

(** C3 as stated fails.  The test [SetVersionstampedValue] calls
    [setVersionstampedValue("user_session", "session_", 0)]: the ten bytes at
    the offset of the call, 0, of the committed value are no versionstamp of
    the commit; the stamp sits at offset 8, the length of the prefix, and the
    same value is committed when the call names offset 5.  A call with an
    empty key is an error and writes nothing, though the transaction
    commits.  A key of 2^32 + 1 bytes travels with the length 1: the call
    does what it does with the first byte, "k", as the key, and it is at "k"
    that the stamped value is committed.  And when the transaction goes on
    to [set] the key, that later write is what is read after the commit. *)
Lemma versionstamp_not_at_offset :
  let call k offset :=
    CustomTransaction.setVersionstampedValue
      (CustomTransaction.create (Some 1%nat)) k "session_" offset MemKv.empty in
  let run k offset :=
    let cm := CustomTransaction.commit (snd (fst (call k offset))) 1000
                                       (snd (call k offset)) in
    (hasValue (fst (fst (call k offset))), fst (fst cm), MemKv.log (snd cm)) in
  (exists value,
      run "user_session" 0
      = (true, Ok tt, [MemKv.mkLogEntry 1 "user_session" (Some value)])
      /\ run "user_session" 5 = run "user_session" 0
      /\ (forall seq, substring 0 10 value <> MemKv.versionstamp 1 seq)
      /\ substring 8 10 value = MemKv.versionstamp 1 0)
  /\ run "" 0 = (false, Ok tt, [])
  /\ Z.of_nat (String.length Scenarios.long_key) = 2 ^ 32 + 1
  /\ call Scenarios.long_key 0 = call "k" 0
  /\ run "k" 0
     = (true, Ok tt,
        [MemKv.mkLogEntry 1 "k" (Some ("session_" ++ MemKv.versionstamp 1 0))])
  /\ (let w := Scenarios.after
                 [Calls.RwSetVersionstampedValue "user_session" "session_" 0;
                  Calls.RwSet "user_session" "x"; Calls.RwCommit 1000]
                 MemKv.empty in
      MemKv.log w
      = [MemKv.mkLogEntry 1 "user_session" (Some "x");
         MemKv.mkLogEntry 1 "user_session"
                          (Some ("session_" ++ MemKv.versionstamp 1 0))]
      /\ fst (CustomReadOnlyTransaction.snapshotGet
                Scenarios.new_read_only "user_session" w)
         = Ok (Some "x")).
Proof.
  split; [| split; [reflexivity |]].
  - eexists. split; [reflexivity |]. split; [reflexivity |].
    split; [| reflexivity].
    intros seq Heq. unfold MemKv.versionstamp in Heq. simpl in Heq.
    discriminate Heq.
  - split; [exact OnMemKv.long_key_length |].
    split; [exact LongKeyFacts.long_key_setVersionstampedValue |].
    split; [reflexivity |]. split; reflexivity.
Qed.

(** C6, where the code breaks it.  [get] of a read-only transaction is a
    placeholder: on every client, a new read-only transaction answers [get]
    with a successful absent value for every key and sends nothing.  A key
    and a value with NUL bytes are committed; [snapshotGet] of a read-only
    transaction and [get] and [snapshotGet] of a read-write transaction read
    the value back, [get] of a read-only transaction says the key is absent.
    And the size of a key is cast to [int]: [set] with a key of 2^32 + 1
    bytes does what it does with the first byte, "k", as the key. *)
Theorem read_only_get_returns_absent :
  (forall (W : Type) (E : KvClient W) (c : option handle) (k : bytes) (w : W),
      CustomReadOnlyTransaction.get (CustomReadOnlyTransaction.create c) k w
      = (Ok None, w))
  /\
  (let k := String zero "k" in
   let v := String "v" (String zero "v") in
   let w := Scenarios.after [Calls.RwSet k v; Calls.RwCommit 1000]
                            MemKv.empty in
   MemKv.log w = [MemKv.mkLogEntry 1 k (Some v)]
   /\ fst (CustomReadOnlyTransaction.snapshotGet Scenarios.new_read_only k w)
      = Ok (Some v)
   /\ fst (fst (CustomTransaction.get Scenarios.new_read_write k w))
      = Ok (Some v)
   /\ fst (fst (CustomTransaction.snapshotGet Scenarios.new_read_write k w))
      = Ok (Some v)
   /\ fst (CustomReadOnlyTransaction.get Scenarios.new_read_only k w)
      = Ok None)
  /\
  (Z.of_nat (String.length Scenarios.long_key) = 2 ^ 32 + 1
   /\ CustomTransaction.set (CustomTransaction.create (Some 1%nat))
                            Scenarios.long_key "v" MemKv.empty
      = CustomTransaction.set (CustomTransaction.create (Some 1%nat))
                              "k" "v" MemKv.empty).
Proof.
  split; [reflexivity |]. split; [repeat split; reflexivity |].
  split; [exact OnMemKv.long_key_length | exact LongKeyFacts.long_key_set].
Qed.

(** ** Range reads *)

Module RangeFacts.
Import MemKv MemKvFacts OnMemKvState.

Lemma size_t_small (limit : Z) :
  1 <= limit < 2 ^ 31 -> size_t_of_int32 limit = limit.
Proof.
  intros Hl. unfold size_t_of_int32. apply Z.mod_small.
  split; [lia |]. apply Z.lt_trans with (2 ^ 31); [lia | reflexivity].
Qed.

(** The selectors travel as the engine's [begin_or_equal] and
    [end_or_equal]. *)
Lemma in_range_admits (b e : KeySelector) (k : bytes) :
  in_range (key b) (if inclusive b then 0 else 1)
           (key e) (if inclusive e then 1 else 0) k
  = admits b e k.
Proof.
  unfold in_range, admits. now destruct (inclusive b), (inclusive e).
Qed.

(** A page is full exactly when the range holds [limit] pairs or more. *)
Lemma full_page (limit : Z) (l : KvPairArray) :
  1 <= limit ->
  (count (firstn (Z.to_nat limit) l) =? limit) = (limit <=? count l).
Proof.
  intros Hl. unfold count. rewrite length_firstn.
  destruct (Z.leb_spec limit (Z.of_nat (List.length l)));
    [apply Z.eqb_eq | apply Z.eqb_neq]; lia.
Qed.

(** From the page the engine hands over and the flag the adapter computes
    to [paged]. *)
Lemma paged_intro (b e : KeySelector) (limit v : Z) (l : list LogEntry)
      (flag : bool) :
  1 <= limit < 2 ^ 31 ->
  let pg := page (key b) (if inclusive b then 0 else 1)
                 (key e) (if inclusive e then 1 else 0) limit (store_at v l) in
  flag = (count pg =? limit) ->
  paged b e limit v l (mkGetRangeResult pg flag).
Proof.
  intros Hl pg Hflag. unfold paged. cbn [kvs hasMore].
  split; [apply ascending_filter, ascending_store_at |].
  split.
  { intros p. unfold selected, range_of. rewrite filter_In.
    now rewrite in_range_admits. }
  split; [reflexivity |].
  split; [apply page_length; lia |].
  rewrite Hflag. apply full_page. lia.
Qed.

(** A successful range read of a read-write transaction returns the page
    of the version the transaction reads at. *)
Lemma getRange_paged (tx tx' : CustomTransaction.t) (b e : KeySelector)
      (limit : Z) (w w' : World) (res : GetRangeResult) :
  fits (key b) -> fits (key e) -> 1 <= limit < 2 ^ 31 ->
  CustomTransaction.getRange tx b e limit w = (Ok res, tx', w') ->
  exists v, reading_version tx w = Some v /\ paged b e limit v (log w) res.
Proof.
  intros Hb He Hl Hget. unfold CustomTransaction.getRange in Hget.
  destruct (CustomTransaction.finished tx); [discriminate |].
  destruct (CustomTransaction.ensureTransaction tx w) as [[[h | c m] tx1] w1]
    eqn:Hens; [| discriminate].
  destruct (OnMemKv.ensure_keeps_log _ _ _ _ _ Hens) as (Hlog & _).
  destruct (CallFacts.ensure_shape _ _ _ _ _ Hens) as (_ & _ & Hok & Hbeg).
  specialize (Hok h eq_refl).
  cbn [kv_transaction_get_range kv_pair_array_free client pair_array_free]
    in Hget.
  unfold transaction_get_range in Hget.
  rewrite !OnMemKv.received_span in Hget by assumption.
  destruct (assoc h (txs w1)) as [st |] eqn:Ha; [| discriminate].
  cbn [success ok] in Hget. inv Hget.
  exists (tx_read_version st). split.
  - unfold reading_version.
    destruct Hbeg as [(Hsame & ->) | (Hnone & Hsome & Hbeg)].
    + rewrite <- Hsame, Hok, Ha. reflexivity.
    + rewrite Hnone. rewrite Hbeg in Ha. rewrite Hok in Hsome. inv Hsome.
      simpl in Ha. rewrite Nat.eqb_refl in Ha. now inv Ha.
  - rewrite Hlog. apply paged_intro; [exact Hl |].
    rewrite size_t_small by exact Hl.
    destruct (Z.eqb_spec (count (page (key b) (if inclusive b then 0 else 1)
                                      (key e) (if inclusive e then 1 else 0)
                                      limit
                                      (store_at (tx_read_version st) (log w))))
                         limit) as [Heq | Hne];
      [| now rewrite andb_false_r].
    rewrite andb_true_r. apply negb_true_iff, Z.eqb_neq. lia.
Qed.

(** A successful [snapshotGetRange] of a read-only transaction returns the
    page of its snapshot version. *)
Lemma snapshotGetRange_paged (tx : CustomReadOnlyTransaction.t)
      (b e : KeySelector) (limit : Z) (w w' : World) (res : GetRangeResult) :
  fits (key b) -> fits (key e) -> 1 <= limit < 2 ^ 31 ->
  CustomReadOnlyTransaction.snapshotGetRange tx b e limit w = (Ok res, w') ->
  paged b e limit (snapshot_version tx w) (log w) res.
Proof.
  intros Hb He Hl Hget.
  unfold CustomReadOnlyTransaction.snapshotGetRange in Hget.
  destruct (CustomReadOnlyTransaction.finished tx); [discriminate |].
  destruct (CustomReadOnlyTransaction.client_handle_ tx); [| discriminate].
  cbn [kv_read_transaction_begin kv_read_transaction_get_range
       kv_read_transaction_destroy kv_pair_array_free client
       pair_array_free read_transaction_begin] in Hget.
  unfold read_transaction_get_range in Hget.
  rewrite !OnMemKv.received_span in Hget by assumption.
  cbn [read_txs assoc] in Hget. rewrite Nat.eqb_refl in Hget.
  cbn [success ok log] in Hget. inv Hget.
  assert (Hv : (if match CustomReadOnlyTransaction.read_version_ tx with
                   | Some v => v
                   | None => 0
                   end =? 0
                then commit_counter w
                else match CustomReadOnlyTransaction.read_version_ tx with
                     | Some v => v
                     | None => 0
                     end) = snapshot_version tx w).
  { unfold snapshot_version.
    now destruct (CustomReadOnlyTransaction.read_version_ tx). }
  rewrite Hv. apply paged_intro; [exact Hl |]. now rewrite size_t_small.
Qed.

End RangeFacts.

(** C7, as the code has it.  For [limit >= 1] and selector keys of fewer
    than 2^31 bytes, every successful [getRange] or [snapshotGetRange] of a
    read-write transaction and every successful [snapshotGetRange] of a
    read-only transaction returns the first [limit] pairs of the selected
    range of the version it reads at, in ascending key order, with a flag
    computed from the count that [kv_pair_array_free] leaves in the array.
    On every client whose [kv_pair_array_free] leaves the count in place,
    the flag is true exactly when the page holds [limit] pairs; on the
    in-memory service that is exactly when the range holds [limit] pairs or
    more: whenever it holds further keys, and also when it ends with the
    page. *)
Theorem range_page_and_flag :
  (forall (W : Type) (E : KvClient W),
      (forall (a : KvPairArray) (x : W),
          count (fst (kv_pair_array_free a x)) = count a) ->
      forall (b e : KeySelector) (limit : Z) (x x' : W) (res : GetRangeResult),
        1 <= limit < 2 ^ 31 ->
        (forall (tx tx' : CustomTransaction.t),
            CustomTransaction.getRange tx b e limit x = (Ok res, tx', x')
            \/ CustomTransaction.snapshotGetRange tx b e limit x
               = (Ok res, tx', x') ->
            (hasMore res = true <-> count (kvs res) = limit))
        /\
        (forall (tx : CustomReadOnlyTransaction.t),
            CustomReadOnlyTransaction.snapshotGetRange tx b e limit x
            = (Ok res, x') ->
            (hasMore res = true <-> count (kvs res) = limit)))
  /\
  (forall (b e : KeySelector) (limit : Z) (w w' : MemKv.World)
          (res : GetRangeResult) (tx tx' : CustomTransaction.t),
      fits (key b) -> fits (key e) -> 1 <= limit < 2 ^ 31 ->
      CustomTransaction.getRange tx b e limit w = (Ok res, tx', w')
      \/ CustomTransaction.snapshotGetRange tx b e limit w = (Ok res, tx', w') ->
      exists v,
        OnMemKvState.reading_version tx w = Some v
        /\ OnMemKvState.paged b e limit v (MemKv.log w) res)
  /\
  (forall (b e : KeySelector) (limit : Z) (w w' : MemKv.World)
          (res : GetRangeResult) (tx : CustomReadOnlyTransaction.t),
      fits (key b) -> fits (key e) -> 1 <= limit < 2 ^ 31 ->
      CustomReadOnlyTransaction.snapshotGetRange tx b e limit w = (Ok res, w') ->
      OnMemKvState.paged b e limit (OnMemKvState.snapshot_version tx w)
                         (MemKv.log w) res).
Proof.
  split; [| split].
  - intros W E Hfree b e limit x x' res Hl. split.
    + intros tx tx' Hget.
      assert (Hflag : hasMore res
                      = negb (count (kvs res) =? 0)
                        && (count (kvs res) =? size_t_of_int32 limit)).
      { assert (Hget' : CustomTransaction.getRange tx b e limit x
                        = (Ok res, tx', x')) by (destruct Hget; assumption).
        destruct (getRange_hasMore _ _ _ _ _ _ _ _ Hget')
          as (h & w1 & w2 & kr & _ & _ & _ & _ & Hflag).
        now rewrite Hfree in Hflag. }
      rewrite Hflag, RangeFacts.size_t_small by exact Hl.
      rewrite andb_true_iff, negb_true_iff, Z.eqb_neq, Z.eqb_eq. lia.
    + intros tx Hget. apply snapshotGetRange_hasMore in Hget.
      destruct Hget as (w2 & Hflag). rewrite Hfree in Hflag.
      rewrite Hflag, RangeFacts.size_t_small by exact Hl. apply Z.eqb_eq.
  - intros b e limit w w' res tx tx' Hb He Hl [Hget | Hget];
      eapply RangeFacts.getRange_paged; eauto.
  - intros b e limit w w' res tx Hb He Hl Hget.
    eapply RangeFacts.snapshotGetRange_paged; eauto.
Qed.

(** A page of one in a range of two, read by a read-write transaction, and
    the same page read by a read-only one. *)
Lemma range_page_and_flag_witness :
  let b := mkKeySelector "a" true in
  let e := mkKeySelector "c" false in
  let res := mkGetRangeResult [("a", "1")] true in
  let r := CustomTransaction.getRange Scenarios.new_read_write b e 1
                                      Scenarios.world_ab in
  let s := CustomReadOnlyTransaction.snapshotGetRange
             Scenarios.new_read_only b e 1 Scenarios.world_ab in
  (forall (a : KvPairArray) (x : MemKv.World),
      count (fst (kv_pair_array_free a x)) = count a)
  /\ fits (key b) /\ fits (key e) /\ 1 <= 1 < 2 ^ 31
  /\ r = (Ok res, snd (fst r), snd r)
  /\ s = (Ok res, snd s)
  /\ (hasMore res = true <-> count (kvs res) = 1)
  /\ (exists v,
         OnMemKvState.reading_version Scenarios.new_read_write
                                      Scenarios.world_ab = Some v
         /\ OnMemKvState.paged b e 1 v (MemKv.log Scenarios.world_ab) res)
  /\ OnMemKvState.paged
       b e 1
       (OnMemKvState.snapshot_version Scenarios.new_read_only
                                      Scenarios.world_ab)
       (MemKv.log Scenarios.world_ab) res.
Proof.
  intros b e res r s.
  assert (Hfree : forall (a : KvPairArray) (x : MemKv.World),
             count (fst (kv_pair_array_free a x)) = count a)
    by reflexivity.
  assert (Hb : fits (key b)) by reflexivity.
  assert (He : fits (key e)) by reflexivity.
  assert (Hl : 1 <= 1 < 2 ^ 31) by (split; [reflexivity | reflexivity]).
  assert (Hr : r = (Ok res, snd (fst r), snd r)) by reflexivity.
  assert (Hs : s = (Ok res, snd s)) by reflexivity.
  split; [exact Hfree |]. split; [exact Hb |]. split; [exact He |].
  split; [exact Hl |]. split; [exact Hr |]. split; [exact Hs |].
  split.
  { exact (proj1 (proj1 range_page_and_flag MemKv.World MemKv.client Hfree
                        b e 1 Scenarios.world_ab (snd r) res Hl)
                 Scenarios.new_read_write (snd (fst r)) (or_introl Hr)). }
  split.
  { exact (proj1 (proj2 range_page_and_flag) b e 1 Scenarios.world_ab (snd r)
                 res Scenarios.new_read_write (snd (fst r)) Hb He Hl
                 (or_introl Hr)). }
  exact (proj2 (proj2 range_page_and_flag) b e 1 Scenarios.world_ab (snd s)
               res Scenarios.new_read_only Hb He Hl Hs).
Defined.

(** C7 as stated fails.  The store holds the keys "a" and "b".  A range
    read of ["a", "c") with limit 2 returns both pairs with the flag set,
    for [getRange] of a read-write and for [snapshotGetRange] of a read-only
    transaction alike, although the page is the whole range: no key of the
    range lies beyond it.  With a client whose [kv_pair_array_free] clears
    the count, the read with limit 1 returns the page of "a" with the flag
    unset, although "b" lies beyond it.  [getRange] of a read-only
    transaction, a placeholder, returns the empty page for that range.  With
    limit 0, [snapshotGetRange] of a read-only transaction sets the flag on
    the empty page of an empty range.  And with a begin key of 2^32 + 1
    bytes, which travels with the length 1, the read does what it does with
    the first byte, "k", as the begin key: it returns the pair of "k", a
    key the selectors do not admit. *)
Lemma full_page_reports_more :
  let b := mkKeySelector "a" true in
  let e := mkKeySelector "c" false in
  let range :=
    OnMemKvState.selected b e
      (MemKv.store_at (MemKv.commit_counter Scenarios.world_ab)
                      (MemKv.log Scenarios.world_ab)) in
  let long := mkKeySelector Scenarios.long_key true in
  let z := mkKeySelector "z" false in
  (exists res,
      fst (fst (CustomTransaction.getRange Scenarios.new_read_write b e 2
                                           Scenarios.world_ab)) = Ok res
      /\ fst (CustomReadOnlyTransaction.snapshotGetRange
                Scenarios.new_read_only b e 2 Scenarios.world_ab) = Ok res
      /\ range = kvs res
      /\ ~ (hasMore res = true <-> exists p, In p range /\ ~ In p (kvs res)))
  /\ range = [("a", "1"); ("b", "2")]
  /\ fst (fst (@CustomTransaction.getRange
                 MemKv.World MemKv.clearing_client
                 Scenarios.new_read_write b e 1 Scenarios.world_ab))
     = Ok (mkGetRangeResult [("a", "1")] false)
  /\ fst (CustomReadOnlyTransaction.getRange
            Scenarios.new_read_only b e 2 Scenarios.world_ab)
     = Ok (mkGetRangeResult [] false)
  /\ fst (CustomReadOnlyTransaction.snapshotGetRange
            Scenarios.new_read_only (mkKeySelector "x" true) z 0
            Scenarios.world_ab)
     = Ok (mkGetRangeResult [] true)
  /\ Z.of_nat (String.length Scenarios.long_key) = 2 ^ 32 + 1
  /\ fst (fst (CustomTransaction.getRange
                 (CustomTransaction.create (Some 1%nat)) long z 2
                 Scenarios.world_k))
     = Ok (mkGetRangeResult [("k", "old")] false)
  /\ OnMemKvState.admits long z "k" = false.
Proof.
  split.
  { eexists. split; [reflexivity |]. split; [reflexivity |].
    split; [reflexivity |].
    simpl. intros [Hmore _]. destruct (Hmore eq_refl) as (p & Hin & Hout).
    contradiction. }
  do 4 (split; [reflexivity |]).
  split; [exact OnMemKv.long_key_length |].
  split.
  - cbv zeta. rewrite LongKeyFacts.long_key_getRange by reflexivity.
    reflexivity.
  - unfold OnMemKvState.admits, MemKv.key_leb, Scenarios.long_key,
      Scenarios.four_gib.
    lazy. reflexivity.
Qed.

Section CommitAccepted.
Context {W : Type} `{KvClient W}.


End CommitAccepted.


(** ** Commit versions and versionstamps *)

Module VersionFacts.
Import MemKv OnMemKvState StepFacts.



















End VersionFacts.



(** ** A transaction that runs alone *)

Module AloneFacts.
Import MemKv OnMemKvState StepFacts CallFacts.

Lemma running_fresh (c : handle) (w : World) :
  well_formed w ->
  running (commit_counter w) (CustomTransaction.create (Some c)) w.
Proof.
  intros Hwf. unfold running. simpl.
  repeat split; auto; discriminate.
Qed.

(** A call that does not end the transaction keeps it running. *)
Lemma running_stepped (cc : Z) (tx tx' : CustomTransaction.t) (w w' : World) :
  running cc tx w -> stepped tx tx' w w' -> running cc tx' w'.
Proof.
  intros (Hfin & Hcl & Hcc & Hwf & Hatt) (Hf & Hc & w1 & Hbeg & Hw).
  assert (Hrun1 : running cc tx' w1).
  { unfold running. rewrite Hf, Hc.
    destruct Hbeg as [(-> & ->) | (Hnone & -> & ->)]; [auto |].
    unfold well_formed in *. simpl. repeat split; auto.
    intros h Hh. inv Hh. rewrite Nat.eqb_refl. eauto. }
  destruct Hrun1 as (Hfin1 & Hcl1 & Hcc1 & Hwf1 & Hatt1).
  unfold running, well_formed in *.
  destruct Hw as [(Ht & Hl & Hcnt & _) | (h & Hh & st & st' & Ha & -> & Hrv & _)].
  - rewrite Ht, Hl, Hcnt. auto.
  - simpl. repeat split; auto.
    intros h' Hh'. rewrite Hh in Hh'. inv Hh'. rewrite Nat.eqb_refl.
    exists st'. split; [reflexivity |].
    destruct (Hatt1 h' Hh) as (st1 & Ha1 & Hrv1). congruence.
Qed.

Lemma running_run (cc : Z) (cs : list Calls.RwCall)
      (tx tx' : CustomTransaction.t) (w w' : World) :
  running cc tx w -> forallb (fun c => negb (Calls.rw_ends c)) cs = true ->
  Calls.rw_run cs tx w = (tx', w') ->
  running cc tx' w'.
Proof.
  revert tx w. induction cs as [| c cs IH]; simpl; intros tx w Hrun Hcs Hr.
  - now inv Hr.
  - apply andb_true_iff in Hcs. destruct Hcs as (Hc & Hcs).
    apply negb_true_iff in Hc.
    destruct (Calls.rw_call c tx w) as [[r tx1] w1] eqn:Hcall.
    eapply IH; [| exact Hcs | exact Hr].
    eapply running_stepped; [exact Hrun |].
    eapply call_shape; eauto.
Qed.

Lemma running_ensure (cc : Z) (tx : CustomTransaction.t) (w : World) :
  running cc tx w ->
  exists h tx1 w1 st,
    CustomTransaction.ensureTransaction tx w = (Ok h, tx1, w1)
    /\ running cc tx1 w1
    /\ CustomTransaction.transaction_handle_ tx1 = Some h
    /\ assoc h (txs w1) = Some st /\ tx_read_version st = cc.
Proof.
  intros Hrun. pose proof Hrun as (Hfin & Hcl & Hcc & Hwf & Hatt).
  destruct (CustomTransaction.transaction_handle_ tx) as [h |] eqn:Hh.
  - destruct (Hatt h eq_refl) as (st & Ha & Hrv).
    exists h, tx, w, st. rewrite (ensureTransaction_attached _ _ h) by exact Hh.
    auto.
  - destruct (CustomTransaction.client_handle_ tx) as [c |] eqn:Hc;
      [| congruence].
    rewrite (OnMemKv.ensure_begins tx c w Hh Hc).
    eexists _, _, _, _. split; [reflexivity |].
    split; [| split; [reflexivity | split;
                      [apply OnMemKv.assoc_cons_same | exact Hcc]]].
    unfold running, well_formed in *. simpl.
    repeat split; auto; try congruence.
    intros h' Hh'. inv Hh'. rewrite Nat.eqb_refl. eauto.
Qed.

(** The commit of a transaction that ran alone is accepted, as long as the
    commit counter has a next value. *)
Lemma running_commit (cc : Z) (tx : CustomTransaction.t) (now : Z) (w : World) :
  running cc tx w -> cc + 1 < 2 ^ 64 ->
  exists tx' w', CustomTransaction.commit tx now w = (Ok tt, tx', w').
Proof.
  intros Hrun Hnext. pose proof Hrun as (Hfin & Hcl & Hcc & Hwf & Hatt).
  unfold CustomTransaction.finished in Hfin.
  apply orb_false_iff in Hfin. destruct Hfin as (Hfin & Hk).
  unfold CustomTransaction.commit. rewrite Hfin, Hk.
  rewrite WriteFacts.ensure_with_committed.
  destruct (running_ensure _ _ _ Hrun)
    as (h & tx1 & w1 & st & Hens & Hrun1 & Hh & Ha & Hrv).
  rewrite Hens. cbn [kv_transaction_commit client].
  unfold transaction_commit. rewrite Ha.
  destruct Hrun1 as (_ & _ & Hcc1 & Hwf1 & _).
  destruct (Z.leb_spec (2 ^ 64) (commit_counter w1 + 1)); [lia |].
  rewrite OnMemKv.conflicts_none; [simpl; eauto |].
  unfold well_formed in Hwf1. now rewrite Hrv, <- Hcc1.
Qed.

(** A commit refused for a conflict leaves log and commit counter as they
    were; the counter had a next value. *)
Lemma conflict_writes_nothing (tx tx' : CustomTransaction.t) (now : Z)
      (w w' : World) (msg : string) :
  CustomTransaction.commit tx now w = (makeError kConflict msg, tx', w') ->
  log w' = log w /\ commit_counter w' = commit_counter w
  /\ commit_counter w + 1 < 2 ^ 64.
Proof.
  intros Hcommit.
  pose proof (proj1 (commit_conflict_iff _ _ _ _ _ _ Hcommit) eq_refl)
    as (_ & _ & _ & h & w1 & kr & Hens & Hkc & Hs & Hec).
  destruct (OnMemKv.ensure_keeps_log _ _ _ _ _ Hens) as (Hl & Hc).
  cbn [kv_transaction_commit client] in Hkc.
  destruct (commit_spec h w1)
    as [(_ & Hne & _) | [(_ & Hlt & He) | (Hok & _)]];
    rewrite Hkc in *; simpl in *.
  - congruence.
  - rewrite He. simpl. repeat split; auto. lia.
  - subst kr. discriminate.
Qed.

End AloneFacts.

(** C5.  [commit] answers with the [kConflict] kind exactly when the engine
    refused the commit request of that call with a transaction conflict (on
    every client).  A commit that failed with [kConflict] wrote nothing: log
    and commit counter of the service, and so the store of every version, are
    as before.  And the failure can be retried: the reads and writes run
    again in a new transaction, with no other commit in between, and the
    commit of that transaction is accepted. *)
Theorem conflict_reported_not_applied_retriable :
  (forall (W : Type) (E : KvClient W) (tx tx' : CustomTransaction.t)
          (now : Z) (w w' : W) (r : Result unit),
      CustomTransaction.commit tx now w = (r, tx', w') ->
      (hasError r kConflict = true <->
       CustomTransaction.cancelled_ tx = false
       /\ CustomTransaction.reset_ tx = false
       /\ CustomTransaction.committed_ tx = false
       /\ exists h w1 kr,
           CustomTransaction.ensureTransaction
             (CustomTransaction.with_committed tx true) w = (Ok h, tx', w1)
           /\ kv_transaction_commit h w1 = (kr, w')
           /\ success kr = false
           /\ error_code kr = KV_ERROR_TRANSACTION_CONFLICT))
  /\
  (forall (tx tx' : CustomTransaction.t) (now : Z) (w w' : MemKv.World)
          (msg : string),
      CustomTransaction.commit tx now w = (makeError kConflict msg, tx', w') ->
      MemKv.log w' = MemKv.log w
      /\ MemKv.commit_counter w' = MemKv.commit_counter w
      /\ (forall v, MemKv.store_at v (MemKv.log w')
                    = MemKv.store_at v (MemKv.log w))
      /\ (MemKv.well_formed w ->
          forall (c : handle) (cs : list Calls.RwCall) (now' : Z),
            forallb (fun c => negb (Calls.rw_ends c)) cs = true ->
            exists txr wr,
              CustomTransaction.commit
                (fst (Calls.rw_run cs (CustomTransaction.create (Some c)) w'))
                now'
                (snd (Calls.rw_run cs (CustomTransaction.create (Some c)) w'))
              = (Ok tt, txr, wr))).
Proof.
  split.
  - intros W E tx tx' now w w' r. apply commit_conflict_iff.
  - intros tx tx' now w w' msg Hcommit.
    destruct (AloneFacts.conflict_writes_nothing _ _ _ _ _ _ Hcommit)
      as (Hl & Hc & Hnext).
    split; [exact Hl |]. split; [exact Hc |].
    split; [intros v; now rewrite Hl |].
    intros Hwf c cs now' Hcs.
    assert (Hwf' : MemKv.well_formed w').
    { unfold MemKv.well_formed in *. now rewrite Hl, Hc. }
    destruct (Calls.rw_run cs (CustomTransaction.create (Some c)) w')
      as [txe we] eqn:Hrun.
    simpl. eapply AloneFacts.running_commit.
    + eapply AloneFacts.running_run; [| exact Hcs | exact Hrun].
      now apply AloneFacts.running_fresh.
    + now rewrite Hc.
Qed.

(** A transaction read "k", was overtaken by a write to "k", and fails at
    commit with a conflict; the retry reads and writes again and commits. *)
Lemma conflict_reported_not_applied_retriable_witness :
  let cm := CustomTransaction.commit (fst Scenarios.reader_overtaken) 1002
                                     (snd Scenarios.reader_overtaken) in
  let retry := Calls.rw_run [Calls.RwGet "k"; Calls.RwSet "k" "mine"]
                            (CustomTransaction.create (Some 1%nat)) (snd cm) in
  cm = (makeError kConflict "transaction conflict", snd (fst cm), snd cm)
  /\ MemKv.well_formed (snd Scenarios.reader_overtaken)
  /\ forallb (fun c => negb (Calls.rw_ends c))
             [Calls.RwGet "k"; Calls.RwSet "k" "mine"] = true
  /\ MemKv.log (snd cm) = MemKv.log (snd Scenarios.reader_overtaken)
  /\ exists txr wr,
      CustomTransaction.commit (fst retry) 1003 (snd retry) = (Ok tt, txr, wr).
Proof.
  intros cm retry.
  assert (Hc : cm = (makeError kConflict "transaction conflict",
                     snd (fst cm), snd cm)) by reflexivity.
  assert (Hwf : MemKv.well_formed (snd Scenarios.reader_overtaken)).
  { unfold MemKv.well_formed. simpl. repeat constructor; simpl; lia. }
  assert (Hcs : forallb (fun c => negb (Calls.rw_ends c))
                        [Calls.RwGet "k"; Calls.RwSet "k" "mine"] = true)
    by reflexivity.
  split; [exact Hc |]. split; [exact Hwf |]. split; [exact Hcs |].
  destruct (proj2 conflict_reported_not_applied_retriable _ _ _ _ _ _ Hc)
    as (Hl & _ & _ & Hretry).
  split; [exact Hl |].
  exact (Hretry Hwf 1%nat _ 1003 Hcs).
Defined.

(** ** Where the code departs from the contract *)

(** C1, where the code breaks it.  A transaction begins (it reads "other"),
    declares "k" with [addReadConflict] and the range ["a", "z") with
    [addReadConflictRange], and is overtaken by a committed write to "k" at
    version 2, after its read version 1.  Its commit is accepted.  The same
    transaction with "k" read by [get] fails with [kConflict]: the two
    declaring methods send nothing to the engine. *)
Theorem declared_read_conflict_is_lost :
  let cm := CustomTransaction.commit (fst Scenarios.declarer_overtaken) 1002
                                     (snd Scenarios.declarer_overtaken) in
  let cm' := CustomTransaction.commit (fst Scenarios.reader_overtaken) 1002
                                      (snd Scenarios.reader_overtaken) in
  MemKv.log (snd Scenarios.declarer_overtaken)
  = [MemKv.mkLogEntry 2 "k" (Some "theirs"); MemKv.mkLogEntry 1 "k" (Some "old")]
  /\ option_map MemKv.tx_read_version
       (match CustomTransaction.transaction_handle_
                (fst Scenarios.declarer_overtaken) with
        | Some h => MemKv.assoc h (MemKv.txs (snd Scenarios.declarer_overtaken))
        | None => None
        end) = Some 1
  /\ fst (fst cm) = Ok tt
  /\ MemKv.commit_counter (snd cm) = 3
  /\ fst (fst cm') = makeError kConflict "transaction conflict".
Proof. repeat split; reflexivity. Qed.

(** C2, where the code breaks it.  One read-only transaction, no read version
    set, calls [snapshotGet("k")] twice; between the two calls another
    transaction commits a new value for "k".  The first call returns "old",
    the second "new": each call opens a read transaction of its own, at the
    latest version. *)
Theorem snapshot_moves_between_reads :
  let ro := Scenarios.new_read_only in
  let first := CustomReadOnlyTransaction.snapshotGet ro "k" Scenarios.world_k in
  let w := Scenarios.after [Calls.RwSet "k" "new"; Calls.RwCommit 1001]
                           (snd first) in
  let second := CustomReadOnlyTransaction.snapshotGet ro "k" w in
  fst first = Ok (Some "old")
  /\ fst second = Ok (Some "new")
  /\ fst first <> fst second.
Proof. repeat split; try reflexivity. simpl. discriminate. Qed.

(** With the read version set, the two reads of that scenario agree. *)
Lemma snapshot_pinned_by_read_version :
  let ro := CustomReadOnlyTransaction.setReadVersion 1 Scenarios.new_read_only in
  let first := CustomReadOnlyTransaction.snapshotGet ro "k" Scenarios.world_k in
  let w := Scenarios.after [Calls.RwSet "k" "new"; Calls.RwCommit 1001]
                           (snd first) in
  let second := CustomReadOnlyTransaction.snapshotGet ro "k" w in
  fst first = Ok (Some "old") /\ fst second = Ok (Some "old").
Proof. split; reflexivity. Qed.

(** C8, where the code breaks it.  The store holds "k"; the link loses the
    second request, the read itself.  [snapshotGet] of a read-only
    transaction and [get] of a read-write transaction both answer with a
    successful absent value, not with an error. *)
Theorem lost_read_reported_as_absent :
  let w : FaultyLink.World MemKv.World := ([false; true], Scenarios.world_k) in
  MemKv.lookup "k" (MemKv.store_at (MemKv.commit_counter Scenarios.world_k)
                                   (MemKv.log Scenarios.world_k))
  = Some "old"
  /\ fst (CustomReadOnlyTransaction.snapshotGet Scenarios.new_read_only "k" w)
     = Ok None
  /\ fst (fst (CustomTransaction.get Scenarios.new_read_write "k" w))
     = Ok None
  /\ fst (fst (CustomTransaction.snapshotGet Scenarios.new_read_write "k" w))
     = Ok None.
Proof. repeat split; reflexivity. Qed.

(** On a link that loses nothing the same reads return the value. *)
Lemma delivered_read_returns_value :
  let w : FaultyLink.World MemKv.World := ([], Scenarios.world_k) in
  fst (CustomReadOnlyTransaction.snapshotGet Scenarios.new_read_only "k" w)
  = Ok (Some "old")
  /\ fst (fst (CustomTransaction.get Scenarios.new_read_write "k" w))
     = Ok (Some "old").
Proof. split; reflexivity. Qed.



(** ** Reads the engine knows of do conflict *)

Module ConflictFacts.
Import MemKv OnMemKvState.

(** A read by [get] reaches the read set of the engine transaction. *)
Lemma get_records_read (cc : Z) (tx tx1 : CustomTransaction.t) (k : bytes)
      (w w1 : World) (r : Result (option bytes)) :
  fits k -> running cc tx w ->
  CustomTransaction.get tx k w = (r, tx1, w1) ->
  exists h st,
    CustomTransaction.finished tx1 = false
    /\ CustomTransaction.transaction_handle_ tx1 = Some h
    /\ assoc h (txs w1) = Some st
    /\ In (ReadKey k) (tx_reads st)
    /\ tx_read_version st = cc
    /\ log w1 = log w.
Proof.
  intros Hk Hrun Hget. pose proof Hrun as (Hfin & _).
  unfold CustomTransaction.get in Hget. rewrite Hfin in Hget.
  destruct (AloneFacts.running_ensure _ _ _ Hrun)
    as (h & tx' & w' & st & Hens & Hrun1 & Hh & Ha & Hrv).
  rewrite Hens in Hget. cbn [kv_transaction_get client] in Hget.
  unfold transaction_get in Hget.
  rewrite OnMemKv.received_span in Hget by exact Hk.
  rewrite Ha in Hget. cbn [success ok data] in Hget.
  destruct (OnMemKv.ensure_keeps_log _ _ _ _ _ Hens) as (Hl & _).
  destruct Hrun1 as (Hfin1 & _).
  exists h. eexists.
  destruct (lookup k _); inv Hget; simpl; rewrite Nat.eqb_refl;
    repeat split; simpl; auto.
Qed.

(** A transaction whose read set covers a key written after its read version
    fails at commit with [kConflict], while the commit counter has a next
    value. *)
Lemma overtaken_read_conflicts (tx : CustomTransaction.t) (now : Z) (w : World)
      (h : handle) (st : TxState) (rc : ReadConflict) (e : LogEntry) :
  CustomTransaction.finished tx = false ->
  CustomTransaction.transaction_handle_ tx = Some h ->
  assoc h (txs w) = Some st ->
  In rc (tx_reads st) -> covers (le_key e) rc = true ->
  In e (log w) -> tx_read_version st < le_version e ->
  commit_counter w + 1 < 2 ^ 64 ->
  CustomTransaction.commit tx now w
  = (makeError kConflict "transaction conflict",
     CustomTransaction.with_committed tx true,
     with_txs w (drop h (txs w))).
Proof.
  intros Hfin Hh Ha Hrc Hcov He Hlt Hnext.
  unfold CustomTransaction.finished in Hfin.
  apply orb_false_iff in Hfin. destruct Hfin as (Hfin & Hk).
  unfold CustomTransaction.commit. rewrite Hfin, Hk.
  rewrite (ensureTransaction_attached _ _ h) by exact Hh.
  cbn [kv_transaction_commit client]. unfold transaction_commit. rewrite Ha.
  destruct (Z.leb_spec (2 ^ 64) (commit_counter w + 1)); [lia |].
  assert (Hconf : conflicts st (log w) = true).
  { unfold conflicts. apply existsb_exists. exists e. split; [exact He |].
    apply andb_true_iff. split; [now apply Z.ltb_lt |].
    apply existsb_exists. eauto. }
  now rewrite Hconf.
Qed.

End ConflictFacts.

(** [get] of a read-only transaction is a placeholder: it answers with an
    absent value for a key the store holds. *)
Lemma read_only_get_is_a_placeholder :
  MemKv.lookup "k" (MemKv.store_at (MemKv.commit_counter Scenarios.world_k)
                                   (MemKv.log Scenarios.world_k))
  = Some "old"
  /\ CustomReadOnlyTransaction.get Scenarios.new_read_only "k" Scenarios.world_k
     = (Ok None, Scenarios.world_k).
Proof. split; reflexivity. Qed.

(** With [limit = 0] the two range reads disagree on the empty page: the
    read-only [snapshotGetRange] lacks the [count != 0] test of
    [getRange]. *)
Lemma empty_page_with_limit_zero :
  let b := mkKeySelector "x" true in
  let e := mkKeySelector "z" false in
  fst (CustomReadOnlyTransaction.snapshotGetRange
         Scenarios.new_read_only b e 0 Scenarios.world_ab)
  = Ok (mkGetRangeResult [] true)
  /\ fst (fst (CustomTransaction.getRange
                 Scenarios.new_read_write b e 0 Scenarios.world_ab))
     = Ok (mkGetRangeResult [] false).
Proof. split; reflexivity. Qed.

(** The transactions of the scenarios are those a healthy engine creates. *)
Lemma scenario_transactions :
  CustomKvEngine.createReadWriteTransaction Scenarios.engine
  = Some Scenarios.new_read_write
  /\ CustomKvEngine.createReadonlyTransaction Scenarios.engine
     = Some Scenarios.new_read_only.
Proof. split; reflexivity. Qed.

(** ** The requests of a transaction, over any client *)

Module SpyFacts.

Section Requests.
Context {W : Type} {E : KvClient W}.

Import Spy.

Lemma stage_after_app (qs rs : list Request) (st : Stage) :
  stage_after st (qs ++ rs)
  = match stage_after st qs with
    | Some st' => stage_after st' rs
    | None => None
    end.
Proof.
  revert st. induction qs as [| q qs IH]; simpl; intros st; [reflexivity |].
  destruct (step st q); auto.
Qed.

Lemma read_stage_after_app (qs rs : list Request) (st : ReadStage) :
  read_stage_after st (qs ++ rs)
  = match read_stage_after st qs with
    | Some st' => read_stage_after st' rs
    | None => None
    end.
Proof.
  revert st. induction qs as [| q qs IH]; simpl; intros st; [reflexivity |].
  destruct (read_step st q); auto.
Qed.

(** A record in turn holds at most one commit request, and none once the
    commit or the abort is out. *)
Lemma commits_bound (qs : list Request) (st st' : Stage) :
  stage_after st qs = Some st' ->
  (List.length (filter is_commit qs)
   <= match st with Unattached | Attached _ => 1 | _ => 0 end)%nat.
Proof.
  revert st. induction qs as [| q qs IH]; intros st Hrun.
  - simpl. destruct st; lia.
  - simpl in Hrun. destruct (step st q) as [st1 |] eqn:Hstep; [| discriminate].
    specialize (IH _ Hrun).
    destruct q; simpl in *;
      repeat match goal with
             | a : option handle |- _ => destruct a
             end;
      destruct st; simpl in *; try discriminate;
      repeat match goal with
             | H : (if ?b then _ else _) = Some _ |- _ => destruct b
             end;
      try discriminate;
      try (inv Hstep; simpl in *; lia).
Qed.

Ltac in_turn Ht :=
  try solve [repeat match goal with
                    | b : bool |- _ => destruct b
                    end; simpl in *; discriminate];
  simpl; repeat rewrite stage_after_app; rewrite ?Ht; simpl;
  rewrite ?Nat.eqb_refl; simpl;
  eexists; try (split; [reflexivity |]); simpl; auto using orb_true_r.

Ltac unfold_call Hcall :=
  simpl in Hcall;
  unfold CustomTransaction.snapshotGet, CustomTransaction.get,
    CustomTransaction.snapshotGetRange, CustomTransaction.getRange,
    CustomTransaction.addReadConflict, CustomTransaction.addReadConflictRange,
    CustomTransaction.set, CustomTransaction.clear,
    CustomTransaction.setVersionstampedKey,
    CustomTransaction.setVersionstampedValue, CustomTransaction.commit,
    CustomTransaction.cancel, CustomTransaction.ensureTransaction,
    CustomTransaction.finished, CustomTransaction.reset,
    CustomTransaction.setReadVersion in Hcall;
  simpl in Hcall; unfold begun, asked, told in Hcall; simpl in Hcall;
  repeat (break_match_hyp; simpl in *; try discriminate);
  repeat match goal with
         | Heq : (_, _) = (_, _) |- _ => inv Heq
         end;
  try discriminate.

(** One call keeps the record in turn and the fields in step with it. *)
Lemma rw_call_in_turn (c : Calls.RwCall) (tx tx' : CustomTransaction.t)
      (t t' : list Request) (w w' : W) (r : Calls.Reply) (st : Stage) :
  Calls.rw_call c tx (t, w) = (r, tx', (t', w')) ->
  stage_after Unattached t = Some st -> agrees tx st ->
  exists st', stage_after Unattached t' = Some st' /\ agrees tx' st'.
Proof.
  intros Hcall Ht Hag.
  destruct tx as [rv ca re co cv ch th].
  destruct st as [| h | h |]; simpl in Hag.
  - subst th. destruct c; unfold_call Hcall; in_turn Ht.
  - subst th. destruct c; unfold_call Hcall; in_turn Ht.
  - destruct Hag as [-> Hflag]. destruct c; unfold_call Hcall; in_turn Ht.
  - destruct Hag as [-> Hflag]. destruct c; unfold_call Hcall; in_turn Ht.
Qed.

Lemma rw_run_in_turn (cs : list Calls.RwCall) (tx : CustomTransaction.t)
      (t : list Request) (w : W) (st : Stage) :
  stage_after Unattached t = Some st -> agrees tx st ->
  exists st',
    stage_after Unattached (fst (snd (Calls.rw_run cs tx (t, w)))) = Some st'
    /\ agrees (fst (Calls.rw_run cs tx (t, w))) st'.
Proof.
  revert tx t w st. induction cs as [| c cs IH]; intros tx t w st Ht Hag.
  - exists st. auto.
  - simpl. destruct (Calls.rw_call c tx (t, w)) as [[r tx1] [t1 w1]] eqn:Hcall.
    destruct (rw_call_in_turn _ _ _ _ _ _ _ _ _ Hcall Ht Hag) as (st1 & Ht1 & Hag1).
    eapply IH; eauto.
Qed.

(** Writing the requests down changes no answer, no field and nothing in the
    client below. *)
Lemma rw_call_transparent (c : Calls.RwCall) (tx : CustomTransaction.t)
      (t : list Request) (w : W) :
  Calls.rw_call c tx w
  = (fst (fst (Calls.rw_call c tx (t, w))),
     snd (fst (Calls.rw_call c tx (t, w))),
     snd (snd (Calls.rw_call c tx (t, w)))).
Proof.
  destruct tx as [rv ca re co cv ch th].
  destruct c; simpl;
    unfold CustomTransaction.snapshotGet, CustomTransaction.get,
      CustomTransaction.snapshotGetRange, CustomTransaction.getRange,
      CustomTransaction.addReadConflict, CustomTransaction.addReadConflictRange,
      CustomTransaction.set, CustomTransaction.clear,
      CustomTransaction.setVersionstampedKey,
      CustomTransaction.setVersionstampedValue, CustomTransaction.commit,
      CustomTransaction.cancel, CustomTransaction.ensureTransaction,
      CustomTransaction.finished;
    simpl; unfold begun, asked, told; simpl;
    repeat match goal with
           | |- context [match ?x with _ => _ end] =>
             lazymatch x with
             | context [match _ with _ => _ end] => fail
             | _ => destruct x eqn:?; simpl
             end
           | |- context [if ?x then _ else _] =>
             lazymatch x with
             | context [match _ with _ => _ end] => fail
             | _ => destruct x eqn:?; simpl
             end
           end;
    reflexivity.
Qed.

Lemma rw_run_transparent (cs : list Calls.RwCall) (tx : CustomTransaction.t)
      (t : list Request) (w : W) :
  Calls.rw_run cs tx w
  = (fst (Calls.rw_run cs tx (t, w)), snd (snd (Calls.rw_run cs tx (t, w)))).
Proof.
  revert tx t w. induction cs as [| c cs IH]; intros tx t w; [reflexivity |].
  simpl. rewrite (rw_call_transparent c tx t w).
  destruct (Calls.rw_call c tx (t, w)) as [[r tx1] [t1 w1]]. simpl. apply IH.
Qed.

End Requests.

End SpyFacts.

(** X1.  Whatever methods are called on a new read-write transaction, in
    whatever order, and whatever the client answers, the requests the
    transaction sends follow one life cycle: begin requests until one is
    answered with a handle, then reads and writes on that handle and no
    other, then at most one commit request, then at most one abort request,
    and nothing after the abort.  In particular no run sends two commit
    requests.  Recording the requests changes neither the transaction nor the
    client. *)
Theorem requests_follow_one_life_cycle :
  forall (W : Type) (E : KvClient W) (cs : list Calls.RwCall)
         (client_handle : option handle) (w : W),
    let run := Calls.rw_run cs (CustomTransaction.create client_handle)
                            (([] : list Spy.Request), w) in
    (exists st, Spy.stage_after Spy.Unattached (fst (snd run)) = Some st)
    /\ (List.length (filter Spy.is_commit (fst (snd run))) <= 1)%nat
    /\ (fst run, snd (snd run))
       = Calls.rw_run cs (CustomTransaction.create client_handle) w.
Proof.
  intros W E cs client_handle w run.
  destruct (SpyFacts.rw_run_in_turn cs (CustomTransaction.create client_handle)
              [] w Spy.Unattached eq_refl eq_refl) as (st & Hst & _).
  fold run in Hst. split; [eauto |]. split.
  - apply (SpyFacts.commits_bound _ _ _ Hst).
  - symmetry. apply SpyFacts.rw_run_transparent.
Qed.


(** ** Read transactions are opened for one read and closed *)

Module SpyReadFacts.

Section Reads.
Context {W : Type} {E : KvClient W}.

Import Spy.

Ltac unfold_methods Hcall :=
  simpl in Hcall;
  unfold CustomTransaction.snapshotGet, CustomTransaction.get,
    CustomTransaction.snapshotGetRange, CustomTransaction.getRange,
    CustomTransaction.addReadConflict, CustomTransaction.addReadConflictRange,
    CustomTransaction.set, CustomTransaction.clear,
    CustomTransaction.setVersionstampedKey,
    CustomTransaction.setVersionstampedValue, CustomTransaction.commit,
    CustomTransaction.cancel, CustomTransaction.ensureTransaction,
    CustomTransaction.finished, CustomTransaction.reset,
    CustomTransaction.setReadVersion,
    CustomReadOnlyTransaction.snapshotGet, CustomReadOnlyTransaction.get,
    CustomReadOnlyTransaction.snapshotGetRange,
    CustomReadOnlyTransaction.getRange, CustomReadOnlyTransaction.cancel,
    CustomReadOnlyTransaction.finished in Hcall;
  simpl in Hcall; unfold begun, asked, told in Hcall; simpl in Hcall;
  repeat (break_match_hyp; simpl in *; try discriminate);
  repeat match goal with
         | Heq : (_, _) = (_, _) |- _ => inv Heq
         end;
  try discriminate.

Ltac closed Ht :=
  simpl; repeat rewrite SpyFacts.read_stage_after_app; rewrite ?Ht; simpl;
  rewrite ?Nat.eqb_refl; simpl; auto.

Lemma rw_call_closed (c : Calls.RwCall) (tx tx' : CustomTransaction.t)
      (t t' : list Request) (w w' : W) (r : Calls.Reply) :
  Calls.rw_call c tx (t, w) = (r, tx', (t', w')) ->
  read_stage_after Closed t = Some Closed ->
  read_stage_after Closed t' = Some Closed.
Proof.
  intros Hcall Ht. destruct tx as [rv ca re co cv ch th].
  destruct c; unfold_methods Hcall; closed Ht.
Qed.

Lemma ro_call_closed (c : Calls.RoCall) (tx tx' : CustomReadOnlyTransaction.t)
      (t t' : list Request) (w w' : W) (r : Calls.Reply) :
  Calls.ro_call c tx (t, w) = (r, tx', (t', w')) ->
  read_stage_after Closed t = Some Closed -> only_reads t = true ->
  read_stage_after Closed t' = Some Closed /\ only_reads t' = true.
Proof.
  intros Hcall Ht Ho. destruct tx as [rv ca re ch].
  destruct c; unfold_methods Hcall;
    (split; [closed Ht |]); unfold only_reads in *;
    cbn [fst snd]; repeat rewrite forallb_app; rewrite ?Ho; auto.
Qed.

Lemma rw_run_closed (cs : list Calls.RwCall) (tx : CustomTransaction.t)
      (t : list Request) (w : W) :
  read_stage_after Closed t = Some Closed ->
  read_stage_after Closed (fst (snd (Calls.rw_run cs tx (t, w)))) = Some Closed.
Proof.
  revert tx t w. induction cs as [| c cs IH]; intros tx t w Ht; [exact Ht |].
  simpl. destruct (Calls.rw_call c tx (t, w)) as [[r tx1] [t1 w1]] eqn:Hcall.
  apply IH. eapply rw_call_closed; eauto.
Qed.

Lemma ro_run_closed (cs : list Calls.RoCall) (tx : CustomReadOnlyTransaction.t)
      (t : list Request) (w : W) :
  read_stage_after Closed t = Some Closed -> only_reads t = true ->
  read_stage_after Closed (fst (snd (Calls.ro_run cs tx (t, w)))) = Some Closed
  /\ only_reads (fst (snd (Calls.ro_run cs tx (t, w)))) = true.
Proof.
  revert tx t w. induction cs as [| c cs IH]; intros tx t w Ht Ho; [auto |].
  simpl. destruct (Calls.ro_call c tx (t, w)) as [[r tx1] [t1 w1]] eqn:Hcall.
  destruct (ro_call_closed _ _ _ _ _ _ _ _ Hcall Ht Ho). apply IH; auto.
Qed.

End Reads.

End SpyReadFacts.


(** X2.  No call returns with a read transaction of the engine left open:
    whatever is called on a read-only transaction, the requests of the calls
    that returned are begin requests of read transactions, each one answered
    with a handle followed by exactly one read on that handle and then its
    destroy request, also when the read failed; a read-only transaction
    sends nothing else.  The read transactions a read-write transaction
    opens for [snapshotGet] are closed the same way.  (The wait for a future
    is part of the request here; a wait that throws is not a return.) *)
Theorem read_transactions_are_closed :
  forall (W : Type) (E : KvClient W),
    (forall (cs : list Calls.RoCall) (tx : CustomReadOnlyTransaction.t) (w : W),
        let sent := fst (snd (Calls.ro_run cs tx (([] : list Spy.Request), w))) in
        Spy.read_stage_after Spy.Closed sent = Some Spy.Closed
        /\ Spy.only_reads sent = true)
    /\
    (forall (cs : list Calls.RwCall) (tx : CustomTransaction.t) (w : W),
        Spy.read_stage_after Spy.Closed
          (fst (snd (Calls.rw_run cs tx (([] : list Spy.Request), w))))
        = Some Spy.Closed).
Proof.
  intros W E; split.
  - intros cs tx w sent. apply SpyReadFacts.ro_run_closed; reflexivity.
  - intros cs tx w. apply SpyReadFacts.rw_run_closed; reflexivity.
Qed.

(** ** Transactions without a client, the read version, and the end *)

Module FrameFacts.

Section Frame.
Context {W : Type} {E : KvClient W}.

Ltac unfold_all :=
  unfold CustomTransaction.snapshotGet, CustomTransaction.get,
    CustomTransaction.snapshotGetRange, CustomTransaction.getRange,
    CustomTransaction.addReadConflict, CustomTransaction.addReadConflictRange,
    CustomTransaction.set, CustomTransaction.clear,
    CustomTransaction.setVersionstampedKey,
    CustomTransaction.setVersionstampedValue, CustomTransaction.commit,
    CustomTransaction.cancel, CustomTransaction.ensureTransaction,
    CustomTransaction.finished, CustomTransaction.reset,
    CustomTransaction.setReadVersion,
    CustomReadOnlyTransaction.snapshotGet, CustomReadOnlyTransaction.get,
    CustomReadOnlyTransaction.snapshotGetRange,
    CustomReadOnlyTransaction.getRange, CustomReadOnlyTransaction.cancel,
    CustomReadOnlyTransaction.reset, CustomReadOnlyTransaction.setReadVersion,
    CustomReadOnlyTransaction.finished in *.

Ltac split_goal :=
  repeat match goal with
         | |- context [match ?x with _ => _ end] =>
           lazymatch x with
           | context [match _ with _ => _ end] => fail
           | _ => destruct x eqn:?; simpl
           end
         | |- context [if ?x then _ else _] =>
           lazymatch x with
           | context [match _ with _ => _ end] => fail
           | _ => destruct x eqn:?; simpl
           end
         end.

(** Without a client handle no call reaches the client. *)
Lemma rw_call_no_client (c : Calls.RwCall) (tx : CustomTransaction.t) (w : W) :
  CustomTransaction.client_handle_ tx = None ->
  CustomTransaction.transaction_handle_ tx = None ->
  snd (Calls.rw_call c tx w) = w
  /\ CustomTransaction.client_handle_ (snd (fst (Calls.rw_call c tx w))) = None
  /\ CustomTransaction.transaction_handle_ (snd (fst (Calls.rw_call c tx w)))
     = None.
Proof.
  destruct tx as [rv ca re co cv ch th]; simpl; intros -> ->.
  destruct c; simpl; unfold_all; simpl; split_goal; auto.
Qed.

Lemma rw_run_no_client (cs : list Calls.RwCall) (tx : CustomTransaction.t)
      (w : W) :
  CustomTransaction.client_handle_ tx = None ->
  CustomTransaction.transaction_handle_ tx = None ->
  snd (Calls.rw_run cs tx w) = w.
Proof.
  revert tx. induction cs as [| c cs IH]; intros tx Hc Ht; [reflexivity |].
  simpl. destruct (rw_call_no_client c tx w Hc Ht) as (Hw & Hc1 & Ht1).
  destruct (Calls.rw_call c tx w) as [[r tx1] w1]. simpl in *. subst w1.
  now apply IH.
Qed.

Lemma ro_call_no_client (c : Calls.RoCall) (tx : CustomReadOnlyTransaction.t)
      (w : W) :
  CustomReadOnlyTransaction.client_handle_ tx = None ->
  snd (Calls.ro_call c tx w) = w
  /\ CustomReadOnlyTransaction.client_handle_ (snd (fst (Calls.ro_call c tx w)))
     = None.
Proof.
  destruct tx as [rv ca re ch]; simpl; intros ->.
  destruct c; simpl; unfold_all; simpl; split_goal; auto.
Qed.

Lemma ro_run_no_client (cs : list Calls.RoCall)
      (tx : CustomReadOnlyTransaction.t) (w : W) :
  CustomReadOnlyTransaction.client_handle_ tx = None ->
  snd (Calls.ro_run cs tx w) = w.
Proof.
  revert tx. induction cs as [| c cs IH]; intros tx Hc; [reflexivity |].
  simpl. destruct (ro_call_no_client c tx w Hc) as (Hw & Hc1).
  destruct (Calls.ro_call c tx w) as [[r tx1] w1]. simpl in *. subst w1.
  now apply IH.
Qed.

(** The read version is a field that only [snapshotGet] reads. *)
Lemma rw_call_read_version (c : Calls.RwCall) (v : Z)
      (tx : CustomTransaction.t) (w : W) :
  Calls.rw_touches_read_version c = false ->
  Calls.rw_call c (CustomTransaction.setReadVersion v tx) w
  = (fst (fst (Calls.rw_call c tx w)),
     CustomTransaction.setReadVersion v (snd (fst (Calls.rw_call c tx w))),
     snd (Calls.rw_call c tx w)).
Proof.
  destruct tx as [rv ca re co cv ch th].
  destruct c; try discriminate; intros _; simpl; unfold_all; simpl;
    split_goal; reflexivity.
Qed.

(** [cancelled_ || reset_] once true stays true. *)
Lemma ended_stable (c : Calls.RwCall) (tx : CustomTransaction.t) (w : W) :
  CustomTransaction.cancelled_ tx || CustomTransaction.reset_ tx = true ->
  CustomTransaction.cancelled_ (snd (fst (Calls.rw_call c tx w)))
  || CustomTransaction.reset_ (snd (fst (Calls.rw_call c tx w))) = true.
Proof.
  destruct tx as [rv ca re co cv ch th]; simpl; intros Hend.
  destruct c; simpl; unfold_all; simpl; split_goal; auto using orb_true_r;
    destruct ca, re; simpl in *; try discriminate; auto.
Qed.

Lemma ended_run (cs : list Calls.RwCall) (tx : CustomTransaction.t) (w : W) :
  CustomTransaction.cancelled_ tx || CustomTransaction.reset_ tx = true ->
  CustomTransaction.cancelled_ (fst (Calls.rw_run cs tx w))
  || CustomTransaction.reset_ (fst (Calls.rw_run cs tx w)) = true.
Proof.
  revert tx w. induction cs as [| c cs IH]; intros tx w Hend; [exact Hend |].
  simpl. pose proof (ended_stable c tx w Hend) as Hend1.
  destruct (Calls.rw_call c tx w) as [[r tx1] w1]. simpl in *. now apply IH.
Qed.

Lemma ends_ended (c : Calls.RwCall) (tx : CustomTransaction.t) (w : W) :
  c = Calls.RwCancel \/ c = Calls.RwReset ->
  CustomTransaction.cancelled_ (snd (fst (Calls.rw_call c tx w)))
  || CustomTransaction.reset_ (snd (fst (Calls.rw_call c tx w))) = true.
Proof.
  destruct tx as [rv ca re co cv ch th].
  intros [-> | ->]; simpl; unfold_all; simpl; split_goal; auto using orb_true_r.
Qed.

Lemma commit_ended (tx : CustomTransaction.t) (now : Z) (w : W) :
  CustomTransaction.cancelled_ tx || CustomTransaction.reset_ tx = true ->
  CustomTransaction.commit tx now w
  = (makeError kInvalidArg "Transaction is cancelled or reset", tx, w).
Proof. unfold CustomTransaction.commit; intros ->; reflexivity. Qed.

Lemma commit_after_end (pre mid : list Calls.RwCall) (e : Calls.RwCall)
      (tx : CustomTransaction.t) (now : Z) (w : W) :
  e = Calls.RwCancel \/ e = Calls.RwReset ->
  CustomTransaction.commit (fst (Calls.rw_run (pre ++ e :: mid) tx w)) now
                           (snd (Calls.rw_run (pre ++ e :: mid) tx w))
  = (makeError kInvalidArg "Transaction is cancelled or reset",
     fst (Calls.rw_run (pre ++ e :: mid) tx w),
     snd (Calls.rw_run (pre ++ e :: mid) tx w)).
Proof.
  intros He. apply commit_ended. rewrite rw_run_app.
  destruct (Calls.rw_run pre tx w) as [tx1 w1]. simpl.
  pose proof (ends_ended e tx1 w1 He) as Hend.
  destruct (Calls.rw_call e tx1 w1) as [[r tx2] w2]. simpl in Hend.
  now apply ended_run.
Qed.

End Frame.

End FrameFacts.

(** X3.  A transaction object built with a null client handle never reaches
    the client: whatever methods are called on it, read-write or read-only,
    the state of the client is left as it was. *)
Theorem null_client_handle_sends_nothing :
  forall (W : Type) (E : KvClient W) (w : W),
    (forall cs : list Calls.RwCall,
        snd (Calls.rw_run cs (CustomTransaction.create None) w) = w)
    /\
    (forall cs : list Calls.RoCall,
        snd (Calls.ro_run cs (CustomReadOnlyTransaction.create None) w) = w).
Proof.
  intros W E w; split; intros cs.
  - apply FrameFacts.rw_run_no_client; reflexivity.
  - apply FrameFacts.ro_run_no_client; reflexivity.
Qed.

(** X4.  In a read-write transaction the version given to [setReadVersion]
    reaches [snapshotGet] and nothing else: every other method - [get],
    [getRange], also [snapshotGetRange], the writes, [cancel] and [commit] -
    answers the same, sends the same to the client and leaves the same
    fields, whether or not a read version was set before the call. *)
Theorem read_version_reaches_snapshotGet_only :
  forall (W : Type) (E : KvClient W) (c : Calls.RwCall) (v : Z)
         (tx : CustomTransaction.t) (w : W),
    Calls.rw_touches_read_version c = false ->
    Calls.rw_call c (CustomTransaction.setReadVersion v tx) w
    = (fst (fst (Calls.rw_call c tx w)),
       CustomTransaction.setReadVersion v (snd (fst (Calls.rw_call c tx w))),
       snd (Calls.rw_call c tx w)).
Proof. intros W E c v tx w Hc. now apply FrameFacts.rw_call_read_version. Qed.

(** A snapshot range read of "a".."z" with read version 1 on the service that
    holds "k", committed at version 1 and overwritten at version 2. *)
Lemma read_version_reaches_snapshotGet_only_witness :
  let c := Calls.RwSnapshotGetRange (mkKeySelector "a" true)
                                    (mkKeySelector "z" false) 10 in
  let w := Scenarios.after [Calls.RwSet "k" "new"; Calls.RwCommit 1001]
                           Scenarios.world_k in
  Calls.rw_touches_read_version c = false
  /\ Calls.rw_call c (CustomTransaction.setReadVersion 1
                        Scenarios.new_read_write) w
     = (fst (fst (Calls.rw_call c Scenarios.new_read_write w)),
        CustomTransaction.setReadVersion 1
          (snd (fst (Calls.rw_call c Scenarios.new_read_write w))),
        snd (Calls.rw_call c Scenarios.new_read_write w)).
Proof.
  intros c w. split; [reflexivity |].
  exact (read_version_reaches_snapshotGet_only MemKv.World MemKv.client c 1
           Scenarios.new_read_write w eq_refl).
Defined.

(** X5.  A read-write transaction that was cancelled or reset can never be
    committed: after a call of [cancel] or of [reset], whatever was called
    before or since, [commit] answers [kInvalidArg] with the message
    "Transaction is cancelled or reset" and leaves the transaction and the
    client untouched. *)
Theorem ended_transaction_cannot_commit :
  forall (W : Type) (E : KvClient W) (pre mid : list Calls.RwCall)
         (tx : CustomTransaction.t) (now : Z) (w : W),
    (let s := Calls.rw_run (pre ++ Calls.RwCancel :: mid) tx w in
     CustomTransaction.commit (fst s) now (snd s)
     = (makeError kInvalidArg "Transaction is cancelled or reset",
        fst s, snd s))
    /\
    (let s := Calls.rw_run (pre ++ Calls.RwReset :: mid) tx w in
     CustomTransaction.commit (fst s) now (snd s)
     = (makeError kInvalidArg "Transaction is cancelled or reset",
        fst s, snd s)).
Proof.
  intros W E pre mid tx now w; split; cbv zeta;
    apply FrameFacts.commit_after_end; auto.
Qed.


(** ** The engine and its client *)

Module EngineFacts.

Import CustomKvEngineImpl.

Lemma held_after_app (primary : option string) (qs rs : list Request)
      (held : option handle) :
  held_after primary held (qs ++ rs)
  = match held_after primary held qs with
    | Some held' => held_after primary held' rs
    | None => None
    end.
Proof.
  revert held. induction qs as [| q qs IH]; simpl; intros held; [reflexivity |].
  destruct (step primary held q); auto.
Qed.

Section Engine.
Context {L : Type} {Lib : KvLibrary L}.

Lemma initialize_consistent (endpoints : list string) (e : CustomKvEngine.t)
      (l : L) :
  CustomKvEngine.client_handle_ e = None ->
  CustomKvEngineImpl.consistent (fst (initialize endpoints e l)).
Proof.
  unfold initialize, CustomKvEngineImpl.consistent; intros He.
  destruct (kv_init l) as [r l1].
  destruct (negb (r =? 0)); simpl; [rewrite He; split; congruence |].
  destruct endpoints as [| p ps]; simpl; [rewrite He; split; congruence |].
  destruct (kv_client_create p l1) as [[h |] l2]; simpl;
    [| split; congruence].
  destruct (kv_client_ping h "hello" l2) as [[f |] l3]; simpl;
    split; congruence.
Qed.

Lemma cleanup_releases (e : CustomKvEngine.t) (l : L) :
  fst (cleanup e l) = CustomKvEngine.mk false None.
Proof. unfold cleanup. destruct (CustomKvEngine.client_handle_ e); reflexivity. Qed.

End Engine.

Section EngineRuns.
Context {L : Type} {Lib : KvLibrary L}.

Lemma reconnected_consistent (n : nat) (endpoints : list string) (l : L) :
  CustomKvEngineImpl.consistent (fst (reconnected n endpoints l)).
Proof.
  destruct n as [| n]; simpl.
  - now apply initialize_consistent.
  - destruct (reconnected n endpoints l) as [e l1]. unfold reconnect.
    pose proof (cleanup_releases e l1) as Hc.
    destruct (cleanup e l1) as [e1 l2]. simpl in Hc. subst e1.
    now apply initialize_consistent.
Qed.

Lemma initialize_in_turn (endpoints : list string) (e : CustomKvEngine.t)
      (t : list Request) (l : L) :
  CustomKvEngine.client_handle_ e = None ->
  held_after (hd_error endpoints) None t = Some None ->
  held_after (hd_error endpoints) None
             (fst (snd (initialize endpoints e (t, l))))
  = Some (CustomKvEngine.client_handle_ (fst (initialize endpoints e (t, l)))).
Proof.
  unfold initialize; intros He Ht. simpl.
  remember (hd_error endpoints) as primary eqn:Hp.
  destruct (kv_init l) as [r l1]. simpl.
  destruct (negb (r =? 0)); simpl;
    [rewrite held_after_app, Ht, He; reflexivity |].
  destruct endpoints as [| p ps]; simpl;
    [rewrite held_after_app, Ht, He; reflexivity |].
  simpl in Hp. subst primary.
  destruct (kv_client_create p l1) as [[h |] l2]; simpl.
  - destruct (kv_client_ping h "hello" l2) as [[f |] l3]; simpl;
      repeat rewrite held_after_app; rewrite Ht; simpl;
      rewrite String.eqb_refl; simpl; rewrite Nat.eqb_refl; simpl;
      rewrite ?Nat.eqb_refl; reflexivity.
  - repeat rewrite held_after_app; rewrite Ht; simpl.
    rewrite String.eqb_refl. reflexivity.
Qed.

Lemma cleanup_in_turn (primary : option string) (e : CustomKvEngine.t)
      (t : list Request) (l : L) :
  held_after primary None t = Some (CustomKvEngine.client_handle_ e) ->
  held_after primary None (fst (snd (cleanup e (t, l)))) = Some None.
Proof.
  unfold cleanup; intros Ht.
  destruct (CustomKvEngine.client_handle_ e) as [h |]; simpl; [| exact Ht].
  rewrite held_after_app, Ht. simpl. rewrite Nat.eqb_refl. reflexivity.
Qed.

Lemma reconnected_in_turn (n : nat) (endpoints : list string) (l : L) :
  held_after (hd_error endpoints) None
             (fst (snd (reconnected n endpoints (([] : list Request), l))))
  = Some (CustomKvEngine.client_handle_
            (fst (reconnected n endpoints (([] : list Request), l)))).
Proof.
  induction n as [| n IH]; simpl.
  - unfold construct. now apply initialize_in_turn.
  - destruct (reconnected n endpoints ([], l)) as [e [t l1]]. simpl in IH.
    unfold reconnect.
    pose proof (cleanup_releases e (t, l1)) as Hc.
    pose proof (cleanup_in_turn _ e t l1 IH) as Ht.
    destruct (cleanup e (t, l1)) as [e1 [t1 l2]]. simpl in Hc, Ht. subst e1.
    now apply initialize_in_turn.
Qed.

End EngineRuns.

End EngineFacts.


(** ** Transaction identifiers *)

Module IdFacts.

Import CustomKvEngineImpl.

Lemma append_assoc (a b c : string) : ((a ++ b) ++ c = a ++ (b ++ c))%string.
Proof. induction a as [| x a IH]; simpl; [reflexivity | now rewrite IH]. Qed.

Lemma separator_in (y b : string) :
  In "_"%char (list_ascii_of_string (y ++ String "_" b)).
Proof. induction y as [| c y IH]; simpl; auto. Qed.

(** The field after the last separator. *)
Lemma last_field (x y a b : string) :
  ~ In "_"%char (list_ascii_of_string a) ->
  ~ In "_"%char (list_ascii_of_string b) ->
  (x ++ String "_" a = y ++ String "_" b)%string -> a = b.
Proof.
  intros Ha Hb. revert y.
  induction x as [| c x IH]; intros [| d y]; simpl; intros Heq.
  - now inv Heq.
  - inv Heq. exfalso. apply Ha. apply separator_in.
  - inv Heq. exfalso. apply Hb. apply separator_in.
  - inv Heq. eauto.
Qed.

Lemma digits_no_separator (d : Decimal.uint) :
  ~ In "_"%char (list_ascii_of_string (NilEmpty.string_of_uint d)).
Proof.
  induction d; simpl; intros Hin; try (destruct Hin as [Heq | Hin];
    [discriminate Heq | auto]); auto.
Qed.

Lemma fmt_int_no_separator (n : Z) :
  ~ In "_"%char (list_ascii_of_string (CustomTransaction.fmt_int n)).
Proof.
  unfold CustomTransaction.fmt_int, NilZero.string_of_int, NilZero.string_of_uint.
  destruct (Z.to_int n) as [d | d]; destruct d eqn:Hd; simpl;
    try (intros [Heq | []]; discriminate Heq);
    intros Hin;
    repeat match goal with
           | H : _ \/ _ |- _ => destruct H as [Heq | H]; [discriminate Heq |]
           end;
    try (now apply digits_no_separator in Hin); auto.
Qed.

(** [fmt::format("{}", n)] tells the integers apart. *)
Lemma fmt_int_inj (a b : Z) :
  CustomTransaction.fmt_int a = CustomTransaction.fmt_int b -> a = b.
Proof.
  unfold CustomTransaction.fmt_int; intros Heq.
  assert (Hnn : forall z, Z.to_int z <> Decimal.Pos Decimal.Nil
                          /\ Z.to_int z <> Decimal.Neg Decimal.Nil).
  { intros [| p | p]; simpl; split; try discriminate; intros Hp; inv Hp;
      now apply (DecimalPos.Unsigned.to_uint_nonnil p). }
  pose proof (NilZero.isi (Z.to_int a) (proj1 (Hnn a)) (proj2 (Hnn a))) as Ha.
  pose proof (NilZero.isi (Z.to_int b) (proj1 (Hnn b)) (proj2 (Hnn b))) as Hb.
  rewrite Heq, Hb in Ha. inv Ha. now apply DecimalZ.to_int_inj.
Qed.

Lemma id_shape (timestamp thread_id counter : Z) :
  fst (generateTransactionId timestamp thread_id counter)
  = (("txn_" ++ CustomTransaction.fmt_int timestamp
             ++ "_" ++ CustomTransaction.fmt_int thread_id)
       ++ String "_" (CustomTransaction.fmt_int counter))%string.
Proof.
  unfold generateTransactionId. cbn [fst].
  repeat rewrite append_assoc. reflexivity.
Qed.

Lemma id_counter (ts1 th1 c1 ts2 th2 c2 : Z) :
  fst (generateTransactionId ts1 th1 c1) = fst (generateTransactionId ts2 th2 c2) ->
  c1 = c2.
Proof.
  rewrite !id_shape. intros Heq. apply fmt_int_inj.
  eapply last_field; [| | exact Heq]; apply fmt_int_no_separator.
Qed.

(** The identifiers handed out later carry later values of the counter. *)
Lemma generated_counter (calls : list (Z * Z)) (counter : Z) (id : string) :
  0 <= counter < 2 ^ 64 ->
  In id (generated calls counter) ->
  exists timestamp thread_id j,
    0 <= j < Z.of_nat (List.length calls)
    /\ id = fst (generateTransactionId timestamp thread_id
                                       ((counter + j) mod 2 ^ 64)).
Proof.
  revert counter. induction calls as [| [ts th] r IH]; intros c Hc Hin.
  - destruct Hin.
  - cbn [generated generateTransactionId] in Hin. destruct Hin as [<- | Hin].
    + exists ts, th, 0. split; [cbn [List.length]; lia |].
      rewrite Z.add_0_r, Z.mod_small by exact Hc. reflexivity.
    + apply IH in Hin; [| apply Z.mod_pos_bound; lia].
      destruct Hin as (ts' & th' & j & Hj & ->).
      exists ts', th', (1 + j). split; [cbn [List.length]; lia |].
      rewrite Zplus_mod_idemp_l. do 2 f_equal. f_equal. lia.
Qed.

Lemma counter_moves (c d : Z) :
  0 <= c < 2 ^ 64 -> 0 < d < 2 ^ 64 -> (c + d) mod 2 ^ 64 <> c.
Proof.
  intros Hc Hd Heq.
  destruct (Z_lt_ge_dec (c + d) (2 ^ 64)) as [Hlt | Hge].
  - rewrite Z.mod_small in Heq by lia. lia.
  - assert (Hm : (c + d) mod 2 ^ 64 = c + d - 2 ^ 64).
    { symmetry. apply (Z.mod_unique _ _ 1); lia. }
    lia.
Qed.

Lemma generated_NoDup (calls : list (Z * Z)) (counter : Z) :
  0 <= counter < 2 ^ 64 ->
  Z.of_nat (List.length calls) <= 2 ^ 64 ->
  NoDup (generated calls counter).
Proof.
  revert counter. induction calls as [| [ts th] r IH]; intros c Hc Hlen.
  - constructor.
  - cbn [generated generateTransactionId]. cbn [List.length] in Hlen.
    constructor.
    + intros Hin. apply generated_counter in Hin; [| apply Z.mod_pos_bound; lia].
      destruct Hin as (ts' & th' & j & Hj & Heq).
      change ("txn_" ++ CustomTransaction.fmt_int ts ++ "_"
                     ++ CustomTransaction.fmt_int th ++ "_"
                     ++ CustomTransaction.fmt_int c)%string
        with (fst (generateTransactionId ts th c)) in Heq.
      apply id_counter in Heq. rewrite Zplus_mod_idemp_l in Heq.
      apply (counter_moves c (1 + j)); [exact Hc | lia |].
      rewrite Heq. f_equal. lia.
    + apply IH; [apply Z.mod_pos_bound; lia | lia].
Qed.

End IdFacts.

(** X6.  After its construction and after every [reconnect], the engine is
    healthy exactly when it holds a client handle.  So it hands out a
    transaction exactly when it is healthy, every transaction it hands out
    carries that non-null client handle, and an unhealthy engine hands out
    none. *)
Theorem healthy_engine_holds_a_client :
  forall (L : Type) (Lib : KvLibrary L) (endpoints : list string) (l : L)
         (n : nat),
    let e := fst (CustomKvEngineImpl.reconnected n endpoints l) in
    (CustomKvEngineImpl.isHealthy e = true
     <-> CustomKvEngineImpl.getClientHandle e <> None)
    /\ (forall tx, CustomKvEngine.createReadWriteTransaction e = Some tx ->
                   exists h, CustomKvEngineImpl.getClientHandle e = Some h
                             /\ tx = CustomTransaction.create (Some h))
    /\ (forall tx, CustomKvEngine.createReadonlyTransaction e = Some tx ->
                   exists h, CustomKvEngineImpl.getClientHandle e = Some h
                             /\ tx = CustomReadOnlyTransaction.create (Some h))
    /\ (CustomKvEngineImpl.isHealthy e = false ->
        CustomKvEngine.createReadWriteTransaction e = None
        /\ CustomKvEngine.createReadonlyTransaction e = None).
Proof.
  intros L Lib endpoints l n e.
  pose proof (EngineFacts.reconnected_consistent n endpoints l) as Hc.
  fold e in Hc. unfold CustomKvEngineImpl.consistent in Hc.
  unfold CustomKvEngineImpl.isHealthy, CustomKvEngineImpl.getClientHandle,
    CustomKvEngine.createReadWriteTransaction,
    CustomKvEngine.createReadonlyTransaction.
  split; [exact Hc |].
  destruct (CustomKvEngine.healthy_ e) eqn:Hh.
  - destruct (CustomKvEngine.client_handle_ e) as [h |] eqn:Hch.
    + repeat split; try discriminate; intros tx Htx; inv Htx; eauto.
    + exfalso. now apply (proj1 Hc).
  - repeat split; intros; discriminate.
Qed.

(** X7.  The engine holds at most one client of the library at a time.
    Over its construction and any number of calls of [reconnect], whatever
    the library answers: a client is created only while none is held and
    only for the first configured endpoint; only the client held is pinged,
    with "hello", and destroyed; and the client held at the end is the one
    in [client_handle_]. *)
Theorem engine_holds_one_client_at_a_time :
  forall (L : Type) (Lib : KvLibrary L) (endpoints : list string) (l : L)
         (n : nat),
    let run := CustomKvEngineImpl.reconnected
                 n endpoints (([] : list CustomKvEngineImpl.Request), l) in
    CustomKvEngineImpl.held_after (hd_error endpoints) None (fst (snd run))
    = Some (CustomKvEngineImpl.getClientHandle (fst run)).
Proof.
  intros L Lib endpoints l n run.
  exact (EngineFacts.reconnected_in_turn n endpoints l).
Qed.

(** X8.  Transaction identifiers do not repeat: the identifiers of up to
    2^64 successive calls of [generateTransactionId] are pairwise different,
    whatever the clock reads and whichever threads call, because each one
    ends in its own value of the 64-bit counter. *)
Theorem transaction_ids_do_not_repeat :
  forall (calls : list (Z * Z)) (counter : Z),
    0 <= counter < 2 ^ 64 ->
    Z.of_nat (List.length calls) <= 2 ^ 64 ->
    NoDup (CustomKvEngineImpl.generated calls counter).
Proof. intros calls counter Hc Hlen. now apply IdFacts.generated_NoDup. Qed.

(** Three calls in the same microsecond on the same thread, the counter one
    step before it wraps around. *)
Lemma transaction_ids_do_not_repeat_witness :
  let calls := [(5, 7); (5, 7); (5, 7)] in
  let counter := 2 ^ 64 - 2 in
  0 <= counter < 2 ^ 64
  /\ Z.of_nat (List.length calls) <= 2 ^ 64
  /\ CustomKvEngineImpl.generated calls counter
     = ["txn_5_7_18446744073709551614"; "txn_5_7_18446744073709551615";
        "txn_5_7_0"]
  /\ NoDup (CustomKvEngineImpl.generated calls counter).
Proof.
  intros calls counter.
  assert (Hc : 0 <= counter < 2 ^ 64) by (unfold counter; lia).
  assert (Hlen : Z.of_nat (List.length calls) <= 2 ^ 64)
    by (unfold calls; simpl; lia).
  split; [exact Hc |]. split; [exact Hlen |]. split; [reflexivity |].
  exact (transaction_ids_do_not_repeat calls counter Hc Hlen).
Defined.


(** ** The versionstamped requests and the codes of the answers *)

Module ReplyFacts.

Section Replies.
Context {W : Type} {E : KvClient W}.

Import Spy.

Ltac unfold_methods Hcall :=
  simpl in Hcall;
  unfold CustomTransaction.snapshotGet, CustomTransaction.get,
    CustomTransaction.snapshotGetRange, CustomTransaction.getRange,
    CustomTransaction.addReadConflict, CustomTransaction.addReadConflictRange,
    CustomTransaction.set, CustomTransaction.clear,
    CustomTransaction.setVersionstampedKey,
    CustomTransaction.setVersionstampedValue, CustomTransaction.commit,
    CustomTransaction.cancel, CustomTransaction.ensureTransaction,
    CustomTransaction.finished, CustomTransaction.reset,
    CustomTransaction.setReadVersion,
    CustomReadOnlyTransaction.snapshotGet, CustomReadOnlyTransaction.get,
    CustomReadOnlyTransaction.snapshotGetRange,
    CustomReadOnlyTransaction.getRange, CustomReadOnlyTransaction.cancel,
    CustomReadOnlyTransaction.finished in Hcall;
  simpl in Hcall; unfold begun, asked, told in Hcall; simpl in Hcall;
  repeat (break_match_hyp; simpl in *; try discriminate);
  repeat match goal with
         | Heq : (_, _) = (_, _) |- _ => inv Heq
         end;
  try discriminate.

Lemma stamped_more (cs cs' : list Calls.RwCall) (q : Request) :
  (forall c, In c cs -> In c cs') ->
  stamped_properly cs q -> stamped_properly cs' q.
Proof.
  intros Hin. destruct q; simpl; auto.
  - intros (prefix & offset & value & Hc & Hrest). eauto 6.
  - intros (key_ & value & offset & Hc & Hrest). eauto 6.
Qed.

(** The versionstamped requests a call sends are its own. *)
Lemma rw_call_stamped (c : Calls.RwCall) (tx tx' : CustomTransaction.t)
      (t t' : list Request) (w w' : W) (r : Calls.Reply) :
  Calls.rw_call c tx (t, w) = (r, tx', (t', w')) ->
  exists news, t' = (t ++ news)%list /\ Forall (stamped_properly [c]) news.
Proof.
  intros Hcall. destruct tx as [rv ca re co cv ch th].
  destruct c; unfold_methods Hcall; cbn [fst snd];
    eexists;
    (split;
     [first [rewrite <- ?app_assoc; reflexivity
            | symmetry; apply app_nil_r] |]);
    repeat constructor; simpl; auto;
    do 3 eexists; (split; [left; reflexivity |]);
    (split; [apply String.eqb_neq; assumption |]); split; reflexivity.
Qed.

Lemma rw_run_stamped (cs done : list Calls.RwCall) (tx : CustomTransaction.t)
      (t : list Request) (w : W) :
  Forall (stamped_properly done) t ->
  Forall (stamped_properly (done ++ cs)%list)
         (fst (snd (Calls.rw_run cs tx (t, w)))).
Proof.
  revert done tx t w.
  induction cs as [| c cs IH]; intros done tx t w Ht.
  - rewrite app_nil_r. exact Ht.
  - simpl.
    destruct (Calls.rw_call c tx (t, w)) as [[r tx1] [t1 w1]] eqn:Hcall.
    destruct (rw_call_stamped _ _ _ _ _ _ _ _ Hcall) as (news & -> & Hnews).
    replace (done ++ c :: cs)%list with ((done ++ [c]) ++ cs)%list
      by (rewrite <- app_assoc; reflexivity).
    apply IH. apply Forall_app. split.
    + eapply Forall_impl; [| exact Ht]. intros q. apply stamped_more.
      intros x Hx. apply in_or_app. auto.
    + eapply Forall_impl; [| exact Hnews]. intros q. apply stamped_more.
      intros x Hx. apply in_or_app. auto.
Qed.

(** The codes a read-write call can answer with. *)
Lemma rw_call_codes (c : Calls.RwCall) (tx : CustomTransaction.t) (w : W) :
  match c with
  | Calls.RwCommit _ => True
  | _ =>
    Calls.reply_code (fst (fst (Calls.rw_call c tx w))) <> Some kConflict
    /\ Calls.reply_code (fst (fst (Calls.rw_call c tx w))) <> Some kTimeout
  end.
Proof.
  destruct tx as [rv ca re co cv ch th].
  destruct c; auto;
    destruct (Calls.rw_call _ _ w) as [[r tx1] w1] eqn:Hcall;
    unfold_methods Hcall; split; discriminate.
Qed.

Lemma ro_call_codes (c : Calls.RoCall) (tx : CustomReadOnlyTransaction.t)
      (w : W) :
  Calls.reply_code (fst (fst (Calls.ro_call c tx w))) <> Some kConflict
  /\ Calls.reply_code (fst (fst (Calls.ro_call c tx w))) <> Some kTimeout.
Proof.
  destruct tx as [rv ca re ch].
  destruct c; destruct (Calls.ro_call _ _ w) as [[r tx1] w1] eqn:Hcall;
    unfold_methods Hcall; split; discriminate.
Qed.

End Replies.

End ReplyFacts.

(** X9.  No run of a read-write transaction sends a versionstamped request
    with an empty key, and the versionstamped requests a call sends carry
    the key and the value of that very call, each with its size, cast to
    [int], as the length, the value of [setVersionstampedValue] followed by
    ten NUL bytes: whatever methods are called with whatever arguments, in
    whatever state, over every client. *)
Theorem versionstamped_requests_are_well_formed :
  forall (W : Type) (E : KvClient W),
    (forall (c : Calls.RwCall) (tx : CustomTransaction.t)
            (t : list Spy.Request) (w : W),
        exists news,
          fst (snd (Calls.rw_call c tx (t, w))) = (t ++ news)%list
          /\ Forall (Spy.stamped_properly [c]) news)
    /\
    (forall (cs : list Calls.RwCall) (tx : CustomTransaction.t) (w : W),
        Forall (Spy.stamped_properly cs)
               (fst (snd (Calls.rw_run cs tx (([] : list Spy.Request), w))))).
Proof.
  intros W E. split.
  - intros c tx t w.
    destruct (Calls.rw_call c tx (t, w)) as [[r tx1] [t1 w1]] eqn:Hcall.
    exact (ReplyFacts.rw_call_stamped _ _ _ _ _ _ _ _ Hcall).
  - intros cs tx w.
    apply (ReplyFacts.rw_run_stamped cs [] tx [] w). constructor.
Qed.

(** X10.  [kConflict] and [kTimeout] are answers of [commit] alone: no other
    method of a read-write transaction and no method of a read-only
    transaction ever answers with one of them, whatever the client
    reports. *)
Theorem conflict_and_timeout_come_from_commit_only :
  forall (W : Type) (E : KvClient W) (w : W),
    (forall (c : Calls.RwCall) (tx : CustomTransaction.t),
        match c with
        | Calls.RwCommit _ => True
        | _ =>
          Calls.reply_code (fst (fst (Calls.rw_call c tx w))) <> Some kConflict
          /\ Calls.reply_code (fst (fst (Calls.rw_call c tx w)))
             <> Some kTimeout
        end)
    /\
    (forall (c : Calls.RoCall) (tx : CustomReadOnlyTransaction.t),
        Calls.reply_code (fst (fst (Calls.ro_call c tx w))) <> Some kConflict
        /\ Calls.reply_code (fst (fst (Calls.ro_call c tx w)))
           <> Some kTimeout).
Proof.
  intros W E w; split; intros c tx.
  - apply ReplyFacts.rw_call_codes.
  - apply ReplyFacts.ro_call_codes.
Qed.


(** ** The polling transaction *)

Module PollingFacts.

Import Polling.

Section Polls.
Context {W : Type} {E : KvFutureClient W}.


(** While no future gets ready, a loop uses up its retries. *)
Lemma poll_silent (left : nat) (future : handle) (retries : Z) (n : nat)
      (w : W) :
  (forall f w', fst (kv_future_poll f w') <> 1
                /\ fst (kv_future_poll f w') <> -1) ->
  fst (fst (poll_until_ready left future retries (n, w))) = TimedOut
  /\ snd (fst (poll_until_ready left future retries (n, w)))
     = retries + Z.of_nat left
  /\ fst (snd (poll_until_ready left future retries (n, w))) = (n + left)%nat.
Proof.
  intros Hs. revert retries n w.
  induction left as [| left IH]; intros retries n w.
  - simpl. repeat split; lia.
  - cbn [poll_until_ready]. simpl.
    destruct (Hs future w) as [H1 Hm].
    destruct (kv_future_poll future w) as [ready w1]. simpl in H1, Hm.
    destruct (Z.eqb_spec ready (-1)); [contradiction |].
    destruct (Z.eqb_spec ready 1); [contradiction |].
    destruct (IH (retries + 1) (S n) w1) as (Ho & Hr & Hn).
    repeat split; [exact Ho | rewrite Hr; lia | rewrite Hn; lia].
Qed.

#[local] Arguments poll_until_ready : simpl never.



Ltac silent_step Hs :=
  match goal with
  | |- context [poll_until_ready ?l ?f ?r (?n, ?w)] =>
    let Ho := fresh "Ho" in
    let Hr := fresh "Hr" in
    let Hn := fresh "Hn" in
    destruct (poll_silent l f r n w Hs) as (Ho & Hr & Hn);
    destruct (poll_until_ready l f r (n, w)) as [[? ?] [? ?]];
    simpl in Ho, Hr, Hn; subst; simpl
  | |- context [match ?x with _ => _ end] =>
    lazymatch x with
    | context [match _ with _ => _ end] => fail
    | context [poll_until_ready] => fail
    | _ => destruct x eqn:?; simpl
    end
  | |- context [if ?x then _ else _] =>
    lazymatch x with
    | context [match _ with _ => _ end] => fail
    | context [poll_until_ready] => fail
    | _ => destruct x eqn:?; simpl
    end
  end.

(** While no future gets ready, a call that needs the client gives up after
    the hundred retries of its first loop. *)
Lemma call_silent (c : Call) (tx : CustomTransaction.t) (n : nat) (w : W) :
  (forall f w', fst (kv_future_poll f w') <> 1
                /\ fst (kv_future_poll f w') <> -1) ->
  CustomTransaction.finished tx = false ->
  CustomTransaction.client_handle_ tx <> None ->
  c <> Cancel ->
  Calls.reply_code (fst (fst (call c tx (n, w)))) = Some kTimeout
  /\ fst (snd (call c tx (n, w))) = (n + 100)%nat
  /\ CustomTransaction.transaction_handle_ (snd (fst (call c tx (n, w))))
     = CustomTransaction.transaction_handle_ tx.
Proof.
  intros Hs Hfin Hch Hc.
  destruct tx as [rv ca re co cv [ch |] th]; [| now elim Hch].
  unfold CustomTransaction.finished in Hfin. simpl in Hfin.
  apply orb_false_elim in Hfin. destruct Hfin as [Hfin Hco].
  apply orb_false_elim in Hfin. destruct Hfin as [Hca Hre]. subst ca re co.
  destruct c; try (now elim Hc);
    unfold call, snapshotGet, get, set, clear, commit,
      ensureTransaction, CustomTransaction.finished; simpl;
    repeat silent_step Hs; auto.
Qed.

End Polls.

End PollingFacts.


(** X12.  In the polling version, while the client reports no future ready
    (every poll answers neither 1 nor -1), each of [snapshotGet], [get],
    [set], [clear] and [commit] on a transaction that is not finished and
    has a client handle answers [kTimeout] after exactly 100 polls, and
    leaves the transaction handle as it was: a transaction that was not yet
    begun stays without a handle. *)
Theorem polling_calls_time_out :
  forall (W : Type) (E : Polling.KvFutureClient W) (c : Polling.Call)
         (tx : CustomTransaction.t) (n : nat) (w : W),
    (forall (f : handle) (w' : W),
        fst (@Polling.kv_future_poll W E f w') <> 1
        /\ fst (@Polling.kv_future_poll W E f w') <> -1) ->
    CustomTransaction.finished tx = false ->
    CustomTransaction.client_handle_ tx <> None ->
    c <> Polling.Cancel ->
    let run := @Polling.call (nat * W) (@Polling.counted W E) c tx (n, w) in
    Calls.reply_code (fst (fst run)) = Some kTimeout
    /\ fst (snd run) = (n + 100)%nat
    /\ CustomTransaction.transaction_handle_ (snd (fst run))
       = CustomTransaction.transaction_handle_ tx.
Proof.
  intros W E c tx n w Hs Hfin Hch Hc run.
  now apply PollingFacts.call_silent.
Qed.

(** A commit of a new transaction over the client whose polls all answer
    0. *)
Lemma polling_calls_time_out_witness :
  let run := @Polling.call (nat * unit) (@Polling.counted unit Polling.silent)
                           (Polling.Commit 5) Scenarios.new_read_write
                           (0%nat, tt) in
  (forall (f : handle) (w' : unit),
      fst (@Polling.kv_future_poll unit Polling.silent f w') <> 1
      /\ fst (@Polling.kv_future_poll unit Polling.silent f w') <> -1)
  /\ CustomTransaction.finished Scenarios.new_read_write = false
  /\ CustomTransaction.client_handle_ Scenarios.new_read_write <> None
  /\ Polling.Commit 5 <> Polling.Cancel
  /\ Calls.reply_code (fst (fst run)) = Some kTimeout
  /\ fst (snd run) = 100%nat
  /\ CustomTransaction.transaction_handle_ (snd (fst run)) = None.
Proof.
  intros run.
  assert (Hs : forall (f : handle) (w' : unit),
             fst (@Polling.kv_future_poll unit Polling.silent f w') <> 1
             /\ fst (@Polling.kv_future_poll unit Polling.silent f w') <> -1)
    by (intros f w'; simpl; split; discriminate).
  assert (Hfin : CustomTransaction.finished Scenarios.new_read_write = false)
    by reflexivity.
  assert (Hch : CustomTransaction.client_handle_ Scenarios.new_read_write
                <> None) by (simpl; discriminate).
  assert (Hc : Polling.Commit 5 <> Polling.Cancel) by discriminate.
  split; [exact Hs |]. split; [exact Hfin |]. split; [exact Hch |].
  split; [exact Hc |].
  exact (polling_calls_time_out unit Polling.silent (Polling.Commit 5)
           Scenarios.new_read_write 0%nat tt Hs Hfin Hch Hc).
Defined.


(** ** The committed flag and the committed version *)

Module CommitFacts.

Section Commits.
Context {W : Type}.

#[local] Arguments Polling.poll_until_ready : simpl never.

Ltac split_goal :=
  repeat match goal with
         | |- context [match ?x with _ => _ end] =>
           lazymatch x with
           | context [match _ with _ => _ end] => fail
           | _ => destruct x eqn:?; simpl
           end
         | |- context [if ?x then _ else _] =>
           lazymatch x with
           | context [match _ with _ => _ end] => fail
           | _ => destruct x eqn:?; simpl
           end
         end.

(** The polling [commit] sets the committed flag before it asks the client,
    and nothing takes it back. *)
Lemma polling_commit_marks_committed {E : Polling.KvFutureClient W}
      (tx : CustomTransaction.t) (now : Z) (w : W) :
  CustomTransaction.cancelled_ tx = false ->
  CustomTransaction.reset_ tx = false ->
  CustomTransaction.cancelled_ (snd (fst (Polling.commit tx now w))) = false
  /\ CustomTransaction.reset_ (snd (fst (Polling.commit tx now w))) = false
  /\ CustomTransaction.committed_ (snd (fst (Polling.commit tx now w))) = true.
Proof.
  destruct tx as [rv ca re co cv ch th]; simpl; intros -> ->.
  unfold Polling.commit, Polling.ensureTransaction; simpl.
  destruct co; simpl; [auto |].
  destruct th as [h |]; simpl.
  - destruct (Polling.kv_transaction_commit h w) as [f w1].
    destruct (Polling.poll_until_ready 100 f 0 w1) as [[[| |] r] w2];
      simpl; auto.
    split_goal; auto.
  - destruct ch as [c |]; simpl; [| auto].
    destruct (Polling.kv_transaction_begin 30 w) as [f0 w0].
    destruct (Polling.poll_until_ready 100 f0 0 w0) as [[[| |] r0] w1];
      simpl; auto.
    destruct (Polling.kv_future_get_transaction f0 w1) as [[h |] w2];
      simpl; auto.
    destruct (Polling.kv_transaction_commit h w2) as [f w3].
    destruct (Polling.poll_until_ready 100 f 0 w3) as [[[| |] r] w4];
      simpl; auto.
    split_goal; auto.
Qed.

(** One call keeps: the committed version is -1 or the flag is set; and the
    version stays, or goes back to -1, or is the clock of this commit. *)
Lemma rw_call_version {E : KvClient W} (c : Calls.RwCall)
      (tx : CustomTransaction.t) (w : W) :
  CustomTransaction.committed_version_ tx = -1
  \/ CustomTransaction.committed_ tx = true ->
  (CustomTransaction.committed_version_ (snd (fst (Calls.rw_call c tx w))) = -1
   \/ CustomTransaction.committed_ (snd (fst (Calls.rw_call c tx w))) = true)
  /\ (CustomTransaction.committed_version_ (snd (fst (Calls.rw_call c tx w)))
      = CustomTransaction.committed_version_ tx
      \/ CustomTransaction.committed_version_ (snd (fst (Calls.rw_call c tx w)))
         = -1
      \/ exists now,
          c = Calls.RwCommit now
          /\ CustomTransaction.committed_version_
               (snd (fst (Calls.rw_call c tx w))) = now).
Proof.
  destruct tx as [rv ca re co cv ch th]; simpl; intros Hp.
  destruct c; simpl;
    unfold CustomTransaction.snapshotGet, CustomTransaction.get,
      CustomTransaction.snapshotGetRange, CustomTransaction.getRange,
      CustomTransaction.addReadConflict, CustomTransaction.addReadConflictRange,
      CustomTransaction.set, CustomTransaction.clear,
      CustomTransaction.setVersionstampedKey,
      CustomTransaction.setVersionstampedValue, CustomTransaction.commit,
      CustomTransaction.cancel, CustomTransaction.ensureTransaction,
      CustomTransaction.finished;
    simpl; split_goal; split; eauto.
Qed.

Lemma rw_run_version {E : KvClient W} (cs : list Calls.RwCall)
      (tx : CustomTransaction.t) (w : W) :
  CustomTransaction.committed_version_ tx = -1
  \/ CustomTransaction.committed_ tx = true ->
  (CustomTransaction.committed_version_ (fst (Calls.rw_run cs tx w)) = -1
   \/ CustomTransaction.committed_ (fst (Calls.rw_run cs tx w)) = true)
  /\ (CustomTransaction.committed_version_ (fst (Calls.rw_run cs tx w))
      = CustomTransaction.committed_version_ tx
      \/ CustomTransaction.committed_version_ (fst (Calls.rw_run cs tx w)) = -1
      \/ exists now,
          In (Calls.RwCommit now) cs
          /\ CustomTransaction.committed_version_ (fst (Calls.rw_run cs tx w))
             = now).
Proof.
  revert tx w. induction cs as [| c cs IH]; intros tx w Hp; [simpl; auto |].
  simpl. destruct (rw_call_version c tx w Hp) as (Hp1 & Hv1).
  destruct (Calls.rw_call c tx w) as [[r tx1] w1]. simpl in Hp1, Hv1.
  destruct (IH tx1 w1 Hp1) as (Hp2 & Hv2). split; [exact Hp2 |].
  destruct Hv2 as [Heq | [Hm | (now & Hin & Hnow)]].
  - rewrite Heq. destruct Hv1 as [Heq1 | [Hm1 | (now & -> & Hnow)]].
    + now left.
    + right. now left.
    + right. right. exists now. split; [now left | exact Hnow].
  - right. now left.
  - right. right. exists now. split; [now right | exact Hnow].
Qed.

End Commits.

End CommitFacts.

(** X13.  In the polling version a commit is never sent twice: after one
    call of [commit] on a transaction that is neither cancelled nor reset -
    also one that timed out or whose polling failed, so that the fate of the
    commit is unknown - the next call of [commit] answers success at once
    and leaves the transaction and the client untouched. *)
Theorem polling_commit_is_not_retried :
  forall (W : Type) (E : Polling.KvFutureClient W) (tx : CustomTransaction.t)
         (now now' : Z) (w : W),
    CustomTransaction.cancelled_ tx = false ->
    CustomTransaction.reset_ tx = false ->
    let first := @Polling.commit W E tx now w in
    @Polling.commit W E (snd (fst first)) now' (snd first)
    = (Ok tt, snd (fst first), snd first).
Proof.
  intros W E tx now now' w Hc Hr first.
  destruct (CommitFacts.polling_commit_marks_committed tx now w Hc Hr)
    as (Hc1 & Hr1 & Hk1).
  fold first in Hc1, Hr1, Hk1.
  unfold Polling.commit at 1. now rewrite Hc1, Hr1, Hk1.
Qed.

(** The commit of a new transaction times out over the client whose polls
    all answer 0; the second commit answers success. *)
Lemma polling_commit_is_not_retried_witness :
  let first := @Polling.commit unit Polling.silent Scenarios.new_read_write
                               5 tt in
  CustomTransaction.cancelled_ Scenarios.new_read_write = false
  /\ CustomTransaction.reset_ Scenarios.new_read_write = false
  /\ fst (fst first) = makeError kTimeout "Transaction begin timed out"
  /\ @Polling.commit unit Polling.silent (snd (fst first)) 6 (snd first)
     = (Ok tt, snd (fst first), snd first).
Proof.
  intros first. split; [reflexivity |]. split; [reflexivity |].
  split; [reflexivity |].
  exact (polling_commit_is_not_retried unit Polling.silent
           Scenarios.new_read_write 5 6 tt eq_refl eq_refl).
Defined.

(** X14.  [getCommittedVersion] of a transaction answers -1 - before any
    commit, after a commit that failed, after [reset] - or else the clock
    reading of one of its [commit] calls, and then the transaction is marked
    committed: whatever was called on the new transaction, over every
    client. *)
Theorem committed_version_is_unset_or_a_commit_clock :
  forall (W : Type) (E : KvClient W) (cs : list Calls.RwCall)
         (client_handle : option handle) (w : W),
    let tx := fst (Calls.rw_run cs (CustomTransaction.create client_handle) w) in
    CustomTransaction.getCommittedVersion tx = -1
    \/ (CustomTransaction.committed_ tx = true
        /\ exists now, In (Calls.RwCommit now) cs
                       /\ CustomTransaction.getCommittedVersion tx = now).
Proof.
  intros W E cs client_handle w tx.
  destruct (CommitFacts.rw_run_version cs (CustomTransaction.create client_handle)
              w (or_introl eq_refl)) as (Hp & Hv).
  fold tx in Hp, Hv. unfold CustomTransaction.getCommittedVersion.
  destruct Hv as [Heq | [Hm | (now & Hin & Hnow)]]; auto.
  destruct Hp as [Hm | Hk]; auto. right. eauto.
Qed.


(** ** The read transactions of the polling version *)

Module PollingReadFacts.

Import Polling.

Section OpenReads.
Context {W : Type} {E : KvFutureClient W}.


#[local] Arguments poll_until_ready : simpl never.



End OpenReads.

End PollingReadFacts.

